(** * Block-sparse LU factorisation (KaStORS SparseLU, CARTS test versions)

    A shallow embedding of [sparselu-task-dep.c] and [sparselu-task.c]:
    the four dense tile kernels, the matrix generator, the allocation
    paths, and the three factorisation drivers ([sparselu_par_call] of the
    task-dependency version, [sparselu_par_call] and [sparselu_seq_call]
    of the plain task version).

    The embedding runs every [#pragma omp task] body at the point where
    the task is created, with the data-sharing the construct gives its
    variables: the slot table and the tiles are shared, and a local
    variable of the enclosing function that the construct does not list is
    the task's own copy, as [init_val] in [genmat].  Task creation,
    fill-in allocation and [taskwait] are recorded in an event log so
    that statements about the submission pass can be made.

    Single precision arithmetic is kept abstract (class [Scalar]); every
    kernel applies the operations in the iteration order of the C loops. *)

From stdpp Require Import gmap list fin_maps strings.
From Stdlib Require Import ZArith Lia SpecFloat.

(** ** Scalars *)

(** The [float] operations the kernels use.  [of_lcg v] stands for the C
    expression [(float)((v - 32768.0) / 16384.0)] of [genmat]. *)
Class Scalar (F : Type) := {
  fzero : F;
  fsub : F → F → F;
  fmul : F → F → F;
  fdiv : F → F → F;
  of_lcg : Z → F
}.

(** A tile is a [float **]: an array of [submatrix_size] row pointers, each
    to [submatrix_size] floats.  Tiles handed to the kernels come from
    [allocate_clean_block] and are square of that size; an access outside
    the lists (undefined behaviour in C) reads [fzero] and writes nothing. *)
Abbreviation tile F := (list (list F)).

(** C loop [for (i = lo; i < hi; i++) body], threading the mutated data. *)
Definition for_range {S : Type} (lo hi : nat) (body : nat → S → S) (s : S) : S :=
  foldl (λ acc i, body i acc) s (seq lo (hi - lo)).

Section kernels.
Context {F : Type} `{!Scalar F}.

(** [t[i][j]] *)
Definition tget (t : tile F) (i j : nat) : F :=
  default fzero (t !! i ≫= λ row : list F, row !! j).

(** [t[i][j] = v] *)
Definition tset (t : tile F) (i j : nat) (v : F) : tile F :=
  alter (λ row : list F, <[j := v]> row) i t.

(** [lu0], sparselu-task-dep.c lines 50-59. *)
Definition lu0 (diag : tile F) (submatrix_size : nat) : tile F :=
  for_range 0 submatrix_size (λ k diag,
    for_range (k + 1) submatrix_size (λ i diag,
      let diag := tset diag i k (fdiv (tget diag i k) (tget diag k k)) in
      for_range (k + 1) submatrix_size (λ j diag,
        tset diag i j (fsub (tget diag i j) (fmul (tget diag i k) (tget diag k j))))
        diag) diag) diag.

(** [bdiv], lines 61-69: [diag] is read only, [row] is updated. *)
Definition bdiv (diag row : tile F) (submatrix_size : nat) : tile F :=
  for_range 0 submatrix_size (λ i row,
    for_range 0 submatrix_size (λ k row,
      let row := tset row i k (fdiv (tget row i k) (tget diag k k)) in
      for_range (k + 1) submatrix_size (λ j row,
        tset row i j (fsub (tget row i j) (fmul (tget row i k) (tget diag k j))))
        row) row) row.

(** [bmod], lines 71-77: [inner -= row * col]. *)
Definition bmod (row col inner : tile F) (submatrix_size : nat) : tile F :=
  for_range 0 submatrix_size (λ i inner,
    for_range 0 submatrix_size (λ j inner,
      for_range 0 submatrix_size (λ k inner,
        tset inner i j (fsub (tget inner i j) (fmul (tget row i k) (tget col k j))))
        inner) inner) inner.

(** [fwd], lines 79-85: [diag] is read only, [col] is updated. *)
Definition fwd (diag col : tile F) (submatrix_size : nat) : tile F :=
  for_range 0 submatrix_size (λ j col,
    for_range 0 submatrix_size (λ k col,
      for_range (k + 1) submatrix_size (λ i col,
        tset col i j (fsub (tget col i j) (fmul (tget diag i k) (tget col k j))))
        col) col) col.

(** The block [allocate_clean_block] returns when every [malloc]
    succeeds: [submatrix_size] rows of [submatrix_size] zeros. *)
Definition clean_block (submatrix_size : nat) : tile F :=
  replicate submatrix_size (replicate submatrix_size fzero).

(** *** The elimination of [lu0] as the specification words it *)

(** One elementary update of the tile. *)
Inductive elim_op :=
| Scale (i k : nat)          (* diag[i][k] := diag[i][k] / diag[k][k] *)
| Update (i j k : nat).      (* diag[i][j] := diag[i][j] - diag[i][k] * diag[k][j] *)

Definition apply_op (diag : tile F) (op : elim_op) : tile F :=
  match op with
  | Scale i k => tset diag i k (fdiv (tget diag i k) (tget diag k k))
  | Update i j k =>
      tset diag i j (fsub (tget diag i j) (fmul (tget diag i k) (tget diag k j)))
  end.

(** For k from 0 to b-1, for each i > k: first the scaling of
    [diag[i][k]], then for each j > k the update of [diag[i][j]]. *)
Definition lu0_schedule (b : nat) : list elim_op :=
  k ← seq 0 b;
  i ← seq (k + 1) (b - (k + 1));
  Scale i k :: ((λ j, Update i j k) <$> seq (k + 1) (b - (k + 1))).

Definition lu0_spec (diag : tile F) (b : nat) : tile F :=
  foldl apply_op diag (lu0_schedule b).
End kernels.

(** ** The block matrix and the issuing thread *)

(** [float ***BENCH]: slot [(i, j)] is either [NULL] (no binding) or owns
    one tile.  Every tile is allocated on its own, so no two slots share a
    tile and a kernel's result can be stored back into its slot. *)
Abbreviation grid F := (gmap (nat * nat) (tile F)).

Definition present {F} (g : grid F) (i j : nat) : Prop := is_Some (g !! (i, j)).

#[global] Instance present_dec {F} (g : grid F) i j : Decision (present g i j).
Proof. unfold present. apply _. Defined.

(** The tile operations, with the loop indices of the call site. *)
Inductive task :=
| Lu0 (k : nat)
| Fwd (k j : nat)
| Bdiv (k i : nat)
| Bmod (k i j : nat).

(** Where a call of [allocate_clean_block] is made from. *)
Inductive who := Issuer | InTask.

Inductive event :=
| Submit (t : task)            (* a [#pragma omp task] is reached *)
| Alloc (w : who) (i j : nat)  (* [BENCH[i][j] = allocate_clean_block(..)] *)
| Taskwait.                    (* [#pragma omp taskwait] *)

#[global] Instance task_eq_dec : EqDecision task.
Proof. solve_decision. Defined.
#[global] Instance who_eq_dec : EqDecision who.
Proof. solve_decision. Defined.
#[global] Instance event_eq_dec : EqDecision event.
Proof. solve_decision. Defined.

Record state (F : Type) := State { st_grid : grid F; st_log : list event }.
Arguments State {F} _ _.
Arguments st_grid {F} _.
Arguments st_log {F} _.

(** Computations of the factorisation: they update the matrix and the
    log; [None] is a NULL tile handed to a kernel. *)
Definition M (F A : Type) : Type := state F → option (A * state F).

#[global] Instance M_ret {F} : MRet (M F) := λ A a s, Some (a, s).
#[global] Instance M_bind {F} : MBind (M F) := λ A B f m s,
  match m s with
  | Some (a, s') => f a s'
  | None => None
  end.

Section issuing.
Context {F : Type} `{!Scalar F}.

(** A tile argument of a kernel call: the kernel indexes through it. *)
Definition arg (i j : nat) : M F (tile F) := λ s,
  match st_grid s !! (i, j) with
  | Some t => Some (t, s)
  | None => None
  end.

(** The kernel has updated the tile of slot [(i, j)] in place. *)
Definition write (i j : nat) (t : tile F) : M F unit := λ s,
  Some ((), State (<[(i, j) := t]> (st_grid s)) (st_log s)).

Definition emit (e : event) : M F unit := λ s,
  Some ((), State (st_grid s) (st_log s ++ [e])).

(** [if (BENCH[i][j] != NULL) body] and [if (BENCH[i][j] == NULL) body] *)
Definition if_present (i j : nat) (body : M F unit) : M F unit := λ s,
  if decide (present (st_grid s) i j) then body s else Some ((), s).

Definition if_absent (i j : nat) (body : M F unit) : M F unit := λ s,
  if decide (present (st_grid s) i j) then Some ((), s) else body s.

Fixpoint for_each (l : list nat) (body : nat → M F unit) : M F unit :=
  match l with
  | [] => mret ()
  | i :: l => body i ;; for_each l body
  end.

(** [for (i = lo; i < hi; i++) body] *)
Definition loop (lo hi : nat) (body : nat → M F unit) : M F unit :=
  for_each (seq lo (hi - lo)) body.

(** A task construct: the task is created, and its body runs there. *)
Definition submit (t : task) (body : M F unit) : M F unit :=
  emit (Submit t) ;; body.

(** [BENCH[i][j] = allocate_clean_block(submatrix_size)] *)
Definition alloc (w : who) (i j : nat) (submatrix_size : nat) : M F unit :=
  emit (Alloc w i j) ;; write i j (clean_block submatrix_size).

Definition call_lu0 (kk b : nat) : M F unit :=
  diag ← arg kk kk; write kk kk (lu0 diag b).

Definition call_fwd (kk jj b : nat) : M F unit :=
  diag ← arg kk kk; col ← arg kk jj; write kk jj (fwd diag col b).

Definition call_bdiv (kk ii b : nat) : M F unit :=
  diag ← arg kk kk; row ← arg ii kk; write ii kk (bdiv diag row b).

Definition call_bmod (kk ii jj b : nat) : M F unit :=
  row ← arg ii kk; col ← arg kk jj; inner ← arg ii jj;
  write ii jj (bmod row col inner b).
End issuing.

(** ** sparselu-task-dep.c *)
Module TaskDep.
Section drivers.
Context {F : Type} `{!Scalar F}.

(** One iteration of the [kk] loop, lines 163-191. *)
Definition step (matrix_size submatrix_size kk : nat) : M F unit :=
  submit (Lu0 kk) (call_lu0 kk submatrix_size) ;;
  loop (kk + 1) matrix_size (λ jj,
    if_present kk jj
      (submit (Fwd kk jj) (call_fwd kk jj submatrix_size))) ;;
  loop (kk + 1) matrix_size (λ ii,
    if_present ii kk
      (submit (Bdiv kk ii) (call_bdiv kk ii submatrix_size))) ;;
  loop (kk + 1) matrix_size (λ ii,
    if_present ii kk
      (loop (kk + 1) matrix_size (λ jj,
        if_present kk jj
          (if_absent ii jj (alloc Issuer ii jj submatrix_size) ;;
           submit (Bmod kk ii jj) (call_bmod kk ii jj submatrix_size))))).

(** [sparselu_par_call], lines 156-195. *)
Definition sparselu_par_call (matrix_size submatrix_size : nat) : M F unit :=
  loop 0 matrix_size (step matrix_size submatrix_size) ;;
  emit Taskwait.
End drivers.
End TaskDep.

(** ** sparselu-task.c *)
Module Task.
Section drivers.
Context {F : Type} `{!Scalar F}.

(** One iteration of the [kk] loop of [sparselu_par_call], lines 163-192:
    [lu0] is called directly, and the [bmod] task body contains the
    test and the allocation of its target. *)
Definition par_step (matrix_size submatrix_size kk : nat) : M F unit :=
  call_lu0 kk submatrix_size ;;
  loop (kk + 1) matrix_size (λ jj,
    if_present kk jj
      (submit (Fwd kk jj) (call_fwd kk jj submatrix_size))) ;;
  loop (kk + 1) matrix_size (λ ii,
    if_present ii kk
      (submit (Bdiv kk ii) (call_bdiv kk ii submatrix_size))) ;;
  emit Taskwait ;;
  loop (kk + 1) matrix_size (λ ii,
    if_present ii kk
      (loop (kk + 1) matrix_size (λ jj,
        if_present kk jj
          (submit (Bmod kk ii jj)
             (if_absent ii jj (alloc InTask ii jj submatrix_size) ;;
              call_bmod kk ii jj submatrix_size))))) ;;
  emit Taskwait.

Definition sparselu_par_call (matrix_size submatrix_size : nat) : M F unit :=
  loop 0 matrix_size (par_step matrix_size submatrix_size).

(** One iteration of the [kk] loop of [sparselu_seq_call], lines 199-225:
    no task is created, every kernel call is guarded. *)
Definition seq_step (matrix_size submatrix_size kk : nat) : M F unit :=
  if_present kk kk (call_lu0 kk submatrix_size) ;;
  loop (kk + 1) matrix_size (λ jj,
    if_present kk jj (if_present kk kk (call_fwd kk jj submatrix_size))) ;;
  loop (kk + 1) matrix_size (λ ii,
    if_present ii kk (if_present kk kk (call_bdiv kk ii submatrix_size))) ;;
  loop (kk + 1) matrix_size (λ ii,
    if_present ii kk
      (loop (kk + 1) matrix_size (λ jj,
        if_present kk jj
          (if_absent ii jj (alloc Issuer ii jj submatrix_size) ;;
           call_bmod kk ii jj submatrix_size)))).

Definition sparselu_seq_call (matrix_size submatrix_size : nat) : M F unit :=
  loop 0 matrix_size (seq_step matrix_size submatrix_size).
End drivers.
End Task.

(** ** Allocation and matrix generation *)

(** The process as the allocating functions see it: how many times
    [malloc] has been called, and what has been printed on [stderr]. *)
Record proc := Proc { mallocs : nat; stderr : list string }.

(** A call either returns to its caller or ends the process in [exit]. *)
Inductive outcome (A : Type) :=
| Returned (a : A) (p : proc)
| Exited (code : Z) (p : proc).
Arguments Returned {A} _ _.
Arguments Exited {A} _ _.

Definition P (A : Type) : Type := proc → outcome A.

#[global] Instance P_ret : MRet P := λ A a p, Returned a p.
#[global] Instance P_bind : MBind P := λ A B f m p,
  match m p with
  | Returned a p' => f a p'
  | Exited code p' => Exited code p'
  end.

Definition fprintf_stderr (msg : string) : P unit := λ p,
  Returned () (Proc (mallocs p) (stderr p ++ [msg])).

Definition exit (code : Z) : P unit := λ p, Exited code p.

Definition when (c : bool) (body : P unit) : P unit :=
  if c then body else mret ().

Fixpoint foldP {S : Type} (l : list nat) (body : nat → S → P S) (s : S) : P S :=
  match l with
  | [] => mret s
  | i :: l => s' ← body i s; foldP l body s'
  end.

(** [for (i = lo; i < hi; i++) body], in a function that may [exit]. *)
Definition for_rangeP {S : Type} (lo hi : nat) (body : nat → S → P S) (s : S) : P S :=
  foldP (seq lo (hi - lo)) body s.

Definition newline : string := String (Ascii.ascii_of_nat 10) EmptyString.
Definition msg_block : string :=
  ("Error: malloc failed in allocate_clean_block" ++ newline)%string.
Definition msg_bench : string :=
  ("Error: malloc failed for benchmark matrix" ++ newline)%string.

(** [int] arithmetic: the result of an operation, wrapped to 32 bits. *)
Definition wrap_int (z : Z) : Z := ((z + 2 ^ 31) mod 2 ^ 32 - 2 ^ 31)%Z.

(** [init_val = (3125 * init_val) % 65536], genmat line 123. *)
Definition lcg_next (init_val : Z) : Z :=
  Z.rem (wrap_int (3125 * init_val)) 65536.

(** The computation of [null_entry], genmat lines 102-116. *)
Definition null_entry_of (ii jj : Z) : Z :=
  let null_entry := 0%Z in
  let null_entry :=
    if (ii <? jj)%Z && negb (Z.rem ii 3 =? 0)%Z then 1%Z else null_entry in
  let null_entry :=
    if (ii >? jj)%Z && negb (Z.rem jj 3 =? 0)%Z then 1%Z else null_entry in
  let null_entry := if (Z.rem ii 2 =? 1)%Z then 1%Z else null_entry in
  let null_entry := if (Z.rem jj 2 =? 1)%Z then 1%Z else null_entry in
  let null_entry := if (ii =? jj)%Z then 0%Z else null_entry in
  let null_entry := if (ii =? jj - 1)%Z then 0%Z else null_entry in
  let null_entry := if (ii - 1 =? jj)%Z then 0%Z else null_entry in
  null_entry.

Section init.
Context {F : Type} `{!Scalar F}.

(** The heap: whether the n-th call of [malloc] of the run succeeds, and
    the indeterminate value the floats of a fresh array hold. *)
Variable malloc_ok : nat → bool.
Variable junk : F.

Definition malloc : P bool := λ p,
  Returned (malloc_ok (mallocs p)) (Proc (S (mallocs p)) (stderr p)).

(** [allocate_clean_block], lines 22-39.  The fresh array of row pointers
    is a list of empty rows until each pointer is assigned. *)
Definition allocate_clean_block (submatrix_size : nat) : P (tile F) :=
  ok ← malloc;
  when (negb ok) (fprintf_stderr msg_block ;; exit 101) ;;
  for_rangeP 0 submatrix_size (λ i block,
    ok ← malloc;
    when (negb ok) (fprintf_stderr msg_block ;; exit 101) ;;
    mret (<[i :=
      for_range 0 submatrix_size (λ j row, <[j := fzero]> row)
        (replicate submatrix_size junk)]> block))
    (replicate submatrix_size []).

(** The filling of a fresh block, genmat lines 121-126. *)
Definition fill_block (block : tile F) (init_val : Z) (submatrix_size : nat)
  : tile F * Z :=
  for_range 0 submatrix_size (λ i,
    for_range 0 submatrix_size (λ j '(block, init_val),
      let init_val := lcg_next init_val in
      (tset block i j (of_lcg init_val), init_val))) (block, init_val).

(** [genmat], lines 91-134.  The loop state is the slot table [M] and
    [init_val].  The loop body is the task of line 99, which runs where it
    is created.  The construct lists [M] as shared and nothing else;
    [ii], [jj] and [init_val] are locals of [genmat], private to the
    thread that runs it, so they are firstprivate in the task: the task
    works on a copy of [init_val] that starts at the value [genmat]
    holds, and what lines 121-126 assign is that copy.  The [init_val] of
    [genmat] is assigned at line 94 only. *)
Definition genmat (M : grid F) (matrix_size submatrix_size : nat) : P (grid F) :=
  st ← for_rangeP 0 matrix_size (λ ii,
    for_rangeP 0 matrix_size (λ jj '(M, init_val),
      let task_init_val := init_val in
      if (null_entry_of (Z.of_nat ii) (Z.of_nat jj) =? 0)%Z then
        block ← allocate_clean_block submatrix_size;
        let '(block, task_init_val) :=
          fill_block block task_init_val submatrix_size in
        mret (<[(ii, jj) := block]> M, init_val)
      else
        mret (delete (ii, jj) M, init_val))) (M, 1325%Z);
  mret st.1.

(** [sparselu_init], lines 136-150.  The slots of the fresh table are
    indeterminate until [genmat] assigns every one of them; the table
    starts with no binding. *)
Definition sparselu_init (matrix_size submatrix_size : nat) : P (grid F) :=
  ok ← malloc;
  when (negb ok) (fprintf_stderr msg_bench ;; exit 101) ;;
  for_rangeP 0 matrix_size (λ i (_ : unit),
    ok ← malloc;
    when (negb ok) (fprintf_stderr msg_bench ;; exit 101)) () ;;
  genmat ∅ matrix_size submatrix_size.
End init.

(** *** The generator as the specification words it *)

(** Slot [(i, j)] holds a tile: on the three central diagonals, or both
    indices even with ([i >= j] or [i % 3 == 0]) and ([i <= j] or
    [j % 3 == 0]). *)
Definition structural_nonzero (i j : nat) : Prop :=
  i = j ∨ i = j + 1 ∨ i + 1 = j ∨
  (i mod 2 = 0 ∧ j mod 2 = 0 ∧ (j ≤ i ∨ i mod 3 = 0) ∧ (i ≤ j ∨ j mod 3 = 0)).

#[global] Instance structural_nonzero_dec i j : Decision (structural_nonzero i j).
Proof. unfold structural_nonzero. apply _. Defined.

(** The first [m] values of the recurrence
    [init_val := (3125 * init_val) mod 65536] after [v]. *)
Fixpoint lcg_seq (v : Z) (m : nat) : list Z :=
  match m with
  | 0 => []
  | S m => let v' := ((3125 * v) mod 65536)%Z in v' :: lcg_seq v' m
  end.

(** The slots of an n x n table in row-major order, and the entries of the
    tiles they hold, each tile read row by row. *)
Definition slots (n : nat) : list (nat * nat) :=
  ii ← seq 0 n; jj ← seq 0 n; [(ii, jj)].

Definition entries {F} (M : grid F) (l : list (nat * nat)) : list F :=
  c ← l; from_option (λ t : tile F, concat t) [] (M !! c).

Definition square {F} (b : nat) (t : tile F) : Prop :=
  length t = b ∧ Forall (λ row, length row = b) t.

(** ** Reading the event log *)

(** The slots allocated, and the tasks created, in the order of the log. *)
Definition allocated (evs : list event) : list (nat * nat) :=
  e ← evs; match e with Alloc _ i j => [(i, j)] | _ => [] end.

Definition submitted (evs : list event) : list task :=
  e ← evs; match e with Submit t => [t] | _ => [] end.

(** The slots that hold a tile once the events [evs] have happened, when
    the slots of [D] held one before. *)
Definition presence_after (D : gset (nat * nat)) (evs : list event)
  : gset (nat * nat) :=
  D ∪ list_to_set (allocated evs).

(** The slots named in the [depend] clauses of a task. *)
Definition footprint (t : task) : list (nat * nat) :=
  match t with
  | Lu0 k => [(k, k)]
  | Fwd k j => [(k, k); (k, j)]
  | Bdiv k i => [(k, k); (i, k)]
  | Bmod k i j => [(i, k); (k, j); (i, j)]
  end.

(** A log is disciplined from presence [D] when every task is created
    with all the slots of its footprint holding a tile, and every
    allocation is for a slot that holds none. *)
Fixpoint disciplined (D : gset (nat * nat)) (evs : list event) : Prop :=
  match evs with
  | [] => True
  | Submit t :: evs => (∀ c, c ∈ footprint t → c ∈ D) ∧ disciplined D evs
  | Alloc _ i j :: evs => ((i, j) ∉ D) ∧ disciplined ({[(i, j)]} ∪ D) evs
  | Taskwait :: evs => disciplined D evs
  end.

Definition by_issuer (e : event) : Prop :=
  match e with Alloc w _ _ => w = Issuer | _ => True end.

Definition fill_in_of_step (kk : nat) (e : event) : Prop :=
  match e with Alloc w i j => w = Issuer ∧ kk < i ∧ kk < j | _ => True end.


(** The tasks of step [k], in the order of their creation: one [lu0],
    one [fwd] per tile of row [k] right of the diagonal, one [bdiv] per
    tile of column [k] below it, one [bmod] per pair of these. *)
Definition step_tasks {F} (g : grid F) (n k : nat) : list task :=
  let rng := seq (k + 1) (n - (k + 1)) in
  [Lu0 k]
  ++ (Fwd k <$> filter (λ j, present g k j) rng)
  ++ (Bdiv k <$> filter (λ i, present g i k) rng)
  ++ (i ← filter (λ i, present g i k) rng;
      j ← filter (λ j, present g k j) rng;
      [Bmod k i j]).

(** ** Vocabulary of the proofs *)

#[global] Instance by_issuer_dec e : Decision (by_issuer e).
Proof. destruct e; simpl; apply _. Defined.

Section log_vocabulary.
Context {F : Type}.
Implicit Types (s : state F) (evs : list event).

(** What a terminated computation has done, as seen from the log. *)
Definition trans (Q : event → Prop) s evs s' : Prop :=
  st_log s' = st_log s ++ evs ∧
  dom (st_grid s') = presence_after (dom (st_grid s)) evs ∧
  disciplined (dom (st_grid s)) evs ∧
  Forall Q evs.

Definition runs (Q : event → Prop) (m : M F unit) s evs s' : Prop :=
  m s = Some ((), s') ∧ trans Q s evs s'.

(** A computation that either faults or terminates as [trans] says. *)
Definition transits (Q : event → Prop) (m : M F unit) s : Prop :=
  match m s with
  | Some (_, s') => ∃ evs, trans Q s evs s'
  | None => True
  end.

(** Presence in row [kk] and column [kk] is the one of [s0]. *)
Definition agree (kk : nat) (s0 s : state F) : Prop :=
  ∀ i j, i = kk ∨ j = kk →
    ((i, j) ∈ dom (st_grid s) ↔ (i, j) ∈ dom (st_grid s0)).

(** Started on equal matrices in which the slots of [req] hold a tile,
    both computations terminate, on equal matrices again, and no slot has
    lost its tile. *)
Definition sim (req : nat * nat → Prop) (m1 m2 : M F unit) : Prop :=
  ∀ s1 s2,
    (∀ c, req c → c ∈ dom (st_grid s1)) → st_grid s1 = st_grid s2 →
    ∃ s1' s2',
      m1 s1 = Some ((), s1') ∧ m2 s2 = Some ((), s2') ∧
      st_grid s1' = st_grid s2' ∧ dom (st_grid s1) ⊆ dom (st_grid s1').

(** The computation [m], run after the log-only change [k]. *)
Definition after (k : state F → state F) (m : M F unit) : M F unit :=
  λ s, m (k s).
End log_vocabulary.

Definition on_diagonal (n : nat) (c : nat * nat) : Prop := c.1 = c.2 ∧ c.1 < n.

(** The allocation discipline of a driver: a run that terminates has
    created every [bmod] task with its target slot holding a tile, and
    has allocated from the issuing pass only. *)
Definition bmod_targets_ready {F : Type} (driver : nat → nat → M F unit) : Prop :=
  ∀ (n b : nat) (g : grid F) (s' : state F),
    driver n b (State g []) = Some ((), s') →
    (∀ pre k i j post, st_log s' = pre ++ Submit (Bmod k i j) :: post →
       (i, j) ∈ presence_after (dom g) pre) ∧
    Forall by_issuer (st_log s').

(** A heap is given by [malloc_ok], which tells whether the n-th call
    of [malloc] succeeds. *)
Section heap_vocabulary.
Variable malloc_ok : nat → bool.

(** What a call started in [p] may end in: it returns only if every
    [malloc] it made succeeded, having printed nothing; otherwise the
    last [malloc] it made is the first that failed, one message has been
    printed, and the process has exited with code 101. *)
Definition fail_fast {A : Type} (p : proc) (o : outcome A) : Prop :=
  match o with
  | Returned _ p' =>
      stderr p' = stderr p ∧ mallocs p ≤ mallocs p' ∧
      ∀ m, mallocs p ≤ m < mallocs p' → malloc_ok m = true
  | Exited code p' =>
      code = 101%Z ∧
      (∃ msg, msg ∈ [msg_block; msg_bench] ∧ stderr p' = stderr p ++ [msg]) ∧
      mallocs p < mallocs p' ∧
      malloc_ok (mallocs p' - 1) = false ∧
      ∀ m, mallocs p ≤ m < mallocs p' - 1 → malloc_ok m = true
  end.
End heap_vocabulary.

(** The result of a call that returns. *)
Definition returns {A : Type} (o : outcome A) (Q : A → Prop) : Prop :=
  match o with Returned a _ => Q a | Exited _ _ => True end.

(** The values [init_val] takes, as [genmat] computes them. *)
Fixpoint lcg_run (v : Z) (m : nat) : list Z :=
  match m with
  | 0 => []
  | S m => lcg_next v :: lcg_run (lcg_next v) m
  end.

(** The number of slots of [l] that hold a tile. *)
Definition nonzero_count (l : list (nat * nat)) : nat :=
  length (filter (λ c : nat * nat, structural_nonzero c.1 c.2) l).

Section generator_vocabulary.
Context {F : Type} `{!Scalar F}.

(** The rows [fill_block] writes: row [i] holds the values
    [i * b + 1 .. i * b + b] of the run. *)
Definition rows_of (v : Z) (b m : nat) : tile F :=
  (λ i, of_lcg <$> lcg_run (Nat.iter (i * b) lcg_next v) b) <$> seq 0 m.

(** What [genmat] does to one slot, when the allocation succeeds. *)
Definition gen_slot (b : nat) (st : grid F * Z) (c : nat * nat) : grid F * Z :=
  if (null_entry_of (Z.of_nat c.1) (Z.of_nat c.2) =? 0)%Z then
    (<[c := (fill_block (clean_block b) st.2 b).1]> st.1, st.2)
  else (delete c st.1, st.2).
End generator_vocabulary.

(** ** IEEE 754 arithmetic *)

(** The C types [float] and [double] as binary32 and binary64 numbers of
    the Standard Library's executable specification of IEEE 754 (round to
    nearest even, no NaN payload), each operation rounded once. *)
Module Binary32.

Definition float : Type := spec_float.
Definition double : Type := spec_float.

(** [(double)z] for an [int] and [(float)d], [(double)x] between formats. *)
Definition double_of_int (z : Z) : double := binary_normalize 53 1024 z 0 false.

Definition float_of_double (d : double) : float :=
  match d with
  | S754_finite s m e => binary_round 24 128 s m e
  | _ => d
  end.

Definition double_of_float (x : float) : double :=
  match x with
  | S754_finite s m e => binary_round 53 1024 s m e
  | _ => x
  end.

#[export] Instance float_scalar : Scalar float := {|
  fzero := S754_zero false;
  fsub := SFsub 24 128;
  fmul := SFmul 24 128;
  fdiv := SFdiv 24 128;
  of_lcg v :=
    float_of_double
      (SFdiv 53 1024
         (SFsub 53 1024 (double_of_int v) (double_of_int 32768))
         (double_of_int 16384))
|}.

(** The literal [1e-4]: 0x3F1A36E2EB1C432D. *)
Definition tolerance : double := S754_finite false 7378697629483821 (-66).

(** The comparison of [main], sparselu-task.c lines 284-299: the value
    of [error] after the [sqrt]. *)
Definition rms_error (BENCH BENCH_SEQ : grid float) (matrix_size submatrix_size : nat)
  : double :=
  let '(error, count) :=
    for_range 0 matrix_size (λ i,
      for_range 0 matrix_size (λ j acc,
        match BENCH !! (i, j), BENCH_SEQ !! (i, j) with
        | Some t, Some t_seq =>
            for_range 0 submatrix_size (λ row,
              for_range 0 submatrix_size (λ col '(error, count),
                let diff := double_of_float (fsub (tget t row col) (tget t_seq row col)) in
                (SFadd 53 1024 error (SFmul 53 1024 diff diff),
                 wrap_int (count + 1)))) acc
        | _, _ => acc
        end)) (S754_zero false, 0%Z) in
  SFsqrt 53 1024 (SFdiv 53 1024 error (double_of_int count)).

(** [error < 1e-4], the PASS verdict and the exit status 0 of [main]. *)
Definition verification_passes (error : double) : bool := SFltb error tolerance.

(** A heap on which every [malloc] succeeds. *)
Definition heap_ok (k : nat) : bool := true.

(** The matrix [sparselu_init] builds, if it returns. *)
Definition generated (matrix_size submatrix_size : nat) : option (grid float) :=
  match sparselu_init heap_ok (S754_nan : float) matrix_size submatrix_size (Proc 0 []) with
  | Returned M _ => Some M
  | Exited _ _ => None
  end.

(** The matrix a driver leaves, if it terminates. *)
Definition factored (driver : nat → nat → M float unit) (g : grid float)
    (matrix_size submatrix_size : nat) : option (grid float) :=
  match driver matrix_size submatrix_size (State g []) with
  | Some (_, s) => Some (st_grid s)
  | None => None
  end.
End Binary32.

(** ** Concrete matrices *)

Module Scenarios.
Import Binary32.

(** The generated matrix of 5 x 5 slots with 2 x 2 tiles; its slot
    (1, 4) is empty and is filled in at step 0. *)
Definition gen5 : grid float := default ∅ (generated 5 2).

(** The matrix [main] generates: 16 x 16 slots with 8 x 8 tiles. *)
Definition gen16 : grid float := default ∅ (generated 16 8).

(** The [float] of a small integer, and 3/2. *)
Definition fl (z : Z) : float := float_of_double (double_of_int z).
Definition three_halves : float := S754_finite false 12582912 (-23).

(** A single tile, and a single tile whose first pivot is zero. *)
Definition one : float := fl 1.
Definition single : grid float := {[ (0, 0) := rows_of 1325 2 2 ]}.
Definition zero_pivot : grid float :=
  {[ (0, 0) := [[S754_zero false; one]; [one; one]] ]}.
Definition zero_pivot_factored : grid float :=
  {[ (0, 0) := [[S754_zero false; one];
                [S754_infinity false; S754_infinity true]] ]}.

(** The scenario of [main]: generate, factor a copy with each driver,
    compare. *)
Definition end_to_end (par seq : nat → nat → M float unit) (n b : nat)
  : option double :=
  g ← generated n b;
  p ← factored par g n b;
  q ← factored seq g n b;
  Some (rms_error p q n b).

(** The log a driver leaves, and the events of the plain task version on
    [gen5] before its [bmod] task for slot (1, 4). *)
Definition log_of (r : option (unit * state float)) : list event :=
  match r with Some (_, s) => st_log s | None => [] end.

Definition task_log_prefix : list event :=
  [Submit (Fwd 0 1); Submit (Fwd 0 2); Submit (Fwd 0 4);
   Submit (Bdiv 0 1); Submit (Bdiv 0 2); Submit (Bdiv 0 4); Taskwait;
   Submit (Bmod 0 1 1); Submit (Bmod 0 1 2)].

Ltac by_evaluation := refine (bool_decide_unpack _ _); vm_compute; exact I.

(** The diagonal slots of a concrete 5 x 5 matrix hold a tile. *)
Ltac diagonal_by_evaluation :=
  let k := fresh "k" in let Hk := fresh "Hk" in
  intros [|[|[|[|[|k]]]]] Hk; [by_evaluation..|lia].
End Scenarios.

(** ** Vocabulary of the further results *)

Section kernel_formulas.
Context {F : Type} `{!Scalar F}.

(** [acc - x 0 * y 0 - ... - x (m-1) * y (m-1)], subtracted in that order. *)
Definition sub_dot (x y : nat → F) (m : nat) (acc : F) : F :=
  foldl (λ acc k, fsub acc (fmul (x k) (y k))) acc (seq 0 m).
End kernel_formulas.

Section step_definitions.
Context {F : Type} `{!Scalar F}.

(** The tile slot [(i, j)] holds after one step [kk] of the block
    elimination of [g], [d] being the diagonal tile of the step. *)
Definition step_slot (g : grid F) (n b kk : nat) (d : tile F) (i j : nat)
  : option (tile F) :=
  let pivot := lu0 d b in
  let row_kk jj := (λ c, fwd pivot c b) <$> g !! (kk, jj) in
  let col_kk ii := (λ r, bdiv pivot r b) <$> g !! (ii, kk) in
  if decide (i = kk ∧ j = kk) then Some pivot
  else if decide (i = kk ∧ kk < j < n) then row_kk j
  else if decide (kk < i < n ∧ j = kk) then col_kk i
  else if decide (kk < i < n ∧ kk < j < n) then
    match col_kk i, row_kk j with
    | Some r, Some c => Some (bmod r c (default (clean_block b) (g !! (i, j))) b)
    | _, _ => g !! (i, j)
    end
  else g !! (i, j).
End step_definitions.

(** The events of the loop [for (x = kk + 1; x < n; x++)] whose iteration
    [x] leaves the events [f x]. *)
Definition over_range (n kk : nat) (f : nat → list event) : list event :=
  x ← seq (kk + 1) (n - (kk + 1)); f x.

(** The events of [if (BENCH[i][j] != NULL) body], [body] leaving [evs]. *)
Definition when_present {F} (g : grid F) (i j : nat) (evs : list event) : list event :=
  if decide (present g i j) then evs else [].

(** The event of [if (BENCH[i][j] == NULL) BENCH[i][j] = allocate_clean_block(..)],
    [o] being what the slot holds. *)
Definition fill_in_event {F} (o : option (tile F)) (w : who) (i j : nat) : list event :=
  match o with Some _ => [] | None => [Alloc w i j] end.

(** The [fwd] and [bdiv] tasks of step [kk] on the matrix [g]. *)
Definition panel_log {F} (g : grid F) (n kk : nat) : list event :=
  over_range n kk (λ jj, when_present g kk jj [Submit (Fwd kk jj)]) ++
  over_range n kk (λ ii, when_present g ii kk [Submit (Bdiv kk ii)]).

(** The events of the [bmod] loops of step [kk], the body for the pair
    [(ii, jj)] leaving [body ii jj]. *)
Definition update_log {F} (g : grid F) (n kk : nat) (body : nat → nat → list event)
  : list event :=
  over_range n kk (λ ii, when_present g ii kk
    (over_range n kk (λ jj, when_present g kk jj (body ii jj)))).

(** The log of one step of the task-dependency version, and of one step
    of the plain task version. *)
Definition taskdep_step_log {F} (g : grid F) (n kk : nat) : list event :=
  Submit (Lu0 kk) :: panel_log g n kk ++
  update_log g n kk (λ ii jj,
    fill_in_event (g !! (ii, jj)) Issuer ii jj ++ [Submit (Bmod kk ii jj)]).

Definition task_step_log {F} (g : grid F) (n kk : nat) : list event :=
  panel_log g n kk ++ [Taskwait] ++
  update_log g n kk (λ ii jj,
    Submit (Bmod kk ii jj) :: fill_in_event (g !! (ii, jj)) InTask ii jj) ++
  [Taskwait].

(** The slots that hold a tile after step [kk], from the slots [D] that
    held one before: the pairs of a tile of column [kk] and a tile of row
    [kk] fill their slot in. *)
Definition fill_step (n : nat) (D : gset (nat * nat)) (kk : nat) : gset (nat * nat) :=
  D ∪ list_to_set
        (i ← seq (kk + 1) (n - (kk + 1));
         j ← seq (kk + 1) (n - (kk + 1));
         if decide ((i, kk) ∈ D ∧ (kk, j) ∈ D) then [(i, j)] else []).

(** The symbolic factorisation of a presence pattern. *)
Definition symbolic_factorisation (n : nat) (D : gset (nat * nat)) : gset (nat * nat) :=
  foldl (fill_step n) D (seq 0 n).

(** The first call of [malloc] that fails among the [len] calls numbered
    from [start]. *)
Fixpoint first_failure (malloc_ok : nat → bool) (start len : nat) : option nat :=
  match len with
  | 0 => None
  | S len =>
      if malloc_ok start then first_failure malloc_ok (S start) len else Some start
  end.

(** The outcome of a function that makes [N] checked calls of [malloc]
    and returns [a]: it returns if all of them succeed; at the first that
    fails, the [i]-th, it prints [msg i] and exits with code 101. *)
Definition checked {A} (malloc_ok : nat → bool) (p : proc) (N : nat)
    (msg : nat → string) (a : A) : outcome A :=
  match first_failure malloc_ok (mallocs p) N with
  | None => Returned a (Proc (mallocs p + N) (stderr p))
  | Some k => Exited 101 (Proc (S k) (stderr p ++ [msg (k - mallocs p)]))
  end.

Section generated.
Context {F : Type} `{!Scalar F}.

(** The tile [genmat] stores in a slot, the same in every slot: entry
    [(r, c)] is the image of the value number [r * b + c + 1] of the
    recurrence started at 1325. *)
Definition generated_tile (b : nat) : tile F :=
  (λ r, (λ c, of_lcg
     ((3125 ^ Z.of_nat (r * b + c + 1) * 1325) mod 65536)%Z) <$> seq 0 b)
  <$> seq 0 b.

Definition generated_slot (M : grid F) (n b i j : nat) : option (tile F) :=
  if decide (i < n ∧ j < n)
  then if decide (structural_nonzero i j) then Some (generated_tile b) else None
  else M !! (i, j).
End generated.

Module Comparison.
Import Binary32.

(** The pairs of entries the comparison of [main] visits, in the order of
    its loops: for every slot of the [n] x [n] table that holds a tile in
    both matrices, the [b] x [b] entries of the two tiles. *)
Definition compared_pairs (BENCH BENCH_SEQ : grid float) (n b : nat)
  : list (float * float) :=
  i ← seq 0 n; j ← seq 0 n;
  match BENCH !! (i, j), BENCH_SEQ !! (i, j) with
  | Some t, Some t_seq =>
      row ← seq 0 b; col ← seq 0 b; [(tget t row col, tget t_seq row col)]
  | _, _ => []
  end.

(** One iteration of the innermost loop, lines 291-293. *)
Definition accumulate (acc : double * Z) (xy : float * float) : double * Z :=
  let diff := double_of_float (fsub xy.1 xy.2) in
  (SFadd 53 1024 acc.1 (SFmul 53 1024 diff diff), wrap_int (acc.2 + 1)).

(** Zeros and finite numbers, as opposed to infinities and NaN. *)
Definition finite_float (x : spec_float) : Prop :=
  match x with
  | S754_zero _ | S754_finite _ _ _ => True
  | _ => False
  end.
End Comparison.

#[global] Instance square_dec {F} (b : nat) (t : tile F) : Decision (square b t).
Proof. unfold square. apply _. Defined.

#[global] Instance spec_float_eq_dec : EqDecision spec_float.
Proof. solve_decision. Defined.

#[global] Instance finite_dec (x : spec_float) : Decision (Comparison.finite_float x).
Proof. destruct x; simpl; apply _. Defined.

Module Samples.
Import Binary32 Scenarios.

(** Three 2 x 2 tiles of small integers. *)
Definition tile_a : tile float := [[fl 4; fl 3]; [fl 6; fl 3]].
Definition tile_b : tile float := [[fl 1; fl 2]; [fl 3; fl 4]].
Definition tile_c : tile float := [[fl 10; fl 10]; [fl 10; fl 10]].

(** A 2 x 2 matrix whose diagonal slots are empty, and the tile that
    step 0 of the sequential reference fills slot (1, 1) with. *)
Definition off_diagonal : grid float := {[ (0, 1) := tile_b; (1, 0) := tile_a ]}.
Definition off_diagonal_fill : tile float :=
  [[fl (-13); fl (-20)]; [fl (-15); fl (-24)]].

(** A 3 x 3 matrix with its diagonal tiles, whose slot (1, 2) is filled
    in at step 0, and the matrix its factorisation leaves. *)
Definition with_fill_in : grid float :=
  {[ (0, 0) := tile_a; (0, 2) := tile_b; (1, 0) := tile_b; (1, 1) := tile_a;
     (2, 2) := tile_c ]}.
Definition with_fill_in_factored : grid float :=
  default ∅ (factored TaskDep.sparselu_par_call with_fill_in 3 2).
End Samples.

(** ** Facts about the issuing thread *)

Section issuing_facts.
Context {F : Type} `{!Scalar F}.
Implicit Types (s : state F) (evs : list event) (D : gset (nat * nat)).

Lemma allocated_app evs1 evs2 :
  allocated (evs1 ++ evs2) = allocated evs1 ++ allocated evs2.
Proof. unfold allocated. apply bind_app. Qed.

Lemma submitted_app evs1 evs2 :
  submitted (evs1 ++ evs2) = submitted evs1 ++ submitted evs2.
Proof. unfold submitted. apply bind_app. Qed.

Lemma presence_after_app D evs1 evs2 :
  presence_after D (evs1 ++ evs2) = presence_after (presence_after D evs1) evs2.
Proof. unfold presence_after. rewrite allocated_app. set_solver. Qed.

Lemma presence_after_mono D evs : D ⊆ presence_after D evs.
Proof. unfold presence_after. set_solver. Qed.

Lemma presence_after_nil D : presence_after D [] = D.
Proof. unfold presence_after. simpl. apply union_empty_r_L. Qed.

Lemma presence_after_cons D e evs :
  presence_after D (e :: evs) = presence_after (presence_after D [e]) evs.
Proof. apply (presence_after_app D [e] evs). Qed.

Lemma presence_after_alloc D w i j :
  presence_after D [Alloc w i j] = {[(i, j)]} ∪ D.
Proof. unfold presence_after. simpl. set_solver. Qed.

Lemma presence_after_submit D t : presence_after D [Submit t] = D.
Proof. apply presence_after_nil. Qed.

Lemma presence_after_taskwait D : presence_after D [Taskwait] = D.
Proof. apply presence_after_nil. Qed.

Lemma disciplined_app D evs1 evs2 :
  disciplined D (evs1 ++ evs2) ↔
  disciplined D evs1 ∧ disciplined (presence_after D evs1) evs2.
Proof.
  revert D. induction evs1 as [|e evs1 IH]; intros D.
  - rewrite presence_after_nil. simpl. tauto.
  - rewrite presence_after_cons.
    destruct e as [t|w i j|]; simpl; rewrite IH.
    + rewrite presence_after_submit. tauto.
    + rewrite presence_after_alloc. tauto.
    + rewrite presence_after_taskwait. tauto.
Qed.

Lemma trans_refl Q s : trans Q s [] s.
Proof.
  unfold trans. rewrite presence_after_nil, app_nil_r.
  split_and!; [done|done|done|constructor].
Qed.

Lemma trans_app Q s evs1 s1 evs2 s2 :
  trans Q s evs1 s1 → trans Q s1 evs2 s2 → trans Q s (evs1 ++ evs2) s2.
Proof.
  intros (Hl1 & Hd1 & Hc1 & Hq1) (Hl2 & Hd2 & Hc2 & Hq2).
  split_and!.
  - by rewrite Hl2, Hl1, app_assoc.
  - by rewrite Hd2, Hd1, presence_after_app.
  - apply disciplined_app. by rewrite <- Hd1.
  - by apply Forall_app.
Qed.

Lemma trans_weaken (Q Q' : event → Prop) s evs s' :
  (∀ e, Q e → Q' e) → trans Q s evs s' → trans Q' s evs s'.
Proof.
  intros HQ (? & ? & ? & Hq). split_and!; try done.
  eapply Forall_impl; eauto.
Qed.

Lemma trans_dom_mono Q s evs s' :
  trans Q s evs s' → dom (st_grid s) ⊆ dom (st_grid s').
Proof. intros (_ & -> & _). apply presence_after_mono. Qed.

Lemma runs_bind Q (m1 m2 : M F unit) s evs1 s1 evs2 s2 :
  runs Q m1 s evs1 s1 → runs Q m2 s1 evs2 s2 →
  runs Q (m1 ;; m2) s (evs1 ++ evs2) s2.
Proof.
  intros [Hr1 Ht1] [Hr2 Ht2]. split; [|by eapply trans_app].
  unfold mbind, M_bind. by rewrite Hr1.
Qed.

Lemma present_dom (g : grid F) i j : present g i j ↔ (i, j) ∈ dom g.
Proof. unfold present. by rewrite elem_of_dom. Qed.

Lemma runs_ret Q s : runs Q (mret ()) s [] s.
Proof. split; [done|apply trans_refl]. Qed.

Lemma trans_emit_submit (Q : event → Prop) t s :
  Q (Submit t) → (∀ c, c ∈ footprint t → c ∈ dom (st_grid s)) →
  trans Q s [Submit t] (State (st_grid s) (st_log s ++ [Submit t])).
Proof.
  intros HQ Hfp. split_and!; simpl; [done| |done|by repeat constructor].
  by rewrite presence_after_submit.
Qed.

Lemma runs_emit_taskwait (Q : event → Prop) s :
  Q Taskwait →
  runs Q (emit Taskwait) s [Taskwait] (State (st_grid s) (st_log s ++ [Taskwait])).
Proof.
  intros HQ. split; [done|].
  split_and!; simpl; [done| |done|by repeat constructor].
  by rewrite presence_after_taskwait.
Qed.

Lemma trans_write Q i j (t : tile F) s :
  (i, j) ∈ dom (st_grid s) →
  trans Q s [] (State (<[(i, j) := t]> (st_grid s)) (st_log s)).
Proof.
  intros Hin. split_and!; simpl; [by rewrite app_nil_r| |done|constructor].
  rewrite presence_after_nil, dom_insert_L. set_solver.
Qed.

Lemma runs_alloc (Q : event → Prop) w i j b s :
  Q (Alloc w i j) → (i, j) ∉ dom (st_grid s) →
  runs Q (alloc w i j b) s [Alloc w i j]
    (State (<[(i, j) := clean_block b]> (st_grid s)) (st_log s ++ [Alloc w i j])).
Proof.
  intros HQ Hout. split; [done|].
  split_and!; simpl; [done| |done|by repeat constructor].
  by rewrite presence_after_alloc, dom_insert_L.
Qed.

Lemma arg_present i j s :
  (i, j) ∈ dom (st_grid s) → ∃ t, st_grid s !! (i, j) = Some t ∧ arg i j s = Some (t, s).
Proof.
  intros [t Ht]%elem_of_dom. exists t. split; [done|]. unfold arg. by rewrite Ht.
Qed.

Lemma runs_call_lu0 Q kk b s :
  (kk, kk) ∈ dom (st_grid s) → ∃ s', runs Q (call_lu0 kk b) s [] s'.
Proof.
  intros Hd. destruct (arg_present _ _ _ Hd) as (d & _ & Hd').
  eexists. split; [|by apply (trans_write Q kk kk)].
  unfold call_lu0, mbind, M_bind. rewrite Hd'. reflexivity.
Qed.

Lemma runs_call_fwd Q kk jj b s :
  (kk, kk) ∈ dom (st_grid s) → (kk, jj) ∈ dom (st_grid s) →
  ∃ s', runs Q (call_fwd kk jj b) s [] s'.
Proof.
  intros Hd Hc. destruct (arg_present _ _ _ Hd) as (d & _ & Hd').
  destruct (arg_present _ _ _ Hc) as (c & _ & Hc').
  eexists. split; [|by apply (trans_write Q kk jj)].
  unfold call_fwd, mbind, M_bind. rewrite Hd', Hc'. reflexivity.
Qed.

Lemma runs_call_bdiv Q kk ii b s :
  (kk, kk) ∈ dom (st_grid s) → (ii, kk) ∈ dom (st_grid s) →
  ∃ s', runs Q (call_bdiv kk ii b) s [] s'.
Proof.
  intros Hd Hr. destruct (arg_present _ _ _ Hd) as (d & _ & Hd').
  destruct (arg_present _ _ _ Hr) as (r & _ & Hr').
  eexists. split; [|by apply (trans_write Q ii kk)].
  unfold call_bdiv, mbind, M_bind. rewrite Hd', Hr'. reflexivity.
Qed.

Lemma runs_call_bmod Q kk ii jj b s :
  (ii, kk) ∈ dom (st_grid s) → (kk, jj) ∈ dom (st_grid s) →
  (ii, jj) ∈ dom (st_grid s) →
  ∃ s', runs Q (call_bmod kk ii jj b) s [] s'.
Proof.
  intros Hr Hc Hi. destruct (arg_present _ _ _ Hr) as (r & _ & Hr').
  destruct (arg_present _ _ _ Hc) as (c & _ & Hc').
  destruct (arg_present _ _ _ Hi) as (x & _ & Hi').
  eexists. split; [|by apply (trans_write Q ii jj)].
  unfold call_bmod, mbind, M_bind. rewrite Hr', Hc', Hi'. reflexivity.
Qed.

Lemma runs_submit (Q : event → Prop) t (body : M F unit) s :
  Q (Submit t) → (∀ c, c ∈ footprint t → c ∈ dom (st_grid s)) →
  (∀ s1, dom (st_grid s1) = dom (st_grid s) → ∃ s', runs Q body s1 [] s') →
  ∃ s', runs Q (submit t body) s [Submit t] s'.
Proof.
  intros HQ Hfp Hbody.
  destruct (Hbody (State (st_grid s) (st_log s ++ [Submit t])) eq_refl)
    as (s' & Hr & Ht).
  exists s'. split; [done|].
  eapply (trans_app Q s [Submit t] _ [] s'); [|exact Ht].
  by apply trans_emit_submit.
Qed.

(** A loop whose iterations keep [Pre], iteration [i] creating the tasks
    [tasks i]. *)
Lemma for_each_runs Q (Pre : state F → Prop) (tasks : nat → list task) l body :
  (∀ s evs s', Pre s → trans Q s evs s' → Pre s') →
  (∀ i s, i ∈ l → Pre s →
     ∃ evs s', runs Q (body i) s evs s' ∧ submitted evs = tasks i) →
  ∀ s, Pre s →
    ∃ evs s', runs Q (for_each l body) s evs s' ∧ submitted evs = l ≫= tasks.
Proof.
  intros Hstable. induction l as [|i l IH]; intros Hbody s Hpre.
  - exists [], s. split; [apply runs_ret|done].
  - destruct (Hbody i s) as (evs1 & s1 & Hr1 & Hc1); [left|done|].
    destruct (IH (λ j s Hj, Hbody j s (list_elem_of_further _ _ _ Hj)) s1)
      as (evs2 & s2 & Hr2 & Hc2).
    { eapply Hstable; [done|]. apply Hr1. }
    exists (evs1 ++ evs2), s2. split.
    + simpl. by eapply runs_bind.
    + by rewrite submitted_app, Hc1, Hc2.
Qed.
End issuing_facts.

Lemma bind_if_singleton {A B} (P : A → Prop) `{!∀ x, Decision (P x)}
    (f : A → B) (l : list A) :
  (x ← l; if decide (P x) then [f x] else []) = f <$> filter P l.
Proof.
  induction l as [|x l IH]; [done|].
  rewrite bind_cons, filter_cons, IH. by destruct (decide (P x)).
Qed.

Lemma bind_if_filter {A B} (P : A → Prop) `{!∀ x, Decision (P x)}
    (f : A → list B) (l : list A) :
  (x ← l; if decide (P x) then f x else []) = filter P l ≫= f.
Proof.
  induction l as [|x l IH]; [done|].
  rewrite bind_cons, filter_cons, IH. by destruct (decide (P x)).
Qed.



Section taskdep_facts.
Context {F : Type} `{!Scalar F}.
Implicit Types (s : state F) (evs : list event).

Lemma runs_if_present_yes Q i j (body : M F unit) s evs s' :
  (i, j) ∈ dom (st_grid s) → runs Q body s evs s' →
  runs Q (if_present i j body) s evs s'.
Proof.
  intros Hin [Hr Ht]. split; [|done].
  unfold if_present. by rewrite decide_True by by apply present_dom.
Qed.

Lemma runs_if_present_no Q i j (body : M F unit) s :
  (i, j) ∉ dom (st_grid s) → runs Q (if_present i j body) s [] s.
Proof.
  intros Hout. split; [|apply trans_refl].
  unfold if_present. by rewrite decide_False by by rewrite present_dom.
Qed.

Lemma runs_if_absent_yes Q i j (body : M F unit) s evs s' :
  (i, j) ∉ dom (st_grid s) → runs Q body s evs s' →
  runs Q (if_absent i j body) s evs s'.
Proof.
  intros Hout [Hr Ht]. split; [|done].
  unfold if_absent. by rewrite decide_False by by rewrite present_dom.
Qed.

Lemma runs_if_absent_no Q i j (body : M F unit) s :
  (i, j) ∈ dom (st_grid s) → runs Q (if_absent i j body) s [] s.
Proof.
  intros Hin. split; [|apply trans_refl].
  unfold if_absent. by rewrite decide_True by by apply present_dom.
Qed.

Lemma allocated_fill_in kk evs c :
  Forall (fill_in_of_step kk) evs → c ∈ allocated evs → kk < c.1 ∧ kk < c.2.
Proof.
  induction 1 as [|e evs He _ IH]; [by intros ?%elem_of_nil|].
  change (e :: evs) with ([e] ++ evs). rewrite allocated_app.
  intros [Hc|Hc]%elem_of_app; [|by apply IH].
  destruct e as [t|w i j|]; simpl in Hc; try by apply elem_of_nil in Hc.
  apply list_elem_of_singleton in Hc as ->. simpl. apply He.
Qed.

Lemma agree_stable kk s0 s evs s' :
  agree kk s0 s → trans (fill_in_of_step kk) s evs s' → agree kk s0 s'.
Proof.
  intros Hag (_ & Hd & _ & Hq) i j Hij. rewrite <- (Hag i j Hij), Hd.
  unfold presence_after. rewrite elem_of_union, elem_of_list_to_set.
  split; [|by left]. intros [?|Hc]; [done|].
  apply (allocated_fill_in kk) in Hc; [|done]. simpl in Hc. lia.
Qed.

Lemma agree_refl kk s : agree kk s s.
Proof. by intros i j _. Qed.

Lemma agree_dom kk s0 s : dom (st_grid s) = dom (st_grid s0) → agree kk s0 s.
Proof. intros Hd i j _. by rewrite Hd. Qed.

(** The [fwd] loop of step [kk], started with the row and the column of
    [kk] as they are in [s0]. *)
Lemma fwd_loop_runs n b kk s0 s :
  (kk, kk) ∈ dom (st_grid s0) → agree kk s0 s →
  ∃ evs s',
    runs (fill_in_of_step kk)
      (loop (kk + 1) n (λ jj,
         if_present kk jj (submit (Fwd kk jj) (call_fwd kk jj b)))) s evs s' ∧
    submitted evs =
      Fwd kk <$> filter (λ j, present (st_grid s0) kk j) (seq (kk + 1) (n - (kk + 1))).
Proof.
  intros Hdiag Hag. rewrite <- bind_if_singleton.
  apply (for_each_runs _ (agree kk s0)); [apply agree_stable| |done].
  intros jj s1 _ Hag1.
  destruct (decide ((kk, jj) ∈ dom (st_grid s1))) as [Hin|Hout].
  - assert ((kk, kk) ∈ dom (st_grid s1)) as Hd1 by (apply Hag1; auto).
    destruct (runs_submit (fill_in_of_step kk) (Fwd kk jj) (call_fwd kk jj b) s1)
      as (s' & Hr); [done| | |].
    + intros c Hc. simpl in Hc. set_solver.
    + intros s2 Hs2. apply runs_call_fwd; by rewrite Hs2.
    + exists [Submit (Fwd kk jj)], s'. split; [by apply runs_if_present_yes|].
      rewrite decide_True; [done|]. apply present_dom, Hag1; auto.
  - exists [], s1. split; [by apply runs_if_present_no|].
    rewrite decide_False; [done|].
    intros Hp%present_dom. apply Hout, Hag1; auto.
Qed.

Lemma bdiv_loop_runs n b kk s0 s :
  (kk, kk) ∈ dom (st_grid s0) → agree kk s0 s →
  ∃ evs s',
    runs (fill_in_of_step kk)
      (loop (kk + 1) n (λ ii,
         if_present ii kk (submit (Bdiv kk ii) (call_bdiv kk ii b)))) s evs s' ∧
    submitted evs =
      Bdiv kk <$> filter (λ i, present (st_grid s0) i kk) (seq (kk + 1) (n - (kk + 1))).
Proof.
  intros Hdiag Hag. rewrite <- bind_if_singleton.
  apply (for_each_runs _ (agree kk s0)); [apply agree_stable| |done].
  intros ii s1 _ Hag1.
  destruct (decide ((ii, kk) ∈ dom (st_grid s1))) as [Hin|Hout].
  - assert ((kk, kk) ∈ dom (st_grid s1)) as Hd1 by (apply Hag1; auto).
    destruct (runs_submit (fill_in_of_step kk) (Bdiv kk ii) (call_bdiv kk ii b) s1)
      as (s' & Hr); [done| | |].
    + intros c Hc. simpl in Hc. set_solver.
    + intros s2 Hs2. apply runs_call_bdiv; by rewrite Hs2.
    + exists [Submit (Bdiv kk ii)], s'. split; [by apply runs_if_present_yes|].
      rewrite decide_True; [done|]. apply present_dom, Hag1; auto.
  - exists [], s1. split; [by apply runs_if_present_no|].
    rewrite decide_False; [done|].
    intros Hp%present_dom. apply Hout, Hag1; auto.
Qed.

(** The body of the [bmod] loops for one pair [(ii, jj)]: the target is
    allocated if the slot is empty, then the task is created. *)
Lemma bmod_body_runs b kk ii jj s :
  kk < ii → kk < jj →
  (ii, kk) ∈ dom (st_grid s) → (kk, jj) ∈ dom (st_grid s) →
  ∃ evs s',
    runs (fill_in_of_step kk)
      (if_absent ii jj (alloc Issuer ii jj b) ;;
       submit (Bmod kk ii jj) (call_bmod kk ii jj b)) s evs s' ∧
    submitted evs = [Bmod kk ii jj].
Proof.
  intros Hi Hj Hr Hc.
  assert (∃ evs1 s1, runs (fill_in_of_step kk)
            (if_absent ii jj (alloc Issuer ii jj b)) s evs1 s1 ∧
            submitted evs1 = [] ∧ (ii, jj) ∈ dom (st_grid s1))
    as (evs1 & s1 & Hr1 & Hsub1 & Hin1).
  { destruct (decide ((ii, jj) ∈ dom (st_grid s))) as [Hin|Hout].
    - exists [], s. split_and!; [by apply runs_if_absent_no|done|done].
    - eexists [Alloc Issuer ii jj], _. split_and!.
      + apply runs_if_absent_yes; [done|]. by apply runs_alloc.
      + done.
      + simpl. rewrite dom_insert_L. set_solver. }
  pose proof (trans_dom_mono _ _ _ _ (proj2 Hr1)) as Hmono.
  destruct (runs_submit (fill_in_of_step kk) (Bmod kk ii jj)
              (call_bmod kk ii jj b) s1) as (s' & Hr2); [done| | |].
  - intros c Hc'. simpl in Hc'. set_solver.
  - intros s2 Hs2. apply runs_call_bmod; rewrite Hs2; set_solver.
  - exists (evs1 ++ [Submit (Bmod kk ii jj)]), s'. split.
    + by eapply runs_bind.
    + by rewrite submitted_app, Hsub1.
Qed.

Lemma bmod_loops_runs n b kk s0 s :
  agree kk s0 s →
  ∃ evs s',
    runs (fill_in_of_step kk)
      (loop (kk + 1) n (λ ii,
         if_present ii kk
           (loop (kk + 1) n (λ jj,
              if_present kk jj
                (if_absent ii jj (alloc Issuer ii jj b) ;;
                 submit (Bmod kk ii jj) (call_bmod kk ii jj b)))))) s evs s' ∧
    submitted evs =
      (i ← filter (λ i, present (st_grid s0) i kk) (seq (kk + 1) (n - (kk + 1)));
       j ← filter (λ j, present (st_grid s0) kk j) (seq (kk + 1) (n - (kk + 1)));
       [Bmod kk i j]).
Proof.
  intros Hag. rewrite <- bind_if_filter.
  apply (for_each_runs _ (agree kk s0)); [apply agree_stable| |done].
  intros ii s1 Hii Hag1. apply elem_of_seq in Hii.
  destruct (decide ((ii, kk) ∈ dom (st_grid s1))) as [Hin|Hout].
  - rewrite decide_True by (apply present_dom, Hag1; auto).
    rewrite <- (bind_if_filter _ (λ j, [Bmod kk ii j])).
    destruct (for_each_runs (fill_in_of_step kk) (agree kk s0)
      (λ jj, if decide (present (st_grid s0) kk jj) then [Bmod kk ii jj] else [])
      (seq (kk + 1) (n - (kk + 1)))
      (λ jj, if_present kk jj
         (if_absent ii jj (alloc Issuer ii jj b) ;;
          submit (Bmod kk ii jj) (call_bmod kk ii jj b)))) with (s := s1)
      as (evs & s' & Hr & Hcnt); [apply agree_stable| |done|].
    + intros jj s2 Hjj Hag2. apply elem_of_seq in Hjj.
      destruct (decide ((kk, jj) ∈ dom (st_grid s2))) as [Hin2|Hout2].
      * destruct (bmod_body_runs b kk ii jj s2) as (evs2 & s3 & Hr3 & Hc3);
          [lia|lia| |done|].
        { apply Hag2; auto. apply Hag1; auto. }
        exists evs2, s3. split; [by apply runs_if_present_yes|].
        rewrite decide_True; [done|]. apply present_dom, Hag2; auto.
      * exists [], s2. split; [by apply runs_if_present_no|].
        rewrite decide_False; [done|].
        intros Hp%present_dom. apply Hout2, Hag2; auto.
    + exists evs, s'. split; [by apply runs_if_present_yes|done].
  - exists [], s1. split; [by apply runs_if_present_no|].
    rewrite decide_False; [done|].
    intros Hp%present_dom. apply Hout, Hag1; auto.
Qed.

(** One step of the factorisation: it runs when the diagonal tile is
    there, allocates below and right of [kk] only, and creates the tasks
    the specification lists. *)
Lemma step_runs n b kk s :
  (kk, kk) ∈ dom (st_grid s) →
  ∃ evs s',
    runs (fill_in_of_step kk) (TaskDep.step n b kk) s evs s' ∧
    submitted evs = step_tasks (st_grid s) n kk.
Proof.
  intros Hdiag. unfold TaskDep.step, step_tasks.
  destruct (runs_submit (fill_in_of_step kk) (Lu0 kk) (call_lu0 kk b) s)
    as (s1 & Hr1); [done| | |].
  { intros c Hc. simpl in Hc. set_solver. }
  { intros s2 Hs2. apply runs_call_lu0. by rewrite Hs2. }
  assert (agree kk s s1) as Hag1.
  { eapply agree_stable; [apply agree_refl|apply Hr1]. }
  destruct (fwd_loop_runs n b kk s s1) as (evs2 & s2 & Hr2 & Hc2); [done..|].
  assert (agree kk s s2) as Hag2.
  { eapply agree_stable; [apply Hag1|apply Hr2]. }
  destruct (bdiv_loop_runs n b kk s s2) as (evs3 & s3 & Hr3 & Hc3); [done..|].
  assert (agree kk s s3) as Hag3.
  { eapply agree_stable; [apply Hag2|apply Hr3]. }
  destruct (bmod_loops_runs n b kk s s3) as (evs4 & s4 & Hr4 & Hc4); [done|].
  exists ([Submit (Lu0 kk)] ++ evs2 ++ evs3 ++ evs4), s4. split.
  - eapply runs_bind; [done|]. eapply runs_bind; [done|].
    eapply runs_bind; done.
  - by rewrite !submitted_app, Hc2, Hc3, Hc4.
Qed.


Lemma step_faults n b kk s :
  (kk, kk) ∉ dom (st_grid s) → TaskDep.step n b kk s = None.
Proof.
  intros Hout. apply not_elem_of_dom in Hout.
  unfold TaskDep.step, submit, call_lu0, mbind, M_bind, emit, arg. simpl.
  by rewrite Hout.
Qed.

Lemma for_each_runs_any Q (Pre : state F → Prop) l body :
  (∀ s evs s', Pre s → trans Q s evs s' → Pre s') →
  (∀ i s, i ∈ l → Pre s → ∃ evs s', runs Q (body i) s evs s') →
  ∀ s, Pre s → ∃ evs s', runs Q (for_each l body) s evs s'.
Proof.
  intros Hstable. induction l as [|i l IH]; intros Hbody s Hpre.
  - exists [], s. apply runs_ret.
  - destruct (Hbody i s) as (evs1 & s1 & Hr1); [left|done|].
    destruct (IH (λ j s Hj, Hbody j s (list_elem_of_further _ _ _ Hj)) s1)
      as (evs2 & s2 & Hr2).
    { eapply Hstable; [done|]. apply Hr1. }
    exists (evs1 ++ evs2), s2. simpl. by eapply runs_bind.
Qed.

Lemma fill_in_by_issuer kk e : fill_in_of_step kk e → by_issuer e.
Proof. destruct e; simpl; tauto. Qed.

(** The whole factorisation runs when the diagonal tiles are there. *)
Lemma par_call_runs n b s :
  (∀ k, k < n → (k, k) ∈ dom (st_grid s)) →
  ∃ evs s', runs by_issuer (TaskDep.sparselu_par_call n b) s evs s'.
Proof.
  intros Hdiag. unfold TaskDep.sparselu_par_call.
  destruct (for_each_runs_any by_issuer
    (λ s, ∀ k, k < n → (k, k) ∈ dom (st_grid s))
    (seq 0 (n - 0)) (TaskDep.step n b)) with (s := s) as (evs & s' & Hr);
    [| |done|].
  - intros s1 evs s2 Hpre Ht k Hk.
    by apply (trans_dom_mono _ _ _ _ Ht), Hpre.
  - intros kk s1 Hkk%elem_of_seq Hpre.
    destruct (step_runs n b kk s1) as (evs & s2 & [Hr Ht] & _).
    { apply Hpre. lia. }
    exists evs, s2. split; [done|].
    eapply trans_weaken; [apply fill_in_by_issuer|done].
  - eexists (evs ++ [Taskwait]), _. eapply runs_bind; [exact Hr|].
    by apply runs_emit_taskwait.
Qed.

Lemma for_each_transits Q l (body : nat → M F unit) :
  (∀ i s, transits Q (body i) s) → ∀ s, transits Q (for_each l body) s.
Proof.
  intros Hbody. induction l as [|i l IH]; intros s; unfold transits; simpl.
  - exists []. apply trans_refl.
  - unfold mbind, M_bind. specialize (Hbody i s). unfold transits in Hbody.
    destruct (body i s) as [[[] s1]|]; [|done]. destruct Hbody as [evs1 Ht1].
    specialize (IH s1). unfold transits in IH.
    destruct (for_each l body s1) as [[[] s2]|]; [|done].
    destruct IH as [evs2 Ht2]. exists (evs1 ++ evs2). by eapply trans_app.
Qed.

Lemma step_transits n b kk s : transits by_issuer (TaskDep.step n b kk) s.
Proof.
  unfold transits.
  destruct (decide ((kk, kk) ∈ dom (st_grid s))) as [Hin|Hout].
  - destruct (step_runs n b kk s Hin) as (evs & s' & [Hr Ht] & _).
    rewrite Hr. exists evs. eapply trans_weaken; [apply fill_in_by_issuer|done].
  - by rewrite step_faults.
Qed.

Lemma steps_transit n b lo hi s :
  transits by_issuer (loop lo hi (TaskDep.step n b)) s.
Proof. apply for_each_transits. intros kk s1. apply step_transits. Qed.

(** The whole factorisation, from any matrix: it faults only if a
    diagonal tile is missing, and otherwise terminates within the
    discipline. *)
Lemma par_call_cases n b s :
  match TaskDep.sparselu_par_call n b s with
  | Some (_, s') => ∃ evs, trans by_issuer s evs s'
  | None => ¬ ∀ k, k < n → (k, k) ∈ dom (st_grid s)
  end.
Proof.
  destruct (TaskDep.sparselu_par_call n b s) as [[[] s']|] eqn:Hr.
  - pose proof (steps_transit n b 0 n s) as Hsteps.
    unfold TaskDep.sparselu_par_call, transits, mbind, M_bind in *.
    destruct (loop 0 n (TaskDep.step n b) s) as [[[] s1]|]; [|done].
    destruct Hsteps as [evs Ht]. unfold emit in Hr. injection Hr as <-.
    exists (evs ++ [Taskwait]). eapply trans_app; [done|].
    by apply runs_emit_taskwait.
  - intros Hdiag.
    destruct (par_call_runs n b s Hdiag) as (evs & s' & [Hr' _]). congruence.
Qed.

(** What a disciplined log says about its allocations and its tasks. *)
Lemma disciplined_alloc_fresh D evs pre w i j post :
  disciplined D evs → evs = pre ++ Alloc w i j :: post →
  (i, j) ∉ presence_after D pre.
Proof. intros Hd ->. apply disciplined_app in Hd as [_ Hd]. apply Hd. Qed.

Lemma disciplined_task_ready D evs pre t post :
  disciplined D evs → evs = pre ++ Submit t :: post →
  ∀ c, c ∈ footprint t → c ∈ presence_after D pre.
Proof. intros Hd ->. apply disciplined_app in Hd as [_ Hd]. apply Hd. Qed.

Lemma disciplined_allocated D evs :
  disciplined D evs → NoDup (allocated evs) ∧ ∀ c, c ∈ allocated evs → c ∉ D.
Proof.
  revert D. induction evs as [|e evs IH]; intros D Hd.
  - split; [constructor|]. by intros c ?%elem_of_nil.
  - destruct e as [t|w i j|]; simpl in Hd.
    + apply (IH D), Hd.
    + destruct Hd as [Hfresh Hd]. destruct (IH _ Hd) as [Hnd Hout].
      change (allocated (Alloc w i j :: evs)) with ((i, j) :: allocated evs).
      split.
      * constructor; [|done]. intros Hin. apply (Hout _ Hin). set_solver.
      * intros c [->|Hin]%elem_of_cons; [done|].
        intros HcD. apply (Hout _ Hin). set_solver.
    + apply (IH D), Hd.
Qed.
End taskdep_facts.

(** ** The drivers compute the same matrix *)

Section simulation.
Context {F : Type} `{!Scalar F}.
Implicit Types (s : state F) (req : nat * nat → Prop).

Lemma sim_bind req (m1 m2 n1 n2 : M F unit) :
  sim req m1 m2 → sim req n1 n2 → sim req (m1 ;; n1) (m2 ;; n2).
Proof.
  intros Hm Hn s1 s2 Hreq Heq.
  destruct (Hm s1 s2 Hreq Heq) as (s1' & s2' & Hr1 & Hr2 & Heq' & Hmono).
  destruct (Hn s1' s2') as (s1'' & s2'' & Hr1' & Hr2' & Heq'' & Hmono');
    [by intros c Hc; apply Hmono, Hreq|done|].
  exists s1'', s2''. unfold mbind, M_bind. rewrite Hr1, Hr2.
  split_and!; [done..|]. set_solver.
Qed.

Lemma sim_ret req : sim (F := F) req (mret ()) (mret ()).
Proof. intros s1 s2 _ Heq. by exists s1, s2. Qed.

Lemma sim_for_each req l (b1 b2 : nat → M F unit) :
  (∀ i, i ∈ l → sim req (b1 i) (b2 i)) →
  sim req (for_each l b1) (for_each l b2).
Proof.
  induction l as [|i l IH]; intros Hb; simpl; [apply sim_ret|].
  apply sim_bind; [apply Hb; left|].
  apply IH. intros j Hj. apply Hb. by right.
Qed.

Lemma sim_if_present req i j (m1 m2 : M F unit) :
  sim (λ c, c = (i, j) ∨ req c) m1 m2 →
  sim req (if_present i j m1) (if_present i j m2).
Proof.
  intros Hm s1 s2 Hreq Heq. unfold if_present. rewrite <- Heq.
  destruct (decide (present (st_grid s1) i j)) as [Hp|Hp].
  - apply Hm; [|done]. intros c [->|Hc]; [by apply present_dom|by apply Hreq].
  - by exists s1, s2.
Qed.

(** A guard of the sequential reference on a slot known to hold a tile. *)
Lemma sim_guard_r req i j (m1 m2 : M F unit) :
  req (i, j) → sim req m1 m2 → sim req m1 (if_present i j m2).
Proof.
  intros Hij Hm s1 s2 Hreq Heq. unfold if_present. rewrite <- Heq.
  rewrite decide_True by (apply present_dom, Hreq, Hij). by apply Hm.
Qed.

(** Events change the log only. *)
Lemma sim_emit_l req e (m1 m2 : M F unit) :
  sim req m1 m2 → sim req (emit e ;; m1) m2.
Proof.
  intros Hm s1 s2 Hreq Heq.
  apply (Hm (State (st_grid s1) (st_log s1 ++ [e])) s2); [exact Hreq|exact Heq].
Qed.

Lemma sim_emit_end req e (m1 m2 : M F unit) :
  sim req m1 m2 → sim req (m1 ;; emit e) m2.
Proof.
  intros Hm s1 s2 Hreq Heq.
  destruct (Hm s1 s2 Hreq Heq) as (s1' & s2' & Hr1 & Hr2 & Heq' & Hmono).
  eexists _, s2'. unfold mbind, M_bind. rewrite Hr1.
  split_and!; [reflexivity|done|done|done].
Qed.

Lemma sim_weaken (req req' : nat * nat → Prop) (m1 m2 : M F unit) :
  (∀ c, req' c → req c) → sim req' m1 m2 → sim req m1 m2.
Proof. intros Hsub Hm s1 s2 Hreq Heq. apply Hm; auto. Qed.

Lemma sim_call_lu0 req kk b :
  req (kk, kk) → sim req (call_lu0 kk b) (call_lu0 kk b).
Proof.
  intros Hd s1 [g2 l2] Hreq Heq. simpl in Heq. subst g2.
  destruct (arg_present kk kk s1) as (d & Hd1 & _); [by apply Hreq|].
  unfold call_lu0, mbind, M_bind, arg, write. simpl. rewrite Hd1.
  eexists _, _. split_and!; [done..|]. simpl. rewrite dom_insert_L. set_solver.
Qed.

Lemma sim_call_fwd req kk jj b :
  req (kk, kk) → req (kk, jj) → sim req (call_fwd kk jj b) (call_fwd kk jj b).
Proof.
  intros Hd Hc s1 [g2 l2] Hreq Heq. simpl in Heq. subst g2.
  destruct (arg_present kk kk s1) as (d & Hd1 & _); [by apply Hreq|].
  destruct (arg_present kk jj s1) as (c & Hc1 & _); [by apply Hreq|].
  unfold call_fwd, mbind, M_bind, arg, write. simpl.
  rewrite Hd1. simpl. rewrite Hc1. simpl.
  eexists _, _. split_and!; [done..|]. simpl. rewrite dom_insert_L. set_solver.
Qed.

Lemma sim_call_bdiv req kk ii b :
  req (kk, kk) → req (ii, kk) → sim req (call_bdiv kk ii b) (call_bdiv kk ii b).
Proof.
  intros Hd Hr s1 [g2 l2] Hreq Heq. simpl in Heq. subst g2.
  destruct (arg_present kk kk s1) as (d & Hd1 & _); [by apply Hreq|].
  destruct (arg_present ii kk s1) as (r & Hr1 & _); [by apply Hreq|].
  unfold call_bdiv, mbind, M_bind, arg, write. simpl.
  rewrite Hd1. simpl. rewrite Hr1. simpl.
  eexists _, _. split_and!; [done..|]. simpl. rewrite dom_insert_L. set_solver.
Qed.

(** The allocation of the target followed by the [bmod] call: the target
    becomes [bmod] of the row tile, the column tile and the tile the slot
    held, or a clean block if it held none.  [k] adds the events that
    come between the two. *)

Lemma bmod_body_grid w (k : state F → state F) kk ii jj b s r c :
  (∀ s', st_grid (k s') = st_grid s') →
  st_grid s !! (ii, kk) = Some r → st_grid s !! (kk, jj) = Some c →
  ∃ l',
    (if_absent ii jj (alloc w ii jj b) ;; after k (call_bmod kk ii jj b)) s =
    Some ((), State
      (<[(ii, jj) := bmod r c (default (clean_block b) (st_grid s !! (ii, jj))) b]>
         (st_grid s)) l').
Proof.
  intros Hk Hr Hc.
  unfold if_absent, alloc, after, call_bmod, mbind, M_bind, emit, arg, write.
  destruct (decide (present (st_grid s) ii jj)) as [[x Hx]|Hp]; simpl.
  - rewrite !Hk, Hr. simpl. rewrite !Hk, Hc. simpl. rewrite !Hk, Hx. simpl.
    rewrite Hk. by eexists.
  - assert ((ii, jj) ≠ (ii, kk)) as Hne1.
    { intros [= ->]. apply Hp. by exists r. }
    assert ((ii, jj) ≠ (kk, jj)) as Hne2.
    { intros [= ->]. apply Hp. by exists c. }
    apply eq_None_not_Some in Hp.
    rewrite !Hk. simpl. rewrite lookup_insert_ne, Hr by done. simpl.
    rewrite !Hk. simpl. rewrite lookup_insert_ne, Hc by done. simpl.
    rewrite !Hk. simpl. rewrite lookup_insert_eq. simpl.
    rewrite !Hk. simpl. rewrite insert_insert_eq, Hp. by eexists.
Qed.

Lemma sim_bmod_bodies req kk ii jj b w1 w2 (k1 k2 f1 f2 : state F → state F) :
  (∀ s, st_grid (k1 s) = st_grid s) → (∀ s, st_grid (k2 s) = st_grid s) →
  (∀ s, st_grid (f1 s) = st_grid s) → (∀ s, st_grid (f2 s) = st_grid s) →
  req (ii, kk) → req (kk, jj) →
  sim req
    (after f1 (if_absent ii jj (alloc w1 ii jj b) ;;
               after k1 (call_bmod kk ii jj b)))
    (after f2 (if_absent ii jj (alloc w2 ii jj b) ;;
               after k2 (call_bmod kk ii jj b))).
Proof.
  intros Hk1 Hk2 Hf1 Hf2 Hr Hc s1 s2 Hreq Heq.
  destruct (arg_present ii kk s1) as (r & Hr1 & _); [by apply Hreq|].
  destruct (arg_present kk jj s1) as (c & Hc1 & _); [by apply Hreq|].
  destruct (bmod_body_grid w1 k1 kk ii jj b (f1 s1) r c) as [l1 H1];
    [done|by rewrite Hf1..|].
  destruct (bmod_body_grid w2 k2 kk ii jj b (f2 s2) r c) as [l2 H2];
    [done|by rewrite Hf2, <- Heq..|].
  eexists _, _. split_and!; [exact H1|exact H2|..]; simpl.
  - by rewrite Hf1, Hf2, Heq.
  - rewrite Hf1, dom_insert_L. set_solver.
Qed.

Lemma sim_fwd_loop req n b kk :
  req (kk, kk) →
  sim req
    (loop (kk + 1) n (λ jj,
       if_present kk jj (submit (Fwd kk jj) (call_fwd kk jj b))))
    (loop (kk + 1) n (λ jj,
       if_present kk jj (if_present kk kk (call_fwd kk jj b)))).
Proof.
  intros Hd. apply sim_for_each. intros jj _.
  apply sim_if_present, sim_emit_l, sim_guard_r; [by right|].
  apply sim_call_fwd; [by right|by left].
Qed.

Lemma sim_bdiv_loop req n b kk :
  req (kk, kk) →
  sim req
    (loop (kk + 1) n (λ ii,
       if_present ii kk (submit (Bdiv kk ii) (call_bdiv kk ii b))))
    (loop (kk + 1) n (λ ii,
       if_present ii kk (if_present kk kk (call_bdiv kk ii b)))).
Proof.
  intros Hd. apply sim_for_each. intros ii _.
  apply sim_if_present, sim_emit_l, sim_guard_r; [by right|].
  apply sim_call_bdiv; [by right|by left].
Qed.

(** One step of the task-dependency version against one step of the
    sequential reference. *)
Lemma sim_taskdep_step req n b kk :
  req (kk, kk) → sim req (TaskDep.step n b kk) (Task.seq_step n b kk).
Proof.
  intros Hd. unfold TaskDep.step, Task.seq_step.
  apply sim_bind.
  { apply sim_emit_l, sim_guard_r; [done|]. by apply sim_call_lu0. }
  apply sim_bind; [by apply sim_fwd_loop|].
  apply sim_bind; [by apply sim_bdiv_loop|].
  apply sim_for_each. intros ii _. apply sim_if_present.
  apply sim_for_each. intros jj _. apply sim_if_present.
  exact (sim_bmod_bodies _ kk ii jj b Issuer Issuer
    (λ s', State (st_grid s') (st_log s' ++ [Submit (Bmod kk ii jj)]))
    id id id (λ _, eq_refl) (λ _, eq_refl) (λ _, eq_refl) (λ _, eq_refl)
    (or_intror (or_introl eq_refl)) (or_introl eq_refl)).
Qed.

(** One step of the plain task version against the sequential reference. *)
Lemma sim_task_step req n b kk :
  req (kk, kk) → sim req (Task.par_step n b kk) (Task.seq_step n b kk).
Proof.
  intros Hd. unfold Task.par_step, Task.seq_step.
  apply sim_bind.
  { apply sim_guard_r; [done|]. by apply sim_call_lu0. }
  apply sim_bind; [by apply sim_fwd_loop|].
  apply sim_bind; [by apply sim_bdiv_loop|].
  apply sim_emit_l, sim_emit_end.
  apply sim_for_each. intros ii _. apply sim_if_present.
  apply sim_for_each. intros jj _. apply sim_if_present.
  exact (sim_bmod_bodies _ kk ii jj b InTask Issuer id id
    (λ s, State (st_grid s) (st_log s ++ [Submit (Bmod kk ii jj)])) id
    (λ _, eq_refl) (λ _, eq_refl) (λ _, eq_refl) (λ _, eq_refl)
    (or_intror (or_introl eq_refl)) (or_introl eq_refl)).
Qed.

Lemma sim_taskdep_call n b :
  sim (on_diagonal n) (TaskDep.sparselu_par_call n b) (Task.sparselu_seq_call n b).
Proof.
  apply sim_emit_end, sim_for_each. intros kk Hkk%elem_of_seq.
  apply sim_taskdep_step. split; simpl; lia.
Qed.

Lemma sim_task_call n b :
  sim (on_diagonal n) (Task.sparselu_par_call n b) (Task.sparselu_seq_call n b).
Proof.
  apply sim_for_each. intros kk Hkk%elem_of_seq.
  apply sim_task_step. split; simpl; lia.
Qed.
End simulation.

(** ** Allocation failure *)

Section allocation_facts.
Context {F : Type} `{!Scalar F}.
Variable malloc_ok : nat → bool.
Variable junk : F.

Lemma fail_fast_ret {A} (a : A) p : fail_fast malloc_ok p ((mret a : P A) p).
Proof. simpl. split_and!; [done..|]. intros m Hm. lia. Qed.

Lemma fail_fast_bind {A B} (m : P A) (f : A → P B) p :
  fail_fast malloc_ok p (m p) → (∀ a p', fail_fast malloc_ok p' (f a p')) →
  fail_fast malloc_ok p ((m ≫= f) p).
Proof.
  intros Hm Hf. unfold mbind, P_bind.
  destruct (m p) as [a p1|code p1]; [|done].
  destruct Hm as (Herr & Hle & Hall). specialize (Hf a p1).
  destruct (f a p1) as [b' p2|code p2]; simpl in *.
  - destruct Hf as (Herr' & Hle' & Hall'). split_and!; [congruence|lia|].
    intros m' Hm'. destruct (decide (m' < mallocs p1)); [apply Hall|apply Hall']; lia.
  - destruct Hf as (-> & (msg & Hmsg & Herr') & Hlt & Hfail & Hall').
    split_and!; [done| |lia|done|].
    + exists msg. by rewrite Herr', Herr.
    + intros m' Hm'.
      destruct (decide (m' < mallocs p1)); [apply Hall|apply Hall']; lia.
Qed.

(** A [malloc] followed by the NULL test of the C code. *)
Lemma fail_fast_checked_malloc msg p :
  msg ∈ [msg_block; msg_bench] →
  fail_fast malloc_ok p
    ((ok ← malloc malloc_ok; when (negb ok) (fprintf_stderr msg ;; exit 101)) p).
Proof.
  intros Hmsg. unfold mbind, P_bind, malloc. simpl.
  destruct (malloc_ok (mallocs p)) eqn:Hok; simpl.
  - split_and!; [done|lia|]. intros m Hm. by replace m with (mallocs p) by lia.
  - split_and!; [done| |lia| |].
    + by exists msg.
    + by rewrite Nat.sub_0_r.
    + intros m Hm. lia.
Qed.

Lemma fail_fast_checked_malloc_then {A} msg (rest : P A) p :
  msg ∈ [msg_block; msg_bench] →
  (∀ p', fail_fast malloc_ok p' (rest p')) →
  fail_fast malloc_ok p
    ((ok ← malloc malloc_ok;
      when (negb ok) (fprintf_stderr msg ;; exit 101) ;; rest) p).
Proof.
  intros Hmsg Hrest.
  pose proof (fail_fast_bind
    (ok ← malloc malloc_ok; when (negb ok) (fprintf_stderr msg ;; exit 101))
    (λ _, rest) p (fail_fast_checked_malloc msg p Hmsg) (λ _, Hrest)) as Hff.
  unfold mbind, P_bind in *.
  destruct (malloc malloc_ok p) as [ok p1|code p1]; [|done].
  by destruct (when (negb ok) _ p1).
Qed.

Lemma fail_fast_foldP {S} l (body : nat → S → P S) s p :
  (∀ i s' p', fail_fast malloc_ok p' (body i s' p')) →
  fail_fast malloc_ok p (foldP l body s p).
Proof.
  intros Hbody. revert s p. induction l as [|i l IH]; intros s p; simpl.
  - exact (fail_fast_ret s p).
  - apply fail_fast_bind; [apply Hbody|]. intros s' p'. apply IH.
Qed.

Lemma allocate_clean_block_fail_fast b p :
  fail_fast malloc_ok p (allocate_clean_block malloc_ok junk b p).
Proof.
  unfold allocate_clean_block.
  apply fail_fast_checked_malloc_then; [set_solver|]. intros p1.
  apply fail_fast_foldP. intros i block p2.
  apply fail_fast_checked_malloc_then; [set_solver|]. intros p3.
  exact (fail_fast_ret _ p3).
Qed.

Lemma genmat_fail_fast M n b p :
  fail_fast malloc_ok p (genmat malloc_ok junk M n b p).
Proof.
  unfold genmat. apply fail_fast_bind; [|intros st p1; exact (fail_fast_ret _ p1)].
  apply fail_fast_foldP. intros ii st p1.
  apply fail_fast_foldP. intros jj [M1 v] p2.
  destruct (null_entry_of _ _ =? 0)%Z; [|exact (fail_fast_ret _ p2)].
  apply fail_fast_bind; [apply allocate_clean_block_fail_fast|].
  intros block p3. destruct (fill_block _ _ _). exact (fail_fast_ret _ p3).
Qed.

Lemma sparselu_init_fail_fast n b p :
  fail_fast malloc_ok p (sparselu_init malloc_ok junk n b p).
Proof.
  unfold sparselu_init.
  apply fail_fast_checked_malloc_then; [set_solver|]. intros p1.
  apply fail_fast_bind; [|intros; apply genmat_fail_fast].
  apply fail_fast_foldP. intros i [] p2.
  apply fail_fast_checked_malloc. set_solver.
Qed.
End allocation_facts.

(** ** The generator *)

Lemma wrap_int_small z : (- 2 ^ 31 ≤ z < 2 ^ 31)%Z → wrap_int z = z.
Proof. intros Hz. unfold wrap_int. rewrite Z.mod_small; lia. Qed.

(** On the values [genmat] reaches, the [int] product does not overflow
    and [%] is the mathematical remainder. *)
Lemma lcg_next_spec v :
  (0 ≤ v < 65536)%Z →
  lcg_next v = ((3125 * v) mod 65536)%Z ∧ (0 ≤ lcg_next v < 65536)%Z.
Proof.
  intros Hv. unfold lcg_next.
  rewrite wrap_int_small by lia. rewrite Z.rem_mod_nonneg by lia.
  split; [done|]. apply Z.mod_pos_bound. lia.
Qed.


Lemma lcg_run_spec v m : (0 ≤ v < 65536)%Z → lcg_run v m = lcg_seq v m.
Proof.
  revert v. induction m as [|m IH]; intros v Hv; [done|]. simpl.
  destruct (lcg_next_spec v Hv) as [Heq Hr]. rewrite <- Heq. f_equal. by apply IH.
Qed.

Lemma lcg_run_length v m : length (lcg_run v m) = m.
Proof. revert v. induction m as [|m IH]; intros v; simpl; [done|]. by rewrite IH. Qed.

Lemma lcg_iter_next m v :
  Nat.iter m lcg_next (lcg_next v) = lcg_next (Nat.iter m lcg_next v).
Proof. induction m as [|m IH]; simpl; [done|]. by rewrite IH. Qed.

Lemma lcg_run_app v m1 m2 :
  lcg_run v (m1 + m2) = lcg_run v m1 ++ lcg_run (Nat.iter m1 lcg_next v) m2.
Proof.
  revert v. induction m1 as [|m1 IH]; intros v; [done|]. simpl.
  by rewrite IH, lcg_iter_next.
Qed.

Lemma lcg_run_S v m :
  lcg_run v (S m) = lcg_run v m ++ [lcg_next (Nat.iter m lcg_next v)].
Proof. replace (S m) with (m + 1) by lia. by rewrite lcg_run_app. Qed.

Lemma lcg_iter_add m1 m2 v :
  Nat.iter (m1 + m2) lcg_next v = Nat.iter m2 lcg_next (Nat.iter m1 lcg_next v).
Proof.
  induction m2 as [|m2 IH]; [by rewrite Nat.add_0_r|].
  replace (m1 + S m2) with (S (m1 + m2)) by lia. simpl. by rewrite IH.
Qed.

Section generator_facts.
Context {F : Type} `{!Scalar F}.

Lemma alter_insert_row (f : list F → list F) i (row : list F) (block : tile F) :
  alter f i (<[i := row]> block) = <[i := f row]> block.
Proof.
  by rewrite !list_insert_alter, list_alter_alter_eq.
Qed.

Lemma insert_at_end {A} (pre l : list A) m x :
  length pre = m → m < length l →
  <[m := x]> (pre ++ drop m l) = (pre ++ [x]) ++ drop (S m) l.
Proof.
  intros Hpre Hm. destruct (lookup_lt_is_Some_2 l m Hm) as [y Hy].
  rewrite insert_app_r_alt by lia. rewrite Hpre, Nat.sub_diag.
  rewrite (drop_S l y m Hy). simpl. by rewrite <- app_assoc.
Qed.

Lemma fill_row_loop i (block : tile F) (row : list F) v m :
  block !! i = Some row → m ≤ length row →
  for_range 0 m (λ j '(block, init_val),
    let init_val := lcg_next init_val in
    (tset block i j (of_lcg init_val), init_val)) (block, v) =
  (<[i := (of_lcg <$> lcg_run v m) ++ drop m row]> block, Nat.iter m lcg_next v).
Proof.
  intros Hrow. unfold for_range. rewrite Nat.sub_0_r.
  induction m as [|m IH]; intros Hm.
  - simpl. by rewrite list_insert_id.
  - rewrite seq_S, foldl_app, IH by lia. rewrite lcg_run_S, fmap_app.
    cbn [foldl Nat.add]. unfold tset. rewrite alter_insert_row.
    rewrite insert_at_end; [done|by rewrite length_fmap, lcg_run_length|lia].
Qed.

Lemma fill_rows_loop (block : tile F) v b m :
  Forall (λ row, length row = b) block → m ≤ length block →
  for_range 0 m (λ i,
    for_range 0 b (λ j '(block, init_val),
      let init_val := lcg_next init_val in
      (tset block i j (of_lcg init_val), init_val))) (block, v) =
  (rows_of v b m ++ drop m block, Nat.iter (m * b) lcg_next v).
Proof.
  intros Hsq. unfold for_range at 1. rewrite Nat.sub_0_r.
  induction m as [|m IH]; intros Hm; [done|].
  rewrite seq_S, foldl_app, IH by lia. cbn [foldl Nat.add].
  destruct (lookup_lt_is_Some_2 block m) as [row Hrow]; [lia|].
  assert (length row = b) as Hlen.
  { exact (Forall_lookup_1 (λ row : list F, length row = b) block m row Hsq Hrow). }
  assert (length (rows_of v b m) = m) as Hrows.
  { unfold rows_of. by rewrite length_fmap, length_seq. }
  rewrite (fill_row_loop m _ row); [| |lia].
  - rewrite (drop_ge row b), app_nil_r by lia. f_equal.
    + rewrite insert_at_end; [|done|lia].
      unfold rows_of. by rewrite seq_S, fmap_app.
    + replace (S m * b) with (m * b + b) by lia. by rewrite lcg_iter_add.
  - rewrite lookup_app_r by lia.
    by rewrite Hrows, Nat.sub_diag, lookup_drop, Nat.add_0_r.
Qed.

Lemma clean_block_square b : square b (clean_block b : tile F).
Proof.
  unfold square, clean_block. rewrite length_replicate. split; [done|].
  apply Forall_replicate. by rewrite length_replicate.
Qed.

Lemma fill_block_clean v b :
  fill_block (clean_block b) v b = (rows_of v b b, Nat.iter (b * b) lcg_next v).
Proof.
  destruct (clean_block_square b) as [Hlen Hrows].
  unfold fill_block. rewrite fill_rows_loop; [|done|lia].
  by rewrite (drop_ge (clean_block b) b), app_nil_r by lia.
Qed.

Lemma rows_of_square v b : square b (rows_of v b b).
Proof.
  unfold square, rows_of. rewrite length_fmap, length_seq. split; [done|].
  rewrite Forall_fmap. apply Forall_forall. intros i _. simpl.
  by rewrite length_fmap, lcg_run_length.
Qed.

Lemma rows_of_concat v b m :
  concat (rows_of v b m) = of_lcg <$> lcg_run v (m * b).
Proof.
  unfold rows_of. induction m as [|m IH]; [done|].
  replace (S m * b) with (m * b + b) by lia.
  rewrite seq_S, fmap_app, concat_app, IH, lcg_run_app, fmap_app.
  simpl. by rewrite app_nil_r.
Qed.
End generator_facts.

Lemma null_entry_structural (i j : nat) :
  null_entry_of (Z.of_nat i) (Z.of_nat j) = 0%Z ↔ structural_nonzero i j.
Proof.
  unfold null_entry_of, structural_nonzero.
  rewrite !Z.rem_mod_nonneg by lia.
  change 3%Z with (Z.of_nat 3). change 2%Z with (Z.of_nat 2).
  rewrite <- !Nat2Z.inj_mod.
  pose proof (Nat.mod_upper_bound i 2 ltac:(lia)).
  pose proof (Nat.mod_upper_bound i 3 ltac:(lia)).
  pose proof (Nat.mod_upper_bound j 2 ltac:(lia)).
  pose proof (Nat.mod_upper_bound j 3 ltac:(lia)).
  generalize dependent (i mod 2). generalize dependent (i mod 3).
  generalize dependent (j mod 2). generalize dependent (j mod 3).
  intros j3 Hj3 j2 Hj2 i3 Hi3 i2 Hi2.
  rewrite !Z.gtb_ltb.
  destruct (Z.ltb_spec (Z.of_nat i) (Z.of_nat j));
    destruct (Z.ltb_spec (Z.of_nat j) (Z.of_nat i));
    destruct (Z.eqb_spec (Z.of_nat i3) 0);
    destruct (Z.eqb_spec (Z.of_nat j3) 0);
    destruct (Z.eqb_spec (Z.of_nat i2) 1);
    destruct (Z.eqb_spec (Z.of_nat j2) 1);
    destruct (Z.eqb_spec (Z.of_nat i) (Z.of_nat j));
    destruct (Z.eqb_spec (Z.of_nat i) (Z.of_nat j - 1));
    destruct (Z.eqb_spec (Z.of_nat i - 1) (Z.of_nat j));
    simpl; lia.
Qed.

Lemma foldl_insert_all {A} (x : A) (l0 : list A) m :
  m ≤ length l0 →
  foldl (λ l i, <[i := x]> l) l0 (seq 0 m) = replicate m x ++ drop m l0.
Proof.
  induction m as [|m IH]; intros Hm; [done|].
  rewrite seq_S, foldl_app, IH, replicate_S_end by lia. cbn [foldl Nat.add].
  rewrite insert_at_end; [done|by rewrite length_replicate|lia].
Qed.

Lemma foldl_bind {A B S} (f : S → B → S) (g : A → list B) (l : list A) (s : S) :
  foldl f s (l ≫= g) = foldl (λ acc a, foldl f acc (g a)) s l.
Proof.
  revert s. induction l as [|a l IH]; intros s; [done|].
  rewrite bind_cons, foldl_app. apply IH.
Qed.

Lemma foldl_fmap {A B S} (f : S → B → S) (g : A → B) (l : list A) (s : S) :
  foldl f s (g <$> l) = foldl (λ acc a, f acc (g a)) s l.
Proof. revert s. induction l as [|a l IH]; intros s; simpl; [done|apply IH]. Qed.

Lemma foldl_ext_eq {A S} (f g : S → A → S) (l : list A) (s : S) :
  (∀ acc a, f acc a = g acc a) → foldl f s l = foldl g s l.
Proof.
  intros Hfg. revert s. induction l as [|a l IH]; intros s; simpl; [done|].
  rewrite Hfg. apply IH.
Qed.

Lemma slots_elem n i j : (i, j) ∈ slots n ↔ i < n ∧ j < n.
Proof.
  unfold slots. rewrite list_elem_of_bind. split.
  - intros (ii & (jj & Hc & Hjj%elem_of_seq)%list_elem_of_bind & Hii%elem_of_seq).
    apply list_elem_of_singleton in Hc as [= -> ->]. lia.
  - intros [Hi Hj]. exists i. split; [|apply elem_of_seq; lia].
    apply list_elem_of_bind. exists j. split; [by left|apply elem_of_seq; lia].
Qed.

Lemma slots_NoDup n : NoDup (slots n).
Proof.
  unfold slots. apply NoDup_bind; [| |apply NoDup_seq].
  - intros i1 i2 c _ _
      (j1 & Hc1 & _)%list_elem_of_bind (j2 & Hc2 & _)%list_elem_of_bind.
    apply list_elem_of_singleton in Hc1, Hc2. congruence.
  - intros i _. apply NoDup_bind; [| |apply NoDup_seq].
    + intros j1 j2 c _ _ Hc1%list_elem_of_singleton Hc2%list_elem_of_singleton.
      congruence.
    + intros j _. apply NoDup_singleton.
Qed.

Lemma P_bind_run {A B} (m : P A) (f : A → P B) p :
  (m ≫= f) p =
  match m p with Returned a p' => f a p' | Exited code p' => Exited code p' end.
Proof. done. Qed.

Lemma foldP_result {S} (g : nat → S → S) l (body : nat → S → P S) :
  (∀ i s p, returns (body i s p) (λ s', s' = g i s)) →
  ∀ s p, returns (foldP l body s p) (λ s', s' = foldl (λ s i, g i s) s l).
Proof.
  intros Hbody. induction l as [|i l IH]; intros s p; simpl; [done|].
  rewrite P_bind_run. specialize (Hbody i s p).
  destruct (body i s p) as [s1 p1|]; [|done]. simpl in Hbody. subst s1.
  apply IH.
Qed.

Section generation.
Context {F : Type} `{!Scalar F}.
Variable malloc_ok : nat → bool.
Variable junk : F.

Lemma checked_malloc_cases {A} msg (rest : P A) p :
  (ok ← malloc malloc_ok;
   when (negb ok) (fprintf_stderr msg ;; exit 101) ;; rest) p =
  if malloc_ok (mallocs p) then rest (Proc (S (mallocs p)) (stderr p))
  else Exited 101 (Proc (S (mallocs p)) (stderr p ++ [msg])).
Proof.
  unfold mbind, P_bind, malloc. by destruct (malloc_ok (mallocs p)).
Qed.

(** When [allocate_clean_block] returns, it returns the block of zeros,
    whatever the fresh memory held. *)
Lemma allocate_clean_block_result b p :
  returns (allocate_clean_block malloc_ok junk b p) (λ block, block = clean_block b).
Proof.
  unfold allocate_clean_block, for_rangeP. rewrite checked_malloc_cases.
  destruct (malloc_ok (mallocs p)); [|done].
  set (row := for_range 0 b (λ j (row : list F), <[j := fzero]> row)
                (replicate b junk)).
  pose proof (foldP_result (λ i (block : tile F), <[i := row]> block)
    (seq 0 (b - 0))
    (λ i block, ok ← malloc malloc_ok;
       when (negb ok) (fprintf_stderr msg_block ;; exit 101) ;;
       mret (<[i := row]> block))) as Hloop.
  specialize (Hloop (λ i block p1, ltac:(
    cbv beta; rewrite checked_malloc_cases; by destruct (malloc_ok (mallocs p1))))
    (replicate b ([] : list F)) (Proc (S (mallocs p)) (stderr p))).
  destruct (foldP _ _ _ _) as [block p'|]; [|done]. simpl in *. subst block.
  assert (row = replicate b fzero) as ->.
  { unfold row, for_range. rewrite Nat.sub_0_r. cbv beta.
    rewrite foldl_insert_all by by rewrite length_replicate.
    rewrite drop_ge, app_nil_r by by rewrite length_replicate. done. }
  rewrite Nat.sub_0_r. cbv beta.
  rewrite foldl_insert_all by by rewrite length_replicate.
  rewrite drop_ge, app_nil_r by by rewrite length_replicate. done.
Qed.

Lemma genmat_result M n b p :
  returns (genmat malloc_ok junk M n b p)
    (λ M', M' = (foldl (gen_slot b) (M, 1325%Z) (slots n)).1).
Proof.
  unfold genmat, for_rangeP, slots. rewrite Nat.sub_0_r, P_bind_run.
  pose proof (foldP_result
    (λ ii st, foldl (λ st jj, gen_slot b st (ii, jj)) st (seq 0 n)) (seq 0 n)
    (λ ii s, foldP (seq 0 n) (λ jj '(M, init_val),
      let task_init_val := init_val in
      if (null_entry_of (Z.of_nat ii) (Z.of_nat jj) =? 0)%Z then
        block ← allocate_clean_block malloc_ok junk b;
        let '(block, task_init_val) := fill_block block task_init_val b in
        mret (<[(ii, jj) := block]> M, init_val)
      else
        mret (delete (ii, jj) M, init_val)) s)) as Hloop.
  specialize (Hloop (λ ii st p1, ltac:(
    cbv beta; apply foldP_result; intros jj [M1 v] p2; unfold gen_slot; simpl;
    destruct (null_entry_of _ _ =? 0)%Z; [|done];
    rewrite P_bind_run;
    pose proof (allocate_clean_block_result b p2) as Hblock;
    destruct (allocate_clean_block malloc_ok junk b p2) as [block p3|]; [|done];
    simpl in Hblock; subst block;
    by destruct (fill_block (clean_block b) v b))) (M, 1325%Z) p).
  destruct (foldP _ _ _ _) as [st p'|]; [|done]. simpl in *. subst st. f_equal.
  rewrite foldl_bind. apply foldl_ext_eq. intros st ii.
  rewrite foldl_bind. by apply foldl_ext_eq.
Qed.
End generation.

Section generated_matrix.
Context {F : Type} `{!Scalar F}.

Lemma gen_slot_nonzero (b : nat) (M : grid F) (v : Z) (c : nat * nat) :
  structural_nonzero c.1 c.2 →
  gen_slot b (M, v) c = (<[c := rows_of v b b]> M, v).
Proof.
  intros Hc%null_entry_structural. unfold gen_slot. simpl.
  by rewrite Hc, fill_block_clean.
Qed.

Lemma gen_slot_zero (b : nat) (M : grid F) (v : Z) (c : nat * nat) :
  ¬ structural_nonzero c.1 c.2 → gen_slot b (M, v) c = (delete c M, v).
Proof.
  intros Hc. unfold gen_slot. simpl.
  destruct (Z.eqb_spec (null_entry_of (Z.of_nat c.1) (Z.of_nat c.2)) 0) as [H0|H0];
    [|done].
  by apply null_entry_structural in H0.
Qed.

(** The slots of [l], visited in the order of [l]: every tile is filled
    from the same value [v], which the loop leaves as it is. *)
Lemma gen_slots_spec (b : nat) (l : list (nat * nat)) (M : grid F) (v : Z) :
  ∃ M',
    foldl (gen_slot b) (M, v) l = (M', v) ∧
    (∀ c, c ∉ l → M' !! c = M !! c) ∧
    (∀ c, c ∈ l →
       M' !! c = if decide (structural_nonzero c.1 c.2)
                 then Some (rows_of v b b) else None).
Proof.
  revert M. induction l as [|c l IH]; intros M.
  - exists M. split_and!; [done|done|by intros c ?%elem_of_nil].
  - cbn [foldl].
    assert (∃ M1, gen_slot b (M, v) c = (M1, v) ∧
              (∀ c', c' ≠ c → M1 !! c' = M !! c') ∧
              M1 !! c = if decide (structural_nonzero c.1 c.2)
                        then Some (rows_of v b b) else None)
      as (M1 & -> & Hother & Hc).
    { destruct (decide (structural_nonzero c.1 c.2)) as [Hnz|Hz].
      - rewrite gen_slot_nonzero by done. eexists. split_and!; [done| |].
        + intros c' Hne. by rewrite lookup_insert_ne.
        + by rewrite lookup_insert_eq.
      - rewrite gen_slot_zero by done. eexists. split_and!; [done| |].
        + intros c' Hne. by rewrite lookup_delete_ne.
        + by rewrite lookup_delete_eq. }
    destruct (IH M1) as (M' & Hfold & Hout & Hin).
    exists M'. split_and!; [done| |].
    + intros c' [Hne Hc']%not_elem_of_cons. by rewrite Hout, Hother.
    + intros c' Hc'. destruct (decide (c' ∈ l)) as [Hl|Hl]; [by apply Hin|].
      apply elem_of_cons in Hc' as [->|Hc']; [|done]. by rewrite Hout.
Qed.
End generated_matrix.

(** ** Main results *)

Section kernel_claims.
Context {F : Type} `{!Scalar F}.

(** C5. [lu0] performs exactly the in-place unpivoted elimination: its
    three nested loops apply the elementary updates of [lu0_schedule]
    (for k from 0 to b-1, for each i > k: first [diag[i][k]] becomes
    [diag[i][k] / diag[k][k]], then for each j > k [diag[i][j]] becomes
    [diag[i][j] - diag[i][k] * diag[k][j]]) one after the other, in that
    order; the division is applied whatever [diag[k][k]] is, and the
    schedule has no other kind of update (no exchange of rows). *)
Theorem lu0_is_unpivoted_elimination (diag : tile F) (b : nat) :
  lu0 diag b = lu0_spec diag b.
Proof.
  unfold lu0, lu0_spec, lu0_schedule, for_range.
  rewrite Nat.sub_0_r, foldl_bind.
  apply foldl_ext_eq. intros d k.
  rewrite foldl_bind.
  apply foldl_ext_eq. intros d' i. simpl.
  by rewrite foldl_fmap.
Qed.
End kernel_claims.

Section factorisation_claims.
Context {F : Type} `{!Scalar F}.
Implicit Types (g : grid F) (s : state F) (evs : list event).

Lemma diagonal_in_dom g n :
  (∀ k, k < n → present g k k) → ∀ k, k < n → (k, k) ∈ dom g.
Proof. intros Hd k Hk. by apply present_dom, Hd. Qed.

Lemma loop_split (body : nat → M F unit) k n s :
  k ≤ n → loop 0 n body s = (loop 0 k body ;; loop k n body) s.
Proof.
  intros Hk. unfold loop. rewrite !Nat.sub_0_r.
  replace n with (k + (n - k)) at 1 by lia. rewrite seq_app. simpl.
  generalize (seq k (n - k)). intros l2. revert s.
  induction (seq 0 k) as [|i l1 IH]; intros s; simpl.
  - done.
  - unfold mbind, M_bind in *. destruct (body i s) as [[[] s1]|]; [|done].
    apply IH.
Qed.


(** C6 (amended). In the task-dependency version the factorisation
    terminates unless a diagonal tile is missing, and when it terminates,
    for every [bmod] task the slot of its target holds a tile when the
    task is created: it held one initially or an earlier event of the
    log allocated it; every allocation of the log is made by the issuing
    pass, none from a task body, and each stores the zero block. *)
Theorem fill_in_precedes_bmod_submission :
  bmod_targets_ready (F := F) TaskDep.sparselu_par_call ∧
  (∀ (n b : nat) (g : grid F),
     (∀ k, k < n → present g k k) →
     is_Some (TaskDep.sparselu_par_call n b (State g []))) ∧
  (∀ (b i j : nat) (s : state F),
     alloc Issuer i j b s =
     Some ((), State (<[(i, j) := clean_block b]> (st_grid s))
                 (st_log s ++ [Alloc Issuer i j]))).
Proof.
  split_and!; [|..|done].
  - intros n b g s' Hr.
    pose proof (par_call_cases n b (State g [])) as Hcases.
    rewrite Hr in Hcases. destruct Hcases as (evs & Hlog & _ & Hdisc & Hq).
    simpl in *. subst evs. split; [|done].
    intros pre k i j post Hevs.
    apply (disciplined_task_ready _ _ _ _ _ Hdisc Hevs). simpl. set_solver.
  - intros n b g Hdiag.
    destruct (par_call_runs n b (State g [])) as (evs & s' & Hr & _).
    { by apply diagonal_in_dom. }
    by rewrite Hr.
Qed.

(** C7. The factorisation terminates unless a diagonal tile is missing,
    and when it terminates its log allocates no slot twice and no slot
    that held a tile initially: each allocation is for a slot that holds
    no tile when it is made; the slots that hold a tile at the end are
    the initial ones and the allocated ones, and so it is after every
    number k of outer steps, with the allocations made until then: a
    slot that holds a tile keeps it. *)
Theorem fill_in_allocated_once (n b : nat) (g : grid F) :
  match TaskDep.sparselu_par_call n b (State g []) with
  | Some (_, s') =>
      let evs := st_log s' in
      NoDup (allocated evs) ∧
      (∀ c, c ∈ allocated evs → c ∉ dom g) ∧
      (∀ pre w i j post, evs = pre ++ Alloc w i j :: post →
         (i, j) ∉ presence_after (dom g) pre) ∧
      dom (st_grid s') = presence_after (dom g) evs ∧
      (∀ k, k ≤ n → ∃ evs_k g_k,
         loop 0 k (TaskDep.step n b) (State g []) = Some ((), State g_k evs_k) ∧
         evs_k `prefix_of` evs ∧
         dom g_k = presence_after (dom g) evs_k)
  | None => ¬ ∀ k, k < n → present g k k
  end.
Proof.
  pose proof (par_call_cases n b (State g [])) as Hcases.
  destruct (TaskDep.sparselu_par_call n b (State g [])) as [[[] [g' evs]]|] eqn:Hr.
  2:{ intros Hdiag. apply Hcases. by apply diagonal_in_dom. }
  destruct Hcases as (evs0 & Hlog & Hdom & Hdisc & Hq). simpl in *. subst evs0.
  destruct (disciplined_allocated _ _ Hdisc) as [Hnd Hfresh].
  split_and!; [done..| |done|].
  { intros pre w i j post Hevs.
    by apply (disciplined_alloc_fresh _ _ _ _ _ _ _ Hdisc Hevs). }
  intros k Hk.
  unfold TaskDep.sparselu_par_call, mbind, M_bind in Hr.
  rewrite (loop_split _ k n) in Hr by done.
  unfold mbind, M_bind in Hr.
  pose proof (steps_transit n b 0 k (State g [])) as H1. unfold transits in H1.
  destruct (loop 0 k (TaskDep.step n b) (State g [])) as [[[] [g1 l1]]|];
    [|done].
  destruct H1 as (evs1 & Hlog1 & Hdom1 & _). simpl in *. subst l1.
  pose proof (steps_transit n b k n (State g1 evs1)) as H2. unfold transits in H2.
  destruct (loop k n (TaskDep.step n b) (State g1 evs1)) as [[[] [g2 l2]]|];
    [|done].
  destruct H2 as (evs2 & Hlog2 & _). simpl in *. subst l2.
  unfold emit in Hr. simpl in Hr. injection Hr as _ <-.
  exists evs1, g1. split_and!; [done| |done].
  rewrite <- app_assoc. by eexists.
Qed.

(** C8. With [matrix_size = 1] the factorisation of a matrix whose single
    slot holds the tile [t] creates one task, [lu0] on that tile, and
    nothing else happens before the final [taskwait]: no [fwd], [bdiv] or
    [bmod] task, no allocation; the matrix it leaves is the initial one
    with the tile replaced by [lu0 t]. *)
Theorem single_tile_factorisation_is_lu0 (b : nat) (g : grid F) (t : tile F)
    (log : list event) :
  g !! (0, 0) = Some t →
  TaskDep.sparselu_par_call 1 b (State g log) =
  Some ((), State (<[(0, 0) := lu0 t b]> g) (log ++ [Submit (Lu0 0); Taskwait])).
Proof.
  intros Ht.
  unfold TaskDep.sparselu_par_call, TaskDep.step, loop.
  cbn [seq Nat.sub Nat.add for_each].
  unfold submit, call_lu0, emit, arg, write, mbind, M_bind, mret, M_ret.
  cbn [st_grid st_log]. rewrite Ht. cbn [st_grid st_log].
  by rewrite <- app_assoc.
Qed.

Lemma seq_step_sim req n b kk :
  sim req (Task.seq_step n b kk) (Task.seq_step n b kk).
Proof.
  unfold Task.seq_step.
  apply sim_bind; [apply sim_if_present, sim_call_lu0; by left|].
  apply sim_bind.
  { apply sim_for_each. intros jj _.
    apply sim_if_present, sim_if_present, sim_call_fwd; [by left|by right; left]. }
  apply sim_bind.
  { apply sim_for_each. intros ii _.
    apply sim_if_present, sim_if_present, sim_call_bdiv; [by left|by right; left]. }
  apply sim_for_each. intros ii _. apply sim_if_present.
  apply sim_for_each. intros jj _. apply sim_if_present.
  exact (sim_bmod_bodies _ kk ii jj b Issuer Issuer id id id id
    (λ _, eq_refl) (λ _, eq_refl) (λ _, eq_refl) (λ _, eq_refl)
    (or_intror (or_introl eq_refl)) (or_introl eq_refl)).
Qed.

Lemma seq_call_total n b s : is_Some (Task.sparselu_seq_call n b s).
Proof.
  destruct (sim_for_each (λ _, False) (seq 0 (n - 0))
    (Task.seq_step n b) (Task.seq_step n b)
    (λ kk _, seq_step_sim _ n b kk) s s) as (s' & _ & Hr & _); [done..|].
  unfold Task.sparselu_seq_call, loop. by rewrite Hr.
Qed.

Lemma returns_bind {A B} (m : P A) (f : A → P B) (Q : B → Prop) p :
  (∀ a p', returns (f a p') Q) → returns ((m ≫= f) p) Q.
Proof. intros Hf. rewrite P_bind_run. by destruct (m p). Qed.

Lemma returns_impl {A} (o : outcome A) (Q1 Q2 : A → Prop) :
  (∀ a, Q1 a → Q2 a) → returns o Q1 → returns o Q2.
Proof. destruct o; simpl; auto. Qed.

(** The matrix [genmat] has built when it returns: the slots of the
    table that the structural rule selects hold a tile, the same in every
    one of them. *)
Lemma genmat_spec (malloc_ok : nat → bool) (junk : F) (M : grid F) (n b : nat)
    (p : proc) :
  returns (genmat malloc_ok junk M n b p) (λ M',
    (∀ i j, i < n → j < n → (present M' i j ↔ structural_nonzero i j)) ∧
    (∀ i j t, i < n → j < n → M' !! (i, j) = Some t → t = rows_of 1325 b b)).
Proof.
  eapply returns_impl; [|apply genmat_result]. intros M' ->.
  destruct (gen_slots_spec b (slots n) M 1325%Z) as (M' & Hfold & _ & Hin).
  rewrite Hfold. simpl. split.
  - intros i j Hi Hj. unfold present. rewrite (Hin (i, j)) by (apply slots_elem; lia).
    simpl. case_decide; split; first [done|by eexists|by intros [? ?]].
  - intros i j t Hi Hj. rewrite (Hin (i, j)) by (apply slots_elem; lia).
    case_decide; [|done]. by intros [= <-].
Qed.

Lemma genmat_diagonal (malloc_ok : nat → bool) (junk : F) (M : grid F)
    (n b : nat) (p : proc) :
  returns (genmat malloc_ok junk M n b p) (λ M', ∀ k, k < n → present M' k k).
Proof.
  eapply returns_impl; [|apply genmat_spec].
  intros M' (Hpat & _) k Hk. apply Hpat; [done..|]. by left.
Qed.

(** C10. The parallel factorisation hands the diagonal slot to [lu0]
    without a test: a step started with that slot empty faults, whereas
    the sequential reference, which tests it, always terminates.  When
    every diagonal tile of the input is present the parallel
    factorisation terminates, so no kernel is handed an empty slot.
    Whenever [genmat] or [sparselu_init] returns, the matrix has its
    diagonal tiles. *)
Theorem diagonal_presence_makes_arguments_present :
  (∀ n b kk s, ¬ present (st_grid s) kk kk → TaskDep.step n b kk s = None) ∧
  (∀ n b s, is_Some (Task.sparselu_seq_call n b s)) ∧
  (∀ n b s, (∀ k, k < n → present (st_grid s) k k) →
     is_Some (TaskDep.sparselu_par_call n b s)) ∧
  (∀ (malloc_ok : nat → bool) (junk : F) (M : grid F) (n b : nat) (p : proc),
     returns (genmat malloc_ok junk M n b p) (λ M', ∀ k, k < n → present M' k k)) ∧
  (∀ (malloc_ok : nat → bool) (junk : F) (n b : nat) (p : proc),
     returns (sparselu_init malloc_ok junk n b p)
       (λ M' : grid F, ∀ k, k < n → present M' k k)).
Proof.
  split_and!.
  - intros n b kk s Hout. apply step_faults. by rewrite <- present_dom.
  - apply seq_call_total.
  - intros n b s Hdiag.
    destruct (par_call_runs n b s) as (evs & s' & Hr & _).
    { by apply diagonal_in_dom. }
    by rewrite Hr.
  - apply genmat_diagonal.
  - intros malloc_ok junk n b p. unfold sparselu_init.
    rewrite checked_malloc_cases. destruct (malloc_ok (mallocs p)); [|done].
    apply returns_bind. intros _ p'. apply genmat_diagonal.
Qed.

(** Whenever the steps of the task-dependency version terminate, the
    steps of the sequential reference, started on the same matrix,
    terminate on the same matrix. *)
Lemma taskdep_steps_followed n b l s1 s2 s1' :
  st_grid s1 = st_grid s2 →
  for_each l (TaskDep.step n b) s1 = Some ((), s1') →
  ∃ s2', for_each l (Task.seq_step n b) s2 = Some ((), s2') ∧
         st_grid s1' = st_grid s2'.
Proof.
  revert s1 s2. induction l as [|kk l IH]; intros s1 s2 Heq Hr; simpl in *.
  - injection Hr as <-. by exists s2.
  - unfold mbind, M_bind in *.
    destruct (decide ((kk, kk) ∈ dom (st_grid s1))) as [Hin|Hout].
    + destruct (sim_taskdep_step (λ c, c = (kk, kk)) n b kk eq_refl s1 s2)
        as (s1a & s2a & Hr1 & Hr2 & Heq' & _); [by intros c ->|done|].
      rewrite Hr1 in Hr. rewrite Hr2. by apply (IH s1a).
    + by rewrite step_faults in Hr.
Qed.

(** The task-dependency factorisation and the sequential reference:
    from any matrix, either the first faults, a diagonal tile being
    missing, or both terminate and leave the same matrix. *)
Lemma par_call_matches_seq_call (n b : nat) (g : grid F) (log1 log2 : list event) :
  match TaskDep.sparselu_par_call n b (State g log1) with
  | Some (_, s1) =>
      ∃ log2', Task.sparselu_seq_call n b (State g log2) =
               Some ((), State (st_grid s1) log2')
  | None => ¬ ∀ k, k < n → present g k k
  end.
Proof.
  pose proof (par_call_cases n b (State g log1)) as Hcases.
  destruct (TaskDep.sparselu_par_call n b (State g log1)) as [[[] s1]|] eqn:Hr.
  - unfold TaskDep.sparselu_par_call, mbind, M_bind in Hr.
    destruct (loop 0 n (TaskDep.step n b) (State g log1)) as [[[] s1a]|] eqn:Hl;
      [|done].
    unfold emit in Hr. injection Hr as <-.
    destruct (taskdep_steps_followed n b _ (State g log1) (State g log2) s1a
                eq_refl Hl)
      as ([g2 l2] & Hr2 & Heq).
    exists l2. unfold Task.sparselu_seq_call, loop. rewrite Hr2.
    simpl in *. by subst g2.
  - intros Hdiag. apply Hcases. by apply diagonal_in_dom.
Qed.

(** The plain task version leaves that matrix too. *)
Lemma task_par_call_matches_seq_call (n b : nat) (g : grid F) (log1 log2 : list event) :
  (∀ k, k < n → present g k k) →
  ∃ g' log1' log2',
    Task.sparselu_par_call n b (State g log1) = Some ((), State g' log1') ∧
    Task.sparselu_seq_call n b (State g log2) = Some ((), State g' log2').
Proof.
  intros Hdiag.
  destruct (sim_task_call n b (State g log1) (State g log2))
    as ([g1 l1] & [g2 l2] & Hr1 & Hr2 & Heq & _); [|done|].
  - intros [i j] [Hij Hi]. simpl in *. subst j. by apply present_dom, Hdiag.
  - simpl in Heq. subst g2. by exists g1, l1, l2.
Qed.
End factorisation_claims.

Section generator_claims.
Context {F : Type} `{!Scalar F}.

(** C9. Every call of [allocate_clean_block], [genmat] and
    [sparselu_init] is fail-fast on allocation: it returns to its caller
    only if each [malloc] it made succeeded; if one fails, no further
    [malloc] is made, one error message is printed on stderr, and the
    process exits with code 101. *)
Theorem allocation_failure_exits_101 (malloc_ok : nat → bool) (junk : F) :
  (∀ b p, fail_fast malloc_ok p (allocate_clean_block malloc_ok junk b p)) ∧
  (∀ (M : grid F) n b p, fail_fast malloc_ok p (genmat malloc_ok junk M n b p)) ∧
  (∀ n b p,
     fail_fast malloc_ok p (sparselu_init malloc_ok junk n b p : outcome (grid F))).
Proof.
  split_and!.
  - apply allocate_clean_block_fail_fast.
  - apply genmat_fail_fast.
  - apply sparselu_init_fail_fast.
Qed.
End generator_claims.

(** ** Concrete runs in binary32 *)

Section concrete_runs.
Import Binary32 Scenarios.

(** The kernels on 2 x 2 tiles. *)
Example lu0_two_by_two :
  lu0 [[fl 4; fl 3]; [fl 6; fl 3]] 2 =
  [[fl 4; fl 3]; [three_halves; SFopp three_halves]].
Proof. vm_compute. reflexivity. Qed.

Example fwd_two_by_two :
  fwd [[fl 4; fl 3]; [three_halves; SFopp three_halves]]
      [[fl 2; fl 4]; [fl 6; fl 8]] 2 =
  [[fl 2; fl 4]; [fl 3; fl 2]].
Proof. vm_compute. reflexivity. Qed.

Example bdiv_two_by_two :
  bdiv [[fl 4; fl 3]; [three_halves; SFopp three_halves]]
       [[fl 8; fl 3]; [fl 4; fl 6]] 2 =
  [[fl 2; fl 2]; [fl 1; fl (-2)]].
Proof. vm_compute. reflexivity. Qed.

Example bmod_two_by_two :
  bmod [[fl 1; fl 2]; [fl 3; fl 4]] [[fl 1; fl 0]; [fl 2; fl 1]]
       [[fl 10; fl 10]; [fl 10; fl 10]] 2 =
  [[fl 5; fl 8]; [fl (-1); fl 6]].
Proof. vm_compute. reflexivity. Qed.

(** The first values of the generator. *)
Example lcg_first_values : lcg_run 1325 4 = [11857; 25285; 44745; 39837]%Z.
Proof. reflexivity. Qed.

Example of_lcg_first_value :
  (of_lcg 11857 : float) = S754_finite true 10706432 (-23).
Proof. vm_compute. reflexivity. Qed.

(** C4. The values [genmat] writes are not the claimed ones.  In the
    matrix [main] generates (matrix_size = 16, submatrix_size = 8) the
    slots hold a tile as the structural rule says, but every tile is the
    tile of the first 64 values of the recurrence: each task starts from
    its own copy of [init_val], which is 1325.  Read slot after slot, the
    entry number 64 (the first of the second tile) is the image of 11857,
    the first value of the recurrence, where the sequence of the claim
    has the image of its 65th value, 14673. *)
Theorem genmat_restarts_recurrence_in_every_tile :
  generated 16 8 = Some gen16 ∧
  (∀ i j, i < 16 → j < 16 → (present gen16 i j ↔ structural_nonzero i j)) ∧
  map_Forall (λ _ t, t = rows_of 1325 8 8) gen16 ∧
  entries gen16 (slots 16) !! 64 = Some (of_lcg 11857) ∧
  (of_lcg <$> lcg_seq 1325 (nonzero_count (slots 16) * (8 * 8)))
    !! 64 = Some (of_lcg 14673 : float) ∧
  (of_lcg 11857 : float) ≠ of_lcg 14673 ∧
  entries gen16 (slots 16) ≠
    of_lcg <$> lcg_seq 1325 (nonzero_count (slots 16) * (8 * 8)).
Proof.
  assert (entries gen16 (slots 16) !! 64 = Some (of_lcg 11857)) as Hcode
    by (vm_compute; reflexivity).
  assert ((of_lcg <$> lcg_seq 1325 (nonzero_count (slots 16) * (8 * 8)))
            !! 64 = Some (of_lcg 14673 : float)) as Hclaim
    by (vm_compute; reflexivity).
  assert ((of_lcg 11857 : float) ≠ of_lcg 14673) as Hne by by_evaluation.
  split_and!; [vm_compute; reflexivity| |by_evaluation|done|done|done|].
  - pose proof (genmat_spec heap_ok (S754_nan : float) ∅ 16 8 (Proc 17 [])) as Hspec.
    assert (genmat heap_ok (S754_nan : float) ∅ 16 8 (Proc 17 []) =
            Returned gen16 (Proc 647 [])) as Hrun by (vm_compute; reflexivity).
    rewrite Hrun in Hspec. apply Hspec.
  - intros Heq. rewrite Heq, Hclaim in Hcode. by injection Hcode.
Qed.

(** C1 does not hold as stated.  On the matrix [main] generates
    (matrix_size = 16, submatrix_size = 8, seed 1325), whose tiles are all
    the same, both factorisations terminate and the comparison computes
    NaN: the verdict is FAIL, not an RMS below 1e-4.  And not every
    matrix is factored by both: on the 1 x 1 matrix whose slot is empty,
    with 2 x 2 tiles, the parallel factorisation hands the empty slot to
    [lu0] while the sequential reference skips it and returns. *)
Lemma agreement_fails_on_generated_and_on_empty_diagonal :
  end_to_end TaskDep.sparselu_par_call Task.sparselu_seq_call 16 8 = Some S754_nan ∧
  verification_passes S754_nan = false ∧
  TaskDep.sparselu_par_call 1 2 (State (∅ : grid float) []) = None ∧
  Task.sparselu_seq_call 1 2 (State (∅ : grid float) []) = Some ((), State ∅ []) ∧
  ¬ (∀ (n b : nat) (g : grid float), ∃ g' log1 log2,
       TaskDep.sparselu_par_call n b (State g []) = Some ((), State g' log1) ∧
       Task.sparselu_seq_call n b (State g []) = Some ((), State g' log2)).
Proof.
  assert (TaskDep.sparselu_par_call 1 2 (State (∅ : grid float) []) = None)
    as Hpar by (vm_compute; reflexivity).
  split_and!; [vm_compute; reflexivity|reflexivity|done|vm_compute; reflexivity|].
  intros Hall. destruct (Hall 1 2 ∅) as (g' & l1 & l2 & Hp & _).
  rewrite Hpar in Hp. discriminate.
Qed.

(** With the diagonal tile present but a zero pivot, both drivers leave
    the same tile, holding infinities; the comparison of [main] then
    computes NaN and the verdict is FAIL. *)
Lemma zero_pivot_fails_verification :
  factored TaskDep.sparselu_par_call zero_pivot 1 2 = Some zero_pivot_factored ∧
  factored Task.sparselu_seq_call zero_pivot 1 2 = Some zero_pivot_factored ∧
  rms_error zero_pivot_factored zero_pivot_factored 1 2 = S754_nan ∧
  verification_passes S754_nan = false.
Proof. split_and!; vm_compute; reflexivity. Qed.

(** C6 does not hold for the plain task version: on the generated
    5 x 5 matrix its [bmod] task for slot (1, 4) is created while the
    slot is empty, and the allocation that follows is made in the task
    body. *)
Lemma task_version_allocates_in_bmod_task :
  (∃ post,
     log_of (Task.sparselu_par_call 5 2 (State gen5 [])) =
       task_log_prefix ++ Submit (Bmod 0 1 4) :: Alloc InTask 1 4 :: post) ∧
  ((1, 4) ∉ presence_after (dom gen5) task_log_prefix) ∧
  ¬ bmod_targets_ready (F := float) Task.sparselu_par_call.
Proof.
  assert (log_of (Task.sparselu_par_call 5 2 (State gen5 [])) =
    task_log_prefix ++ Submit (Bmod 0 1 4) :: Alloc InTask 1 4 ::
      drop 11 (log_of (Task.sparselu_par_call 5 2 (State gen5 [])))) as Hlog
    by (vm_compute; reflexivity).
  assert ((1, 4) ∉ presence_after (dom gen5) task_log_prefix) as Hout
    by by_evaluation.
  split_and!; [by eexists|done|].
  intros Hready. revert Hlog.
  generalize (drop 11 (log_of (Task.sparselu_par_call 5 2 (State gen5 [])))).
  pose proof (Hready 5 2 gen5) as Hrun.
  destruct (Task.sparselu_par_call 5 2 (State gen5 [])) as [[[] s']|].
  - intros post Hlog. simpl in Hlog.
    destruct (Hrun s' eq_refl) as [Htargets _].
    apply Hout, (Htargets task_log_prefix 0 1 4 _ Hlog).
  - intros post Hlog. simpl in Hlog. by destruct task_log_prefix.
Qed.

Lemma fill_in_precedes_bmod_submission_witness :
  (∀ k, k < 5 → present gen5 k k) ∧
  is_Some (TaskDep.sparselu_par_call 5 2 (State gen5 [])).
Proof.
  split; [diagonal_by_evaluation|].
  apply (proj1 (proj2 fill_in_precedes_bmod_submission) 5 2 gen5).
  diagonal_by_evaluation.
Defined.

Lemma diagonal_presence_makes_arguments_present_witness :
  (∀ k, k < 5 → present gen5 k k) ∧
  is_Some (TaskDep.sparselu_par_call 5 2 (State gen5 [Taskwait])).
Proof.
  split; [diagonal_by_evaluation|].
  apply (proj1 (proj2 (proj2 diagonal_presence_makes_arguments_present))
           5 2 (State gen5 [Taskwait])).
  diagonal_by_evaluation.
Defined.

Lemma single_tile_factorisation_is_lu0_witness :
  single !! (0, 0) = Some (rows_of 1325 2 2) ∧
  TaskDep.sparselu_par_call 1 2 (State single []) =
  Some ((), State (<[(0, 0) := lu0 (rows_of 1325 2 2) 2]> single)
              [Submit (Lu0 0); Taskwait]).
Proof.
  split; [vm_compute; reflexivity|].
  apply (single_tile_factorisation_is_lu0 2 single (rows_of 1325 2 2) []).
  vm_compute. reflexivity.
Defined.
End concrete_runs.

(** * Further properties of the code *)

(** ** Loops and tiles *)

Lemma for_range_nil {St : Type} (lo hi : nat) (body : nat → St → St) (s : St) :
  hi ≤ lo → for_range lo hi body s = s.
Proof. intros Hle. unfold for_range. by replace (hi - lo) with 0 by lia. Qed.

Lemma for_range_S {St : Type} (lo hi : nat) (body : nat → St → St) (s : St) :
  lo ≤ hi → for_range lo (S hi) body s = body hi (for_range lo hi body s).
Proof.
  intros Hle. unfold for_range.
  replace (S hi - lo) with (S (hi - lo)) by lia.
  rewrite seq_S, foldl_app. simpl. by replace (lo + (hi - lo)) with hi by lia.
Qed.

(** A loop invariant: [Inv i] holds before iteration [i]. *)
Lemma for_range_ind {St : Type} (Inv : nat → St → Prop) (lo hi : nat)
    (body : nat → St → St) (s : St) :
  lo ≤ hi → Inv lo s →
  (∀ i s, lo ≤ i < hi → Inv i s → Inv (S i) (body i s)) →
  Inv hi (for_range lo hi body s).
Proof.
  intros Hle H0 Hstep. induction hi as [|hi IH].
  - replace lo with 0 in * by lia. by rewrite for_range_nil.
  - destruct (decide (lo = S hi)) as [->|Hne].
    + by rewrite for_range_nil.
    + rewrite for_range_S by lia. apply Hstep; [lia|].
      apply IH; [lia|]. intros i s' Hi. apply Hstep. lia.
Qed.

Section tiles.
Context {F : Type} `{!Scalar F}.
Implicit Types (t : tile F) (v : F).

Lemma tset_square b t i j v : square b t → square b (tset t i j v).
Proof.
  intros [Hlen Hrows]. unfold square, tset. rewrite length_alter. split; [done|].
  apply Forall_alter; [done|]. intros row Hrow Hr. by rewrite length_insert.
Qed.

Lemma tget_tset_eq b t i j v :
  square b t → i < b → j < b → tget (tset t i j v) i j = v.
Proof.
  intros [Hlen Hrows] Hi Hj. unfold tget, tset.
  destruct (lookup_lt_is_Some_2 t i) as [row Hrow]; [lia|].
  pose proof (Forall_lookup_1 (λ row : list F, length row = b) t i row Hrows Hrow)
    as Hr. simpl in Hr.
  rewrite list_lookup_alter_eq, Hrow. simpl.
  by rewrite list_lookup_insert_eq by lia.
Qed.

Lemma tget_tset_ne t i j v i' j' :
  (i', j') ≠ (i, j) → tget (tset t i j v) i' j' = tget t i' j'.
Proof.
  intros Hne. unfold tget, tset.
  destruct (decide (i' = i)) as [->|Hi].
  - rewrite list_lookup_alter_eq. destruct (t !! i) as [row|]; [|done]. simpl.
    rewrite list_lookup_insert_ne; [done|]. congruence.
  - by rewrite list_lookup_alter_ne.
Qed.

Lemma tget_tset b t i j v i' j' :
  square b t → i < b → j < b →
  tget (tset t i j v) i' j' = if decide (i' = i ∧ j' = j) then v else tget t i' j'.
Proof.
  intros Hsq Hi Hj. case_decide as Hc.
  - destruct Hc as [-> ->]. by eapply tget_tset_eq.
  - apply tget_tset_ne. intros [= -> ->]. tauto.
Qed.

Lemma sub_dot_S (x y : nat → F) m acc :
  sub_dot x y (S m) acc = fsub (sub_dot x y m acc) (fmul (x m) (y m)).
Proof. unfold sub_dot. by rewrite seq_S, foldl_app. Qed.

Lemma sub_dot_ext (x y x' y' : nat → F) m acc :
  (∀ k, k < m → x k = x' k) → (∀ k, k < m → y k = y' k) →
  sub_dot x y m acc = sub_dot x' y' m acc.
Proof.
  intros Hx Hy. induction m as [|m IH]; [done|].
  rewrite !sub_dot_S, IH, Hx, Hy by (intros; auto with lia). done.
Qed.
End tiles.

Ltac split_cases :=
  repeat case_decide; destruct_and?; subst; try done; try lia.

(** [loop_inv Inv H]: the invariant [Inv] of the outermost loop of the goal,
    at its exit. *)
Ltac loop_inv Inv H :=
  match goal with
  | |- context [for_range ?lo ?hi ?body ?s] =>
      assert (Inv hi (for_range lo hi body s)) as H;
      [apply (for_range_ind Inv lo hi body s); [lia| |]; cbv beta zeta
      |cbv beta zeta in H]
  end.

Section bmod_formula.
Context {F : Type} `{!Scalar F}.
Implicit Types (t : tile F).

Lemma bmod_entries (row col inner : tile F) (b i j : nat) :
  square b inner → i < b → j < b →
  tget (bmod row col inner b) i j =
  sub_dot (tget row i) (λ k, tget col k j) b (tget inner i j).
Proof.
  intros Hsq Hi Hj. unfold bmod.
  loop_inv (λ I t, square b t ∧ ∀ i j, i < b → j < b →
    tget t i j = if decide (i < I)
                 then sub_dot (tget row i) (λ k, tget col k j) b (tget inner i j)
                 else tget inner i j) Hloop.
  { split; [done|]. intros i' j' _ _. by rewrite decide_False by lia. }
  2:{ destruct Hloop as [_ Hall]. rewrite Hall by done. by rewrite decide_True. }
  clear i j Hi Hj. intros I t HI [Hsqt Ht].
  loop_inv (λ J t', square b t' ∧ ∀ i j, i < b → j < b →
    tget t' i j = if decide (i = I ∧ j < J)
                  then sub_dot (tget row I) (λ k, tget col k j) b (tget t I j)
                  else tget t i j) Hloop.
  { split; [done|]. intros i' j' _ _. by rewrite decide_False by lia. }
  2:{ destruct Hloop as [Hsq' Hall]. split; [done|]. intros i j Hi Hj.
      rewrite Hall, !Ht by lia. split_cases. }
  intros J t' HJ [Hsqt' Ht'].
  loop_inv (λ K t'', square b t'' ∧ ∀ i j,
    tget t'' i j = if decide (i = I ∧ j = J)
                   then sub_dot (tget row I) (λ k, tget col k J) K (tget t' I J)
                   else tget t' i j) Hloop.
  { split; [done|]. intros i' j'. case_decide as Hc; [|done]. by destruct Hc as [-> ->]. }
  2:{ destruct Hloop as [Hsq' Hall]. split; [done|]. intros i j Hi Hj.
      rewrite Hall, !Ht' by lia. split_cases. }
  intros K t'' HK [Hsqt'' Ht'']. split; [by apply tset_square|].
  intros i j. rewrite (tget_tset b), !Ht'', sub_dot_S by (done || lia).
  split_cases.
Qed.
End bmod_formula.

Section fwd_formula.
Context {F : Type} `{!Scalar F}.
Implicit Types (t : tile F).

Lemma fwd_entries (diag col : tile F) (b i j : nat) :
  square b col → i < b → j < b →
  tget (fwd diag col b) i j =
  sub_dot (tget diag i) (λ k, tget (fwd diag col b) k j) i (tget col i j).
Proof.
  intros Hsq Hi Hj. unfold fwd.
  loop_inv (λ J t, square b t ∧ ∀ i j, i < b → j < b →
    tget t i j = if decide (j < J)
                 then sub_dot (tget diag i) (λ k, tget t k j) i (tget col i j)
                 else tget col i j) Hloop.
  { split; [done|]. intros i' j' _ _. by rewrite decide_False by lia. }
  2:{ destruct Hloop as [_ Hall]. rewrite Hall at 1 by done. by rewrite decide_True. }
  clear i j Hi Hj. intros J t HJ [Hsqt Ht].
  loop_inv (λ K t', square b t' ∧ ∀ i j, i < b → j < b →
    tget t' i j = if decide (j = J)
                  then sub_dot (tget diag i) (λ k, tget t' k J) (i `min` K) (tget t i J)
                  else tget t i j) Hloop.
  { split; [done|]. intros i j _ _. rewrite Nat.min_0_r. split_cases. }
  2:{ destruct Hloop as [Hsq' Hall]. split; [done|]. intros i j Hi Hj.
      rewrite Hall at 1 by lia.
      destruct (decide (j = J)) as [->|Hne].
      - rewrite decide_True by lia. replace (i `min` b) with i by lia.
        rewrite (Ht i J) by lia. by rewrite decide_False by lia.
      - rewrite (Ht i j) by lia.
        destruct (decide (j < J)) as [Hlt|Hge].
        + rewrite decide_True by lia.
          apply sub_dot_ext; [done|]. intros k Hk.
          rewrite Hall by lia. by rewrite decide_False.
        + by rewrite decide_False by lia. }
  intros K t' HK [Hsqt' Ht'].
  loop_inv (λ I t'', square b t'' ∧ ∀ i j,
    tget t'' i j = if decide (j = J ∧ K < i < I)
                   then fsub (tget t' i J) (fmul (tget diag i K) (tget t' K J))
                   else tget t' i j) Hloop.
  { split; [done|]. intros i j. by rewrite decide_False by lia. }
  2:{ destruct Hloop as [Hsq' Hall]. split; [done|]. intros i j Hi Hj.
      rewrite Hall at 1.
      destruct (decide (j = J)) as [->|Hne].
      - destruct (decide (K < i)) as [Hlt|Hge].
        + rewrite decide_True by lia. rewrite (Ht' i J) by lia.
          rewrite decide_True by done.
          replace (i `min` K) with K by lia. replace (i `min` S K) with (S K) by lia.
          rewrite sub_dot_S. f_equal.
          * apply sub_dot_ext; [done|]. intros k Hk.
            rewrite Hall. by rewrite decide_False by lia.
          * f_equal. rewrite Hall. by rewrite decide_False by lia.
        + rewrite decide_False by lia. rewrite (Ht' i J) by lia.
          rewrite decide_True by done.
          replace (i `min` S K) with (i `min` K) by lia.
          apply sub_dot_ext; [done|]. intros k Hk.
          rewrite Hall. by rewrite decide_False by lia.
      - rewrite decide_False by tauto. rewrite Ht' by lia. by rewrite decide_False. }
  intros I t'' HI [Hsqt'' Ht'']. split; [by apply tset_square|].
  intros i j. rewrite (tget_tset b), !Ht'' by (done || lia).
  split_cases.
Qed.
End fwd_formula.

Section bdiv_formula.
Context {F : Type} `{!Scalar F}.
Implicit Types (t : tile F).

Lemma bdiv_entries (diag row : tile F) (b i j : nat) :
  square b row → i < b → j < b →
  tget (bdiv diag row b) i j =
  fdiv (sub_dot (tget (bdiv diag row b) i) (λ k, tget diag k j) j (tget row i j))
       (tget diag j j).
Proof.
  intros Hsq Hi Hj. unfold bdiv.
  loop_inv (λ I t, square b t ∧ ∀ i j, i < b → j < b →
    tget t i j = if decide (i < I)
                 then fdiv (sub_dot (tget t i) (λ k, tget diag k j) j (tget row i j))
                           (tget diag j j)
                 else tget row i j) Hloop.
  { split; [done|]. intros i' j' _ _. by rewrite decide_False by lia. }
  2:{ destruct Hloop as [_ Hall]. rewrite Hall at 1 by done. by rewrite decide_True. }
  clear i j Hi Hj. intros I t HI [Hsqt Ht].
  loop_inv (λ K t', square b t' ∧ ∀ i j, i < b → j < b →
    tget t' i j =
    if decide (i = I)
    then if decide (j < K)
         then fdiv (sub_dot (tget t' I) (λ k, tget diag k j) j (tget t I j))
                   (tget diag j j)
         else sub_dot (tget t' I) (λ k, tget diag k j) K (tget t I j)
    else tget t i j) Hloop.
  { split; [done|]. intros i j _ _. split_cases. }
  2:{ destruct Hloop as [Hsq' Hall]. split; [done|]. intros i j Hi Hj.
      rewrite Hall at 1 by lia.
      destruct (decide (i = I)) as [->|Hne].
      - rewrite !decide_True by lia. rewrite (Ht I j) by lia.
        by rewrite decide_False by lia.
      - rewrite (Ht i j) by lia.
        destruct (decide (i < I)) as [Hlt|Hge].
        + rewrite decide_True by lia. f_equal.
          apply sub_dot_ext; [|done]. intros k Hk.
          rewrite Hall by lia. by rewrite decide_False.
        + by rewrite decide_False by lia. }
  intros K t' HK [Hsqt' Ht'].
  set (t1 := tset t' I K (fdiv (tget t' I K) (tget diag K K))).
  assert (square b t1) as Hsq1 by by apply tset_square.
  loop_inv (λ J t'', square b t'' ∧ ∀ i j,
    tget t'' i j = if decide (i = I ∧ K < j < J)
                   then fsub (tget t1 I j) (fmul (tget t1 I K) (tget diag K j))
                   else tget t1 i j) Hloop.
  { split; [done|]. intros i j. by rewrite decide_False by lia. }
  2:{ destruct Hloop as [Hsq' Hall]. split; [done|]. intros i j Hi Hj.
      assert (∀ k, k < K → tget (for_range (K + 1) b (λ j0 row0,
                tset row0 I j0 (fsub (tget row0 I j0)
                  (fmul (tget row0 I K) (tget diag K j0)))) t1) I k = tget t' I k)
        as Hlow.
      { intros k Hk. rewrite Hall. rewrite decide_False by lia.
        unfold t1. rewrite (tget_tset b) by (done || lia).
        by rewrite decide_False by lia. }
      rewrite Hall at 1.
      destruct (decide (i = I)) as [->|Hne].
      - destruct (decide (j < K)) as [Hlt|Hge].
        + rewrite decide_False by lia. rewrite decide_True by lia.
          unfold t1 at 1. rewrite (tget_tset b) by (done || lia).
          rewrite decide_False by lia. rewrite (Ht' I j) by lia.
          rewrite decide_True by done. rewrite decide_True by done.
          f_equal. apply sub_dot_ext; [|done]. intros k Hk.
          rewrite Hlow by lia. done.
        + destruct (decide (j = K)) as [->|HneK].
          * rewrite decide_False by lia. rewrite decide_True by lia.
            unfold t1 at 1. rewrite (tget_tset b) by (done || lia).
            rewrite decide_True by done. rewrite (Ht' I K) by lia.
            rewrite decide_True by done. rewrite decide_False by lia.
            f_equal. apply sub_dot_ext; [|done]. intros k Hk.
            rewrite Hlow by lia. done.
          * rewrite decide_True by lia. rewrite decide_False by lia.
            rewrite sub_dot_S.
            unfold t1 at 1. rewrite (tget_tset b) by (done || lia).
            rewrite decide_False by lia. rewrite (Ht' I j) by lia.
            rewrite decide_True by done. rewrite decide_False by lia.
            f_equal.
            -- apply sub_dot_ext; [|done]. intros k Hk.
               rewrite Hlow by lia. done.
            -- f_equal. rewrite Hall. by rewrite decide_False by lia.
      - rewrite decide_False by tauto.
        unfold t1. rewrite (tget_tset b) by (done || lia).
        rewrite decide_False by tauto. rewrite Ht' by lia.
        by rewrite decide_False by done. }
  intros J t'' HJ [Hsqt'' Ht'']. split; [by apply tset_square|].
  intros i j. rewrite (tget_tset b), !Ht'' by (done || lia).
  split_cases.
Qed.
End bdiv_formula.

Section lu0_formula.
Context {F : Type} `{!Scalar F}.
Implicit Types (t : tile F).

Lemma lu0_entries (diag : tile F) (b i j : nat) :
  square b diag → i < b → j < b →
  tget (lu0 diag b) i j =
  let acc := sub_dot (tget (lu0 diag b) i) (λ k, tget (lu0 diag b) k j)
               (i `min` j) (tget diag i j) in
  if decide (j < i) then fdiv acc (tget (lu0 diag b) j j) else acc.
Proof.
  intros Hsq Hi Hj. unfold lu0. cbv zeta.
  loop_inv (λ K t, square b t ∧ ∀ i j, i < b → j < b →
    tget t i j =
    if decide (j < i ∧ j < K)
    then fdiv (sub_dot (tget t i) (λ k, tget t k j) ((i `min` j) `min` K) (tget diag i j))
              (tget t j j)
    else sub_dot (tget t i) (λ k, tget t k j) ((i `min` j) `min` K) (tget diag i j))
    Hloop.
  { split; [done|]. intros i' j' _ _. rewrite Nat.min_0_r. by rewrite decide_False by lia. }
  2:{ destruct Hloop as [_ Hall]. rewrite Hall at 1 by done.
      replace ((i `min` j) `min` b) with (i `min` j) by lia. split_cases. }
  clear i j Hi Hj. intros K t HK [Hsqt Ht].
  loop_inv (λ I t', square b t' ∧ ∀ i j, i < b → j < b →
    tget t' i j =
    if decide (K < i < I)
    then if decide (j = K) then fdiv (tget t i K) (tget t K K)
         else if decide (K < j)
              then fsub (tget t i j) (fmul (fdiv (tget t i K) (tget t K K)) (tget t K j))
              else tget t i j
    else tget t i j) Hloop.
  { split; [done|]. intros i j _ _. by rewrite decide_False by lia. }
  2:{ destruct Hloop as [Hsq' Hall]. split; [done|]. intros i j Hi Hj.
      set (t2 := for_range (K + 1) b _ t) in *.
      assert (∀ i' j', i' < b → j' < b → i' ≤ K ∨ j' < K → tget t2 i' j' = tget t i' j')
        as Hold.
      { intros i' j' Hi' Hj' Hij. rewrite Hall by lia. split_cases. }
      destruct (decide (K < i)) as [HKi|HiK].
      - destruct (decide (j = K)) as [->|HjK].
        + rewrite Hall at 1 by lia. rewrite decide_True by lia.
          rewrite decide_True by done. rewrite decide_True by lia.
          rewrite (Ht i K) by lia. rewrite decide_False by lia.
          rewrite (Hold K K) by lia.
          replace ((i `min` K) `min` S K) with ((i `min` K) `min` K) by lia.
          f_equal. apply sub_dot_ext; intros k Hk; rewrite Hold by lia; done.
        + destruct (decide (K < j)) as [HKj|HjK'].
          * rewrite Hall at 1 by lia. rewrite decide_True by lia.
            rewrite decide_False by done. rewrite decide_True by done.
            rewrite decide_False by lia.
            replace ((i `min` j) `min` S K) with (S K) by lia.
            rewrite sub_dot_S. rewrite (Ht i j) by lia.
            rewrite decide_False by lia.
            replace ((i `min` j) `min` K) with K by lia.
            f_equal.
            -- apply sub_dot_ext; intros k Hk; rewrite Hold by lia; done.
            -- f_equal.
               ++ rewrite Hall by lia. rewrite decide_True by lia.
                  by rewrite decide_True by done.
               ++ rewrite Hold by lia. done.
          * rewrite (Hold i j) by lia. rewrite (Ht i j) by lia.
            rewrite (Hold j j) by lia.
            replace ((i `min` j) `min` S K) with ((i `min` j) `min` K) by lia.
            rewrite decide_True by lia. rewrite decide_True by lia.
            f_equal. apply sub_dot_ext; intros k Hk; rewrite Hold by lia; done.
      - rewrite (Hold i j) by lia. rewrite (Ht i j) by lia.
        replace ((i `min` j) `min` S K) with ((i `min` j) `min` K) by lia.
        destruct (decide (j < i)) as [Hji|Hij].
        + rewrite decide_True by lia. rewrite decide_True by lia.
          rewrite (Hold j j) by lia.
          f_equal. apply sub_dot_ext; intros k Hk; rewrite Hold by lia; done.
        + rewrite decide_False by lia. rewrite decide_False by lia.
          apply sub_dot_ext; intros k Hk; rewrite Hold by lia; done. }
  intros I t' HI [Hsqt' Ht'].
  set (t1 := tset t' I K (fdiv (tget t' I K) (tget t' K K))).
  assert (square b t1) as Hsq1 by by apply tset_square.
  loop_inv (λ J t'', square b t'' ∧ ∀ i j,
    tget t'' i j = if decide (i = I ∧ K < j < J)
                   then fsub (tget t1 I j) (fmul (tget t1 I K) (tget t1 K j))
                   else tget t1 i j) Hloop.
  { split; [done|]. intros i j. by rewrite decide_False by lia. }
  2:{ destruct Hloop as [Hsq' Hall]. split; [done|]. intros i j Hi Hj.
      assert (∀ i' j', i' < b → j' < b →
                tget t1 i' j' = if decide (i' = I ∧ j' = K)
                                then fdiv (tget t I K) (tget t K K)
                                else tget t' i' j') as H1.
      { intros i' j' Hi' Hj'. unfold t1. rewrite (tget_tset b) by (done || lia).
        rewrite (Ht' I K), (Ht' K K) by lia. split_cases. }
      rewrite Hall. rewrite !H1 by lia. rewrite !Ht' by lia. split_cases. }
  intros J t'' HJ [Hsqt'' Ht'']. split; [by apply tset_square|].
  intros i j. rewrite (tget_tset b), !Ht'' by (done || lia).
  split_cases.
Qed.
End lu0_formula.

(** ** The steps of the factorisation on the matrix *)

Section loops.
Context {F : Type} `{!Scalar F}.
Implicit Types (s : state F) (g : grid F).

Lemma loop_nil lo hi (body : nat → M F unit) s :
  hi ≤ lo → loop lo hi body s = Some ((), s).
Proof. intros Hle. unfold loop. by replace (hi - lo) with 0 by lia. Qed.

(** A loop invariant for the loops of the drivers: [Inv i] holds before
    iteration [i], and every iteration terminates. *)
Lemma loop_ind (Inv : nat → state F → Prop) lo hi (body : nat → M F unit) s :
  lo ≤ hi → Inv lo s →
  (∀ i s, lo ≤ i < hi → Inv i s → ∃ s', body i s = Some ((), s') ∧ Inv (S i) s') →
  ∃ s', loop lo hi body s = Some ((), s') ∧ Inv hi s'.
Proof.
  intros Hle H0 Hstep. unfold loop.
  remember (hi - lo) as m eqn:Hm. revert lo s Hle H0 Hstep Hm.
  induction m as [|m IH]; intros lo s Hle H0 Hstep Hm.
  - replace hi with lo by lia. by exists s.
  - destruct (Hstep lo s) as (s1 & Hr1 & H1); [lia|done|].
    destruct (IH (S lo) s1) as (s' & Hr & H'); [lia|done| |lia|].
    { intros i s2 Hi. apply Hstep. lia. }
    exists s'. split; [|done]. simpl. unfold mbind, M_bind. by rewrite Hr1.
Qed.

Lemma if_present_yes i j (body : M F unit) s t :
  st_grid s !! (i, j) = Some t → if_present i j body s = body s.
Proof. intros Ht. unfold if_present. rewrite decide_True; [done|]. by exists t. Qed.

Lemma if_present_no i j (body : M F unit) s :
  st_grid s !! (i, j) = None → if_present i j body s = Some ((), s).
Proof.
  intros Ht. unfold if_present. rewrite decide_False; [done|].
  intros [t Hs]. congruence.
Qed.

Lemma over_range_nil n kk f : n ≤ kk + 1 → over_range n kk f = [].
Proof. intros Hle. unfold over_range. by replace (n - (kk + 1)) with 0 by lia. Qed.

Lemma over_range_S n kk f :
  kk + 1 ≤ n → over_range (S n) kk f = over_range n kk f ++ f n.
Proof.
  intros Hle. unfold over_range.
  replace (S n - (kk + 1)) with (S (n - (kk + 1))) by lia.
  rewrite seq_S, bind_app. simpl. rewrite app_nil_r.
  by replace (kk + 1 + (n - (kk + 1))) with n by lia.
Qed.

Lemma over_range_ext n kk f f' :
  (∀ x, kk < x < n → f x = f' x) → over_range n kk f = over_range n kk f'.
Proof.
  intros Hf. unfold over_range.
  assert (∀ x, x ∈ seq (kk + 1) (n - (kk + 1)) → f x = f' x) as Hl.
  { intros x Hx%elem_of_seq. apply Hf. lia. }
  induction (seq (kk + 1) (n - (kk + 1))) as [|x l IH]; [done|].
  rewrite !bind_cons, Hl by left. f_equal. apply IH.
  intros y Hy. apply Hl. by right.
Qed.

Lemma when_present_ext (g g' : grid F) i j evs :
  (is_Some (g !! (i, j)) ↔ is_Some (g' !! (i, j))) →
  when_present g i j evs = when_present g' i j evs.
Proof.
  intros Hiff. unfold when_present, present.
  destruct (decide (is_Some (g !! (i, j)))) as [Hp|Hp].
  - by rewrite decide_True by by apply Hiff.
  - by rewrite decide_False by by rewrite <- Hiff.
Qed.

Lemma when_present_Some (g : grid F) i j t evs :
  g !! (i, j) = Some t → when_present g i j evs = evs.
Proof. intros Ht. unfold when_present. rewrite decide_True; [done|]. by exists t. Qed.

Lemma when_present_None (g : grid F) i j evs :
  g !! (i, j) = None → when_present g i j evs = [].
Proof.
  intros Ht. unfold when_present. rewrite decide_False; [done|].
  intros [t Hs]. congruence.
Qed.

Lemma submit_call_fwd kk jj b s d c :
  st_grid s !! (kk, kk) = Some d → st_grid s !! (kk, jj) = Some c →
  submit (Fwd kk jj) (call_fwd kk jj b) s =
  Some ((), State (<[(kk, jj) := fwd d c b]> (st_grid s))
              (st_log s ++ [Submit (Fwd kk jj)])).
Proof.
  intros Hd Hc. unfold submit, call_fwd, emit, arg, write, mbind, M_bind. simpl.
  rewrite Hd. simpl. by rewrite Hc.
Qed.

Lemma submit_call_bdiv kk ii b s d r :
  st_grid s !! (kk, kk) = Some d → st_grid s !! (ii, kk) = Some r →
  submit (Bdiv kk ii) (call_bdiv kk ii b) s =
  Some ((), State (<[(ii, kk) := bdiv d r b]> (st_grid s))
              (st_log s ++ [Submit (Bdiv kk ii)])).
Proof.
  intros Hd Hc. unfold submit, call_bdiv, emit, arg, write, mbind, M_bind. simpl.
  rewrite Hd. simpl. by rewrite Hc.
Qed.

Lemma submit_call_lu0 kk b s d :
  st_grid s !! (kk, kk) = Some d →
  submit (Lu0 kk) (call_lu0 kk b) s =
  Some ((), State (<[(kk, kk) := lu0 d b]> (st_grid s))
              (st_log s ++ [Submit (Lu0 kk)])).
Proof.
  intros Hd. unfold submit, call_lu0, emit, arg, write, mbind, M_bind. simpl.
  by rewrite Hd.
Qed.

Lemma run_call_lu0 kk b s d :
  st_grid s !! (kk, kk) = Some d →
  call_lu0 kk b s = Some ((), State (<[(kk, kk) := lu0 d b]> (st_grid s)) (st_log s)).
Proof. intros Hd. unfold call_lu0, arg, write, mbind, M_bind. by rewrite Hd. Qed.

(** The three forms of the body of the [bmod] loops. *)
Lemma taskdep_bmod_body kk ii jj b s r c :
  st_grid s !! (ii, kk) = Some r → st_grid s !! (kk, jj) = Some c →
  (if_absent ii jj (alloc Issuer ii jj b) ;;
   submit (Bmod kk ii jj) (call_bmod kk ii jj b)) s =
  Some ((), State
    (<[(ii, jj) := bmod r c (default (clean_block b) (st_grid s !! (ii, jj))) b]>
       (st_grid s))
    (st_log s ++ fill_in_event (st_grid s !! (ii, jj)) Issuer ii jj ++
       [Submit (Bmod kk ii jj)])).
Proof.
  intros Hr Hc.
  unfold if_absent, alloc, submit, call_bmod, mbind, M_bind, emit, arg, write.
  destruct (decide (present (st_grid s) ii jj)) as [[x Hx]|Hp]; simpl.
  - rewrite Hr. simpl. rewrite Hc. simpl. by rewrite Hx.
  - assert ((ii, jj) ≠ (ii, kk)) as Hne1.
    { intros [= ->]. apply Hp. by exists r. }
    assert ((ii, jj) ≠ (kk, jj)) as Hne2.
    { intros [= ->]. apply Hp. by exists c. }
    apply eq_None_not_Some in Hp.
    rewrite lookup_insert_ne, Hr by done. simpl.
    rewrite lookup_insert_ne, Hc by done. simpl.
    rewrite lookup_insert_eq. simpl.
    by rewrite insert_insert_eq, Hp, <- app_assoc.
Qed.

Lemma task_bmod_body kk ii jj b s r c :
  st_grid s !! (ii, kk) = Some r → st_grid s !! (kk, jj) = Some c →
  submit (Bmod kk ii jj)
    (if_absent ii jj (alloc InTask ii jj b) ;; call_bmod kk ii jj b) s =
  Some ((), State
    (<[(ii, jj) := bmod r c (default (clean_block b) (st_grid s !! (ii, jj))) b]>
       (st_grid s))
    (st_log s ++ Submit (Bmod kk ii jj) ::
       fill_in_event (st_grid s !! (ii, jj)) InTask ii jj)).
Proof.
  intros Hr Hc.
  unfold if_absent, alloc, submit, call_bmod, mbind, M_bind, emit, arg, write.
  simpl.
  destruct (decide (present (st_grid s) ii jj)) as [[x Hx]|Hp]; simpl.
  - rewrite Hr. simpl. rewrite Hc. simpl. by rewrite Hx.
  - assert ((ii, jj) ≠ (ii, kk)) as Hne1.
    { intros [= ->]. apply Hp. by exists r. }
    assert ((ii, jj) ≠ (kk, jj)) as Hne2.
    { intros [= ->]. apply Hp. by exists c. }
    apply eq_None_not_Some in Hp.
    rewrite lookup_insert_ne, Hr by done. simpl.
    rewrite lookup_insert_ne, Hc by done. simpl.
    rewrite lookup_insert_eq. simpl.
    rewrite insert_insert_eq, Hp, <- app_assoc. done.
Qed.

Lemma seq_bmod_body kk ii jj b s r c :
  st_grid s !! (ii, kk) = Some r → st_grid s !! (kk, jj) = Some c →
  (if_absent ii jj (alloc Issuer ii jj b) ;; call_bmod kk ii jj b) s =
  Some ((), State
    (<[(ii, jj) := bmod r c (default (clean_block b) (st_grid s !! (ii, jj))) b]>
       (st_grid s))
    (st_log s ++ fill_in_event (st_grid s !! (ii, jj)) Issuer ii jj)).
Proof.
  intros Hr Hc.
  unfold if_absent, alloc, call_bmod, mbind, M_bind, emit, arg, write.
  destruct (decide (present (st_grid s) ii jj)) as [[x Hx]|Hp]; simpl.
  - rewrite Hr. simpl. rewrite Hc. simpl. rewrite Hx. simpl. by rewrite app_nil_r.
  - assert ((ii, jj) ≠ (ii, kk)) as Hne1.
    { intros [= ->]. apply Hp. by exists r. }
    assert ((ii, jj) ≠ (kk, jj)) as Hne2.
    { intros [= ->]. apply Hp. by exists c. }
    apply eq_None_not_Some in Hp.
    rewrite lookup_insert_ne, Hr by done. simpl.
    rewrite lookup_insert_ne, Hc by done. simpl.
    rewrite lookup_insert_eq. simpl.
    by rewrite insert_insert_eq, Hp.
Qed.
End loops.

Section panel_loops.
Context {F : Type} `{!Scalar F}.
Implicit Types (s : state F) (g : grid F).

Lemma fwd_loop_grid n b kk s d :
  st_grid s !! (kk, kk) = Some d →
  ∃ s', loop (kk + 1) n (λ jj,
          if_present kk jj (submit (Fwd kk jj) (call_fwd kk jj b))) s = Some ((), s') ∧
    (∀ i j, st_grid s' !! (i, j) =
       if decide (i = kk ∧ kk < j < n)
       then (λ c, fwd d c b) <$> st_grid s !! (kk, j)
       else st_grid s !! (i, j)) ∧
    st_log s' = st_log s ++
      over_range n kk (λ jj, when_present (st_grid s) kk jj [Submit (Fwd kk jj)]).
Proof.
  intros Hd. destruct (decide (kk + 1 ≤ n)) as [Hle|Hgt].
  2:{ exists s. rewrite loop_nil, over_range_nil, app_nil_r by lia.
      split_and!; [done| |done]. intros i j. by rewrite decide_False by lia. }
  apply (loop_ind (λ J s',
    (∀ i j, st_grid s' !! (i, j) =
       if decide (i = kk ∧ kk < j < J)
       then (λ c, fwd d c b) <$> st_grid s !! (kk, j)
       else st_grid s !! (i, j)) ∧
    st_log s' = st_log s ++
      over_range J kk (λ jj, when_present (st_grid s) kk jj [Submit (Fwd kk jj)]))
    (kk + 1) n _ s); [done| |].
  { rewrite over_range_nil, app_nil_r by lia. split; [|done].
    intros i j. by rewrite decide_False by lia. }
  intros jj s1 Hjj [Hinv Hlog]. rewrite over_range_S by lia.
  assert (st_grid s1 !! (kk, kk) = Some d) as Hd1.
  { rewrite Hinv. by rewrite decide_False by lia. }
  assert (st_grid s1 !! (kk, jj) = st_grid s !! (kk, jj)) as Hc1.
  { rewrite Hinv. by rewrite decide_False by lia. }
  destruct (st_grid s !! (kk, jj)) as [c|] eqn:Hc.
  - eexists. split.
    { rewrite (if_present_yes _ _ _ _ c) by done. by apply submit_call_fwd. }
    simpl. rewrite (when_present_Some _ _ _ c) by done.
    split; [|by rewrite Hlog, <- app_assoc].
    intros i j.
    destruct (decide ((i, j) = (kk, jj))) as [[= -> ->]|Hne].
    + rewrite lookup_insert_eq, decide_True by lia. by rewrite Hc.
    + rewrite lookup_insert_ne by done. rewrite Hinv.
      destruct (decide (i = kk ∧ kk < j < jj)) as [Hin|Hout].
      * by rewrite decide_True by lia.
      * rewrite decide_False; [done|]. intros [-> Hj]. apply Hout.
        split; [done|]. assert (j ≠ jj) by congruence. lia.
  - exists s1. split; [by apply if_present_no|].
    rewrite when_present_None, app_nil_r by done. split; [|done].
    intros i j. rewrite Hinv.
    destruct (decide (i = kk ∧ kk < j < jj)) as [Hin|Hout].
    + by rewrite decide_True by lia.
    + destruct (decide (i = kk ∧ kk < j < S jj)) as [[-> Hj]|Hout']; [|done].
      assert (j = jj) as -> by lia. by rewrite Hc.
Qed.

Lemma bdiv_loop_grid n b kk s d :
  st_grid s !! (kk, kk) = Some d →
  ∃ s', loop (kk + 1) n (λ ii,
          if_present ii kk (submit (Bdiv kk ii) (call_bdiv kk ii b))) s = Some ((), s') ∧
    (∀ i j, st_grid s' !! (i, j) =
       if decide (kk < i < n ∧ j = kk)
       then (λ r, bdiv d r b) <$> st_grid s !! (i, kk)
       else st_grid s !! (i, j)) ∧
    st_log s' = st_log s ++
      over_range n kk (λ ii, when_present (st_grid s) ii kk [Submit (Bdiv kk ii)]).
Proof.
  intros Hd. destruct (decide (kk + 1 ≤ n)) as [Hle|Hgt].
  2:{ exists s. rewrite loop_nil, over_range_nil, app_nil_r by lia.
      split_and!; [done| |done]. intros i j. by rewrite decide_False by lia. }
  apply (loop_ind (λ I s',
    (∀ i j, st_grid s' !! (i, j) =
       if decide (kk < i < I ∧ j = kk)
       then (λ r, bdiv d r b) <$> st_grid s !! (i, kk)
       else st_grid s !! (i, j)) ∧
    st_log s' = st_log s ++
      over_range I kk (λ ii, when_present (st_grid s) ii kk [Submit (Bdiv kk ii)]))
    (kk + 1) n _ s); [done| |].
  { rewrite over_range_nil, app_nil_r by lia. split; [|done].
    intros i j. by rewrite decide_False by lia. }
  intros ii s1 Hii [Hinv Hlog]. rewrite over_range_S by lia.
  assert (st_grid s1 !! (kk, kk) = Some d) as Hd1.
  { rewrite Hinv. by rewrite decide_False by lia. }
  assert (st_grid s1 !! (ii, kk) = st_grid s !! (ii, kk)) as Hc1.
  { rewrite Hinv. by rewrite decide_False by lia. }
  destruct (st_grid s !! (ii, kk)) as [r|] eqn:Hr0.
  - eexists. split.
    { rewrite (if_present_yes _ _ _ _ r) by done. by apply submit_call_bdiv. }
    simpl. rewrite (when_present_Some _ _ _ r) by done.
    split; [|by rewrite Hlog, <- app_assoc].
    intros i j.
    destruct (decide ((i, j) = (ii, kk))) as [[= -> ->]|Hne].
    + rewrite lookup_insert_eq, decide_True by lia. by rewrite Hr0.
    + rewrite lookup_insert_ne by done. rewrite Hinv.
      destruct (decide (kk < i < ii ∧ j = kk)) as [Hin|Hout].
      * by rewrite decide_True by lia.
      * rewrite decide_False; [done|]. intros [Hi ->]. apply Hout.
        split; [|done]. assert (i ≠ ii) by congruence. lia.
  - exists s1. split; [by apply if_present_no|].
    rewrite when_present_None, app_nil_r by done. split; [|done].
    intros i j. rewrite Hinv.
    destruct (decide (kk < i < ii ∧ j = kk)) as [Hin|Hout].
    + by rewrite decide_True by lia.
    + destruct (decide (kk < i < S ii ∧ j = kk)) as [[Hi ->]|Hout']; [|done].
      assert (i = ii) as -> by lia. by rewrite Hr0.
Qed.
End panel_loops.

Section bmod_loops.
Context {F : Type} `{!Scalar F}.
Implicit Types (s : state F) (g : grid F).

(** The [bmod] loops of step [kk], for a loop body that allocates the
    target if the slot is empty and calls [bmod], leaving the events
    [events ii jj o] when the slot held [o]. *)
Variables (b kk : nat) (body : nat → nat → M F unit).
Variable events : nat → nat → option (tile F) → list event.
Hypothesis body_run : ∀ ii jj s r c,
  st_grid s !! (ii, kk) = Some r → st_grid s !! (kk, jj) = Some c →
  body ii jj s =
    Some ((), State
      (<[(ii, jj) := bmod r c (default (clean_block b) (st_grid s !! (ii, jj))) b]>
         (st_grid s))
      (st_log s ++ events ii jj (st_grid s !! (ii, jj)))).

Lemma bmod_row_grid n ii s r :
  kk < ii → st_grid s !! (ii, kk) = Some r →
  ∃ s', loop (kk + 1) n (λ jj, if_present kk jj (body ii jj)) s = Some ((), s') ∧
    (∀ i j, st_grid s' !! (i, j) =
       if decide (i = ii ∧ kk < j < n)
       then match st_grid s !! (kk, j) with
            | Some c => Some (bmod r c (default (clean_block b) (st_grid s !! (ii, j))) b)
            | None => st_grid s !! (ii, j)
            end
       else st_grid s !! (i, j)) ∧
    st_log s' = st_log s ++
      over_range n kk (λ jj, when_present (st_grid s) kk jj
                                (events ii jj (st_grid s !! (ii, jj)))).
Proof.
  intros Hii Hr. destruct (decide (kk + 1 ≤ n)) as [Hle|Hgt].
  2:{ exists s. rewrite loop_nil, over_range_nil, app_nil_r by lia.
      split_and!; [done| |done]. intros i j. by rewrite decide_False by lia. }
  apply (loop_ind (λ J s',
    (∀ i j, st_grid s' !! (i, j) =
       if decide (i = ii ∧ kk < j < J)
       then match st_grid s !! (kk, j) with
            | Some c => Some (bmod r c (default (clean_block b) (st_grid s !! (ii, j))) b)
            | None => st_grid s !! (ii, j)
            end
       else st_grid s !! (i, j)) ∧
    st_log s' = st_log s ++
      over_range J kk (λ jj, when_present (st_grid s) kk jj
                                (events ii jj (st_grid s !! (ii, jj)))))
    (kk + 1) n _ s); [done| |].
  { rewrite over_range_nil, app_nil_r by lia. split; [|done].
    intros i j. by rewrite decide_False by lia. }
  intros jj s1 Hjj [Hinv Hlog]. rewrite over_range_S by lia.
  assert (st_grid s1 !! (ii, kk) = Some r) as Hr1.
  { rewrite Hinv. by rewrite decide_False by lia. }
  assert (st_grid s1 !! (kk, jj) = st_grid s !! (kk, jj)) as Hc1.
  { rewrite Hinv. by rewrite decide_False by lia. }
  assert (st_grid s1 !! (ii, jj) = st_grid s !! (ii, jj)) as Hx1.
  { rewrite Hinv. by rewrite decide_False by lia. }
  destruct (st_grid s !! (kk, jj)) as [c|] eqn:Hc.
  - eexists. split.
    { rewrite (if_present_yes _ _ _ _ c) by done. by apply body_run. }
    simpl. rewrite (when_present_Some _ _ _ c) by done.
    split; [|by rewrite Hlog, Hx1, <- app_assoc].
    intros i j.
    destruct (decide ((i, j) = (ii, jj))) as [[= -> ->]|Hne].
    + rewrite lookup_insert_eq, decide_True by lia. by rewrite Hc, Hx1.
    + rewrite lookup_insert_ne by done. rewrite Hinv.
      destruct (decide (i = ii ∧ kk < j < jj)) as [Hin|Hout].
      * by rewrite decide_True by lia.
      * rewrite decide_False; [done|]. intros [-> Hj]. apply Hout.
        split; [done|]. assert (j ≠ jj) by congruence. lia.
  - exists s1. split; [by apply if_present_no|].
    rewrite when_present_None, app_nil_r by done. split; [|done].
    intros i j. rewrite Hinv.
    destruct (decide (i = ii ∧ kk < j < jj)) as [Hin|Hout].
    + by rewrite decide_True by lia.
    + destruct (decide (i = ii ∧ kk < j < S jj)) as [[-> Hj]|Hout']; [|done].
      assert (j = jj) as -> by lia. by rewrite Hc.
Qed.

Lemma bmod_loops_grid n s :
  ∃ s', loop (kk + 1) n (λ ii,
          if_present ii kk
            (loop (kk + 1) n (λ jj, if_present kk jj (body ii jj)))) s = Some ((), s') ∧
    (∀ i j, st_grid s' !! (i, j) =
       if decide (kk < i < n ∧ kk < j < n)
       then match st_grid s !! (i, kk), st_grid s !! (kk, j) with
            | Some r, Some c =>
                Some (bmod r c (default (clean_block b) (st_grid s !! (i, j))) b)
            | _, _ => st_grid s !! (i, j)
            end
       else st_grid s !! (i, j)) ∧
    st_log s' = st_log s ++
      update_log (st_grid s) n kk (λ ii jj, events ii jj (st_grid s !! (ii, jj))).
Proof.
  unfold update_log. destruct (decide (kk + 1 ≤ n)) as [Hle|Hgt].
  2:{ exists s. rewrite loop_nil, over_range_nil, app_nil_r by lia.
      split_and!; [done| |done]. intros i j. by rewrite decide_False by lia. }
  apply (loop_ind (λ I s',
    (∀ i j, st_grid s' !! (i, j) =
       if decide (kk < i < I ∧ kk < j < n)
       then match st_grid s !! (i, kk), st_grid s !! (kk, j) with
            | Some r, Some c =>
                Some (bmod r c (default (clean_block b) (st_grid s !! (i, j))) b)
            | _, _ => st_grid s !! (i, j)
            end
       else st_grid s !! (i, j)) ∧
    st_log s' = st_log s ++
      over_range I kk (λ ii, when_present (st_grid s) ii kk
        (over_range n kk (λ jj, when_present (st_grid s) kk jj
                                   (events ii jj (st_grid s !! (ii, jj)))))))
    (kk + 1) n _ s); [done| |].
  { rewrite over_range_nil, app_nil_r by lia. split; [|done].
    intros i j. by rewrite decide_False by lia. }
  intros ii s1 Hii [Hinv Hlog]. rewrite over_range_S by lia.
  assert (∀ i j, ¬ (kk < i < ii ∧ kk < j < n) →
            st_grid s1 !! (i, j) = st_grid s !! (i, j)) as Hsame.
  { intros i j Hij. rewrite Hinv. by rewrite decide_False. }
  destruct (st_grid s !! (ii, kk)) as [r|] eqn:Hr.
  - destruct (bmod_row_grid n ii s1 r) as (s2 & Hrun & Hrow & Hlog2); [lia| |].
    { rewrite Hsame by lia. done. }
    exists s2. split.
    { rewrite (if_present_yes _ _ _ _ r); [done|]. rewrite Hsame by lia. done. }
    rewrite (when_present_Some _ _ _ r) by done. split.
    + intros i j. rewrite Hrow.
      destruct (decide (i = ii ∧ kk < j < n)) as [[-> Hj]|Hout].
      * rewrite decide_True by lia. rewrite Hr.
        rewrite !Hsame by lia. done.
      * rewrite Hinv.
        destruct (decide (kk < i < ii ∧ kk < j < n)) as [Hin|Hout2].
        -- by rewrite decide_True by lia.
        -- rewrite decide_False; [done|]. intros [Hi Hj]. apply Hout.
           split; [|done]. lia.
    + rewrite Hlog2, Hlog, <- app_assoc. do 2 f_equal.
      apply over_range_ext. intros jj Hjj.
      rewrite (Hsame ii jj) by lia.
      apply when_present_ext. by rewrite Hsame by lia.
  - exists s1. split.
    { apply if_present_no. rewrite Hsame by lia. done. }
    rewrite when_present_None, app_nil_r by done. split; [|done].
    intros i j. rewrite Hinv.
    destruct (decide (kk < i < ii ∧ kk < j < n)) as [Hin|Hout].
    + by rewrite decide_True by lia.
    + destruct (decide (kk < i < S ii ∧ kk < j < n)) as [[Hi Hj]|Hout']; [|done].
      assert (i = ii) as -> by lia. by rewrite Hr.
Qed.
End bmod_loops.

Section step_runs.
Context {F : Type} `{!Scalar F}.
Implicit Types (s : state F) (g : grid F).

(** What the loops of a step leave, in terms of the matrix [g] the step
    started from: [g1] is [g] with the diagonal tile factored, [g2] is
    [g1] after the [fwd] loop, [g3] is [g2] after the [bdiv] loop. *)
Lemma step_composition (g g1 g2 g3 g4 : grid F) n b kk d :
  g !! (kk, kk) = Some d →
  g1 = <[(kk, kk) := lu0 d b]> g →
  (∀ i j, g2 !! (i, j) =
     if decide (i = kk ∧ kk < j < n)
     then (λ c, fwd (lu0 d b) c b) <$> g1 !! (kk, j) else g1 !! (i, j)) →
  (∀ i j, g3 !! (i, j) =
     if decide (kk < i < n ∧ j = kk)
     then (λ r, bdiv (lu0 d b) r b) <$> g2 !! (i, kk) else g2 !! (i, j)) →
  (∀ i j, g4 !! (i, j) =
     if decide (kk < i < n ∧ kk < j < n)
     then match g3 !! (i, kk), g3 !! (kk, j) with
          | Some r, Some c => Some (bmod r c (default (clean_block b) (g3 !! (i, j))) b)
          | _, _ => g3 !! (i, j)
          end
     else g3 !! (i, j)) →
  (∀ i j, g4 !! (i, j) = step_slot g n b kk d i j) ∧
  (∀ i j, (i, j) ≠ (kk, kk) → i = kk ∨ j = kk ∨ (kk < i ∧ kk < j) →
     g1 !! (i, j) = g !! (i, j) ∧
     (is_Some (g2 !! (i, j)) ↔ is_Some (g !! (i, j))) ∧
     (is_Some (g3 !! (i, j)) ↔ is_Some (g !! (i, j))) ∧
     (kk < i → kk < j → g3 !! (i, j) = g !! (i, j))).
Proof.
  intros Hd -> G2 G3 G4.
  assert (∀ i j, (i, j) ≠ (kk, kk) →
            <[(kk, kk) := lu0 d b]> g !! (i, j) = g !! (i, j)) as G1.
  { intros i' j' Hne. by rewrite lookup_insert_ne. }
  split.
  - intros i j. rewrite G4. unfold step_slot.
    destruct (decide (i = kk ∧ j = kk)) as [[-> ->]|Hnd].
    { rewrite decide_False by lia. rewrite G3. rewrite decide_False by lia.
      rewrite G2. rewrite decide_False by lia. apply lookup_insert_eq. }
    destruct (decide (i = kk ∧ kk < j < n)) as [[-> Hj]|Hnr].
    { rewrite decide_False by lia. rewrite G3. rewrite decide_False by lia.
      rewrite G2. rewrite decide_True by lia. rewrite G1; [done|]. intros [=]. lia. }
    destruct (decide (kk < i < n ∧ j = kk)) as [[Hi ->]|Hnc].
    { rewrite decide_False by lia. rewrite G3. rewrite decide_True by lia.
      rewrite G2. rewrite decide_False by lia. rewrite G1; [done|]. intros [=]. lia. }
    destruct (decide (kk < i < n ∧ kk < j < n)) as [[Hi Hj]|Hni].
    + rewrite !G3. rewrite decide_True by lia.
      rewrite decide_False by lia. rewrite decide_False by lia.
      rewrite !G2. rewrite decide_False by lia. rewrite decide_True by lia.
      rewrite decide_False by lia.
      rewrite !G1 by (intros [=]; lia).
      destruct (g !! (i, kk)), (g !! (kk, j)); done.
    + rewrite G3. rewrite decide_False by tauto.
      rewrite G2. rewrite decide_False by tauto.
      apply G1. intros [= -> ->]. tauto.
  - intros i j Hne Hij.
    assert (is_Some (g2 !! (i, j)) ↔ is_Some (g !! (i, j))) as Hg2.
    { rewrite G2. destruct (decide (i = kk ∧ kk < j < n)) as [[-> Hj]|Hout].
      - by rewrite fmap_is_Some, G1.
      - by rewrite G1. }
    split_and!; [by apply G1|done| |].
    + rewrite G3. destruct (decide (kk < i < n ∧ j = kk)) as [[Hi ->]|Hout]; [|done].
      rewrite fmap_is_Some, G2. rewrite decide_False by lia. by rewrite G1.
    + intros Hi Hj. rewrite G3. rewrite decide_False by lia. rewrite G2.
      rewrite decide_False by lia. by rewrite G1.
Qed.

Lemma panel_log_ext (g g1 g2 : grid F) n kk :
  (∀ j, kk < j → is_Some (g1 !! (kk, j)) ↔ is_Some (g !! (kk, j))) →
  (∀ i, kk < i → is_Some (g2 !! (i, kk)) ↔ is_Some (g !! (i, kk))) →
  over_range n kk (λ jj, when_present g1 kk jj [Submit (Fwd kk jj)]) ++
  over_range n kk (λ ii, when_present g2 ii kk [Submit (Bdiv kk ii)]) =
  panel_log g n kk.
Proof.
  intros H1 H2. unfold panel_log. f_equal.
  - apply over_range_ext. intros jj Hjj. apply when_present_ext, H1. lia.
  - apply over_range_ext. intros ii Hii. apply when_present_ext, H2. lia.
Qed.

Lemma update_log_ext (g g3 : grid F) n kk (ev : nat → nat → option (tile F) → list event) :
  (∀ i j, (i, j) ≠ (kk, kk) → i = kk ∨ j = kk →
     is_Some (g3 !! (i, j)) ↔ is_Some (g !! (i, j))) →
  (∀ i j, kk < i → kk < j → g3 !! (i, j) = g !! (i, j)) →
  update_log g3 n kk (λ ii jj, ev ii jj (g3 !! (ii, jj))) =
  update_log g n kk (λ ii jj, ev ii jj (g !! (ii, jj))).
Proof.
  intros Hpanel Hin. unfold update_log.
  apply over_range_ext. intros ii Hii.
  rewrite (when_present_ext g3 g) by (apply Hpanel; [intros [=]; lia|auto]).
  f_equal. apply over_range_ext. intros jj Hjj.
  rewrite (when_present_ext g3 g) by (apply Hpanel; [intros [=]; lia|auto]).
  by rewrite Hin by lia.
Qed.

(** One step of the task-dependency version. *)
Lemma taskdep_step_grid n b kk s d :
  st_grid s !! (kk, kk) = Some d →
  ∃ s', TaskDep.step n b kk s = Some ((), s') ∧
    (∀ i j, st_grid s' !! (i, j) = step_slot (st_grid s) n b kk d i j) ∧
    st_log s' = st_log s ++ taskdep_step_log (st_grid s) n kk.
Proof.
  intros Hd. unfold TaskDep.step.
  pose proof (submit_call_lu0 kk b s d Hd) as H1.
  set (s1 := State (<[(kk, kk) := lu0 d b]> (st_grid s))
                   (st_log s ++ [Submit (Lu0 kk)])) in *.
  destruct (fwd_loop_grid n b kk s1 (lu0 d b)) as (s2 & H2 & G2 & L2).
  { apply lookup_insert_eq. }
  destruct (bdiv_loop_grid n b kk s2 (lu0 d b)) as (s3 & H3 & G3 & L3).
  { rewrite G2. rewrite decide_False by lia. apply lookup_insert_eq. }
  destruct (bmod_loops_grid b kk
    (λ ii jj, if_absent ii jj (alloc Issuer ii jj b) ;;
              submit (Bmod kk ii jj) (call_bmod kk ii jj b))
    (λ ii jj o, fill_in_event o Issuer ii jj ++ [Submit (Bmod kk ii jj)])
    (λ ii jj, taskdep_bmod_body kk ii jj b) n s3) as (s4 & H4 & G4 & L4).
  destruct (step_composition (st_grid s) (st_grid s1) (st_grid s2) (st_grid s3)
              (st_grid s4) n b kk d Hd eq_refl G2 G3 G4) as [Hslot Hsame].
  exists s4. split_and!; [|done|].
  { unfold mbind, M_bind. rewrite H1, H2, H3. exact H4. }
  rewrite L4, L3, L2. unfold taskdep_step_log. simpl.
  rewrite <- !app_assoc. simpl. do 2 f_equal.
  rewrite (update_log_ext (st_grid s) (st_grid s3) n kk
    (λ ii jj o, fill_in_event o Issuer ii jj ++ [Submit (Bmod kk ii jj)])).
  - rewrite app_assoc. f_equal. apply panel_log_ext.
    + intros j Hj. destruct (Hsame kk j) as (Heq & _); [intros [=]; lia|auto|].
      simpl in Heq |- *. by rewrite Heq.
    + intros i Hi. apply Hsame; [intros [=]; lia|auto].
  - intros i j Hne Hij. apply Hsame; [done|tauto].
  - intros i j Hi Hj. apply Hsame; [intros [=]; lia|auto|done..].
Qed.

(** One step of the plain task version. *)
Lemma task_step_grid n b kk s d :
  st_grid s !! (kk, kk) = Some d →
  ∃ s', Task.par_step n b kk s = Some ((), s') ∧
    (∀ i j, st_grid s' !! (i, j) = step_slot (st_grid s) n b kk d i j) ∧
    st_log s' = st_log s ++ task_step_log (st_grid s) n kk.
Proof.
  intros Hd. unfold Task.par_step.
  pose proof (run_call_lu0 kk b s d Hd) as H1.
  set (s1 := State (<[(kk, kk) := lu0 d b]> (st_grid s)) (st_log s)) in *.
  destruct (fwd_loop_grid n b kk s1 (lu0 d b)) as (s2 & H2 & G2 & L2).
  { apply lookup_insert_eq. }
  destruct (bdiv_loop_grid n b kk s2 (lu0 d b)) as (s3 & H3 & G3 & L3).
  { rewrite G2. rewrite decide_False by lia. apply lookup_insert_eq. }
  destruct (bmod_loops_grid b kk
    (λ ii jj, submit (Bmod kk ii jj)
                (if_absent ii jj (alloc InTask ii jj b) ;; call_bmod kk ii jj b))
    (λ ii jj o, Submit (Bmod kk ii jj) :: fill_in_event o InTask ii jj)
    (λ ii jj, task_bmod_body kk ii jj b) n
    (State (st_grid s3) (st_log s3 ++ [Taskwait]))) as (s4 & H4 & G4 & L4).
  destruct (step_composition (st_grid s) (st_grid s1) (st_grid s2) (st_grid s3)
              (st_grid s4) n b kk d Hd eq_refl G2 G3 G4) as [Hslot Hsame].
  eexists. split_and!.
  { unfold mbind, M_bind in H4 |- *. rewrite H1, H2, H3.
    change (emit Taskwait s3) with
      (Some ((), State (st_grid s3) (st_log s3 ++ [Taskwait]))).
    cbv beta iota. rewrite H4. reflexivity. }
  { done. }
  simpl. rewrite L4. simpl. rewrite L3, L2. unfold task_step_log. simpl.
  rewrite <- !app_assoc. simpl. f_equal.
  rewrite (update_log_ext (st_grid s) (st_grid s3) n kk
    (λ ii jj o, Submit (Bmod kk ii jj) :: fill_in_event o InTask ii jj)).
  - rewrite !app_assoc. do 3 f_equal. apply panel_log_ext.
    + intros j Hj. destruct (Hsame kk j) as (Heq & _); [intros [=]; lia|auto|].
      simpl in Heq |- *. by rewrite Heq.
    + intros i Hi. apply Hsame; [intros [=]; lia|auto].
  - intros i j Hne Hij. apply Hsame; [done|tauto].
  - intros i j Hi Hj. apply Hsame; [intros [=]; lia|auto|done..].
Qed.
End step_runs.

Section seq_step_grid.
Context {F : Type} `{!Scalar F}.
Implicit Types (s : state F) (g : grid F).

(** A step of the sequential reference on a matrix whose diagonal tile is
    missing: [lu0], [fwd] and [bdiv] are skipped, [bmod] is applied to the
    tiles of row and column [kk] as they are. *)
Lemma seq_step_grid_absent n b kk s :
  st_grid s !! (kk, kk) = None →
  ∃ s', Task.seq_step n b kk s = Some ((), s') ∧
    ∀ i j, st_grid s' !! (i, j) =
      if decide (kk < i < n ∧ kk < j < n)
      then match st_grid s !! (i, kk), st_grid s !! (kk, j) with
           | Some r, Some c =>
               Some (bmod r c (default (clean_block b) (st_grid s !! (i, j))) b)
           | _, _ => st_grid s !! (i, j)
           end
      else st_grid s !! (i, j).
Proof.
  intros Hd. unfold Task.seq_step.
  assert (∀ m : M F unit, if_present kk kk m s = Some ((), s)) as Hskip.
  { intros m. by apply if_present_no. }
  assert (∀ f : nat → M F unit,
            (∀ x, ∃ i j m, f x = if_present i j (if_present kk kk m)) →
            ∀ l, for_each l f s = Some ((), s)) as Hloop.
  { intros f Hf l. induction l as [|x l IH]; [done|]. simpl.
    unfold mbind, M_bind.
    destruct (Hf x) as (i & j & m & ->).
    unfold if_present at 1. destruct (decide (present (st_grid s) i j)).
    - by rewrite Hskip.
    - done. }
  destruct (bmod_loops_grid b kk
    (λ ii jj, if_absent ii jj (alloc Issuer ii jj b) ;; call_bmod kk ii jj b)
    (λ ii jj o, fill_in_event o Issuer ii jj)
    (λ ii jj, seq_bmod_body kk ii jj b) n s) as (s4 & H4 & G4 & _).
  exists s4. split; [|done].
  unfold mbind, M_bind. rewrite Hskip. unfold loop at 1 2.
  rewrite Hloop by (intros jj; by eexists _, _, _).
  rewrite Hloop by (intros jj; by eexists _, _, _).
  exact H4.
Qed.
End seq_step_grid.

Lemma elem_of_fill_step (n : nat) (D : gset (nat * nat)) (kk i j : nat) :
  (i, j) ∈ fill_step n D kk ↔
  (i, j) ∈ D ∨ (kk < i < n ∧ kk < j < n ∧ (i, kk) ∈ D ∧ (kk, j) ∈ D).
Proof.
  unfold fill_step. rewrite elem_of_union, elem_of_list_to_set, list_elem_of_bind.
  apply or_iff_compat_l. split.
  - intros (y & (j0 & Hin & Hj0%elem_of_seq)%list_elem_of_bind & Hy%elem_of_seq).
    case_decide as Hc; [|by apply elem_of_nil in Hin].
    apply list_elem_of_singleton in Hin as [= -> ->]. split_and!; (lia || tauto).
  - intros (Hi & Hj & Hr & Hc). exists i. split; [|apply elem_of_seq; lia].
    apply list_elem_of_bind. exists j. split; [|apply elem_of_seq; lia].
    rewrite decide_True by done. by left.
Qed.

Lemma for_range_preserves {St : Type} (P : St → Prop) lo hi
    (body : nat → St → St) (s : St) :
  P s → (∀ i s, P s → P (body i s)) → P (for_range lo hi body s).
Proof.
  intros Hs Hbody. unfold for_range. revert s Hs.
  induction (seq lo (hi - lo)) as [|i l IH]; intros s Hs; simpl; [done|].
  apply IH, Hbody, Hs.
Qed.

Section kernel_shapes.
Context {F : Type} `{!Scalar F}.

Lemma lu0_square (diag : tile F) b m : square m diag → square m (lu0 diag b).
Proof.
  intros Hsq. unfold lu0.
  repeat (apply for_range_preserves; [by repeat apply tset_square|]; intros; cbv zeta).
  by repeat apply tset_square.
Qed.

Lemma fwd_square (diag col : tile F) b m : square m col → square m (fwd diag col b).
Proof.
  intros Hsq. unfold fwd.
  repeat (apply for_range_preserves; [by repeat apply tset_square|]; intros; cbv zeta).
  by repeat apply tset_square.
Qed.

Lemma bdiv_square (diag row : tile F) b m : square m row → square m (bdiv diag row b).
Proof.
  intros Hsq. unfold bdiv.
  repeat (apply for_range_preserves; [by repeat apply tset_square|]; intros; cbv zeta).
  by repeat apply tset_square.
Qed.

Lemma bmod_square (row col inner : tile F) b m :
  square m inner → square m (bmod row col inner b).
Proof.
  intros Hsq. unfold bmod.
  repeat (apply for_range_preserves; [by repeat apply tset_square|]; intros; cbv zeta).
  by repeat apply tset_square.
Qed.
End kernel_shapes.

Section steps.
Context {F : Type} `{!Scalar F}.
Implicit Types (s : state F) (g : grid F).

Lemma task_step_faults n b kk s :
  st_grid s !! (kk, kk) = None → Task.par_step n b kk s = None.
Proof.
  intros Hd. unfold Task.par_step, call_lu0, mbind, M_bind, arg. by rewrite Hd.
Qed.

(** With the diagonal tile of the step present, the three drivers make
    the same step. *)
Lemma drivers_step_grid n b kk s1 s2 s3 d :
  st_grid s1 !! (kk, kk) = Some d →
  st_grid s2 = st_grid s1 → st_grid s3 = st_grid s1 →
  ∃ s1' s2' s3',
    TaskDep.step n b kk s1 = Some ((), s1') ∧
    Task.par_step n b kk s2 = Some ((), s2') ∧
    Task.seq_step n b kk s3 = Some ((), s3') ∧
    st_grid s2' = st_grid s1' ∧ st_grid s3' = st_grid s1' ∧
    ∀ i j, st_grid s1' !! (i, j) = step_slot (st_grid s1) n b kk d i j.
Proof.
  intros Hd H2 H3.
  destruct (taskdep_step_grid n b kk s1 d Hd) as (s1' & Hr1 & Hg & _).
  destruct (task_step_grid n b kk s2 d) as (s2' & Hr2 & Hg2 & _);
    [by rewrite H2|].
  destruct (sim_taskdep_step (λ c, c = (kk, kk)) n b kk eq_refl s1 s3)
    as (t1 & s3' & Hr1' & Hr3 & Heq3 & _); [|done|].
  { intros c ->. apply elem_of_dom. by eexists. }
  exists s1', s2', s3'. split_and!; [done..| | |done].
  - apply map_eq. intros [i j]. by rewrite Hg2, Hg, H2.
  - assert (t1 = s1') as -> by congruence. done.
Qed.

Lemma step_slot_dom g n b kk d i j :
  g !! (kk, kk) = Some d →
  is_Some (step_slot g n b kk d i j) ↔ (i, j) ∈ fill_step n (dom g) kk.
Proof.
  intros Hd. unfold step_slot. rewrite elem_of_fill_step, !elem_of_dom.
  destruct (decide (i = kk ∧ j = kk)) as [[-> ->]|Hnd].
  { split; [|by eexists]. intros _. left. by eexists. }
  destruct (decide (i = kk ∧ kk < j < n)) as [[-> Hj]|Hnr].
  { rewrite fmap_is_Some. split; [by left|]. intros [?|?]; [done|lia]. }
  destruct (decide (kk < i < n ∧ j = kk)) as [[Hi ->]|Hnc].
  { rewrite fmap_is_Some. split; [by left|]. intros [?|?]; [done|lia]. }
  destruct (decide (kk < i < n ∧ kk < j < n)) as [[Hi Hj]|Hni].
  - destruct (g !! (i, kk)) as [r|] eqn:Hr; simpl.
    + destruct (g !! (kk, j)) as [c|] eqn:Hc; simpl.
      * split; [|by eexists]. intros _. right. split_and!; first [lia|by eexists].
      * split; [by left|]. intros [?|(_ & _ & _ & [? ?])]; done.
    + split; [by left|]. intros [?|(_ & _ & [? ?] & _)]; done.
  - split; [by left|]. intros [?|?]; [done|]. exfalso. apply Hni. tauto.
Qed.

Lemma bmod_pattern_dom g n b kk i j :
  is_Some (if decide (kk < i < n ∧ kk < j < n)
           then match g !! (i, kk), g !! (kk, j) with
                | Some r, Some c =>
                    Some (bmod r c (default (clean_block b) (g !! (i, j))) b)
                | _, _ => g !! (i, j)
                end
           else g !! (i, j)) ↔ (i, j) ∈ fill_step n (dom g) kk.
Proof.
  rewrite elem_of_fill_step, !elem_of_dom.
  destruct (decide (kk < i < n ∧ kk < j < n)) as [[Hi Hj]|Hni].
  - destruct (g !! (i, kk)) as [r|] eqn:Hr; simpl.
    + destruct (g !! (kk, j)) as [c|] eqn:Hc; simpl.
      * split; [|by eexists]. intros _. right. split_and!; first [lia|by eexists].
      * split; [by left|]. intros [?|(_ & _ & _ & [? ?])]; done.
    + split; [by left|]. intros [?|(_ & _ & [? ?] & _)]; done.
  - split; [by left|]. intros [?|?]; [done|]. exfalso. apply Hni. tauto.
Qed.

Lemma step_slot_frame g n b kk d i j :
  i < kk ∨ j < kk ∨ n ≤ i ∨ n ≤ j → (i, j) ≠ (kk, kk) →
  step_slot g n b kk d i j = g !! (i, j).
Proof.
  intros Hout Hne. unfold step_slot.
  rewrite decide_False by (intros [-> ->]; done).
  rewrite !decide_False by lia. done.
Qed.

Lemma step_slot_square g n b kk d i j t :
  map_Forall (λ _, square b) g → g !! (kk, kk) = Some d →
  step_slot g n b kk d i j = Some t → square b t.
Proof.
  intros Hall Hd. unfold step_slot.
  assert (square b (lu0 d b)) as Hp by (apply lu0_square; by eapply Hall).
  repeat case_decide.
  - intros [= <-]. done.
  - destruct (g !! (kk, j)) as [c|] eqn:Hc; [|done]. intros [= <-].
    apply fwd_square. by eapply Hall.
  - destruct (g !! (i, kk)) as [r|] eqn:Hr; [|done]. intros [= <-].
    apply bdiv_square. by eapply Hall.
  - destruct (g !! (i, kk)) as [r|] eqn:Hr; simpl; [|by apply Hall].
    destruct (g !! (kk, j)) as [c|] eqn:Hc; simpl; [|by apply Hall].
    intros [= <-]. apply bmod_square.
    destruct (g !! (i, j)) as [x|] eqn:Hx; simpl;
      [by eapply Hall|apply clean_block_square].
  - by apply Hall.
Qed.
End steps.

Section whole_call.
Context {F : Type} `{!Scalar F}.
Implicit Types (s : state F) (g : grid F).

Lemma step_cases n b kk s :
  match st_grid s !! (kk, kk) with
  | Some d =>
      ∃ s1 s2 s3,
        TaskDep.step n b kk s = Some ((), s1) ∧
        Task.par_step n b kk s = Some ((), s2) ∧
        Task.seq_step n b kk s = Some ((), s3) ∧
        st_grid s2 = st_grid s1 ∧ st_grid s3 = st_grid s1 ∧
        ∀ i j, st_grid s1 !! (i, j) = step_slot (st_grid s) n b kk d i j
  | None => TaskDep.step n b kk s = None ∧ Task.par_step n b kk s = None
  end.
Proof.
  destruct (st_grid s !! (kk, kk)) as [d|] eqn:Hd.
  - by apply (drivers_step_grid n b kk s s s d).
  - split; [|by apply task_step_faults].
    apply step_faults. by apply not_elem_of_dom.
Qed.

(** The steps of the two parallel versions, from equal matrices. *)
Lemma par_steps_agree n b l s1 s2 :
  st_grid s1 = st_grid s2 →
  match for_each l (TaskDep.step n b) s1, for_each l (Task.par_step n b) s2 with
  | Some (_, s1'), Some (_, s2') => st_grid s1' = st_grid s2'
  | None, None => True
  | _, _ => False
  end.
Proof.
  revert s1 s2. induction l as [|kk l IH]; intros s1 s2 Heq; simpl; [done|].
  unfold mbind, M_bind.
  destruct (st_grid s1 !! (kk, kk)) as [d|] eqn:Hd.
  - destruct (drivers_step_grid n b kk s1 s2 s2 d)
      as (s1' & s2' & _ & Hr1 & Hr2 & _ & Hg & _); [done..|].
    rewrite Hr1, Hr2. by apply IH.
  - rewrite step_faults by by apply not_elem_of_dom.
    rewrite task_step_faults by by rewrite <- Heq. done.
Qed.

Lemma steps_dom n b l s s' :
  for_each l (TaskDep.step n b) s = Some ((), s') →
  dom (st_grid s') = foldl (fill_step n) (dom (st_grid s)) l.
Proof.
  revert s. induction l as [|kk l IH]; intros s; simpl.
  - by intros [= ->].
  - unfold mbind, M_bind.
    destruct (st_grid s !! (kk, kk)) as [d|] eqn:Hd.
    + destruct (taskdep_step_grid n b kk s d Hd) as (s1 & Hr1 & Hg & _).
      rewrite Hr1. intros Hr. rewrite (IH _ Hr). f_equal.
      apply set_eq. intros [i j]. rewrite elem_of_dom, Hg. by apply step_slot_dom.
    + rewrite step_faults by by apply not_elem_of_dom. done.
Qed.

Lemma seq_step_dom n b kk s :
  ∃ s', Task.seq_step n b kk s = Some ((), s') ∧
        dom (st_grid s') = fill_step n (dom (st_grid s)) kk.
Proof.
  destruct (st_grid s !! (kk, kk)) as [d|] eqn:Hd.
  - destruct (drivers_step_grid n b kk s s s d)
      as (s1 & _ & s3 & _ & _ & Hr & _ & Heq & Hg); [done..|].
    exists s3. split; [done|]. rewrite Heq.
    apply set_eq. intros [i j]. rewrite elem_of_dom, Hg. by apply step_slot_dom.
  - destruct (seq_step_grid_absent n b kk s Hd) as (s' & Hr & Hg).
    exists s'. split; [done|].
    apply set_eq. intros [i j]. rewrite elem_of_dom, Hg. apply bmod_pattern_dom.
Qed.

Lemma seq_steps_dom n b l s :
  ∃ s', for_each l (Task.seq_step n b) s = Some ((), s') ∧
        dom (st_grid s') = foldl (fill_step n) (dom (st_grid s)) l.
Proof.
  revert s. induction l as [|kk l IH]; intros s; simpl.
  - by exists s.
  - destruct (seq_step_dom n b kk s) as (s1 & Hr1 & Hd1).
    destruct (IH s1) as (s' & Hr & Hd'). exists s'.
    unfold mbind, M_bind. rewrite Hr1. split; [done|]. by rewrite Hd', Hd1.
Qed.

Lemma steps_square n b l s s' :
  map_Forall (λ _, square b) (st_grid s) →
  for_each l (TaskDep.step n b) s = Some ((), s') →
  map_Forall (λ _, square b) (st_grid s').
Proof.
  revert s. induction l as [|kk l IH]; intros s Hall; simpl.
  - by intros [= <-].
  - unfold mbind, M_bind.
    destruct (st_grid s !! (kk, kk)) as [d|] eqn:Hd.
    + destruct (taskdep_step_grid n b kk s d Hd) as (s1 & Hr1 & Hg & _).
      rewrite Hr1. apply IH. intros [i j] t. rewrite Hg.
      by apply step_slot_square.
    + rewrite step_faults by by apply not_elem_of_dom. done.
Qed.

Lemma steps_frame n b k l s s' :
  (∀ kk, kk ∈ l → k ≤ kk < n) →
  for_each l (TaskDep.step n b) s = Some ((), s') →
  ∀ i j, i < k ∨ j < k ∨ n ≤ i ∨ n ≤ j → st_grid s' !! (i, j) = st_grid s !! (i, j).
Proof.
  revert s. induction l as [|kk l IH]; intros s Hl; simpl.
  - by intros [= <-].
  - unfold mbind, M_bind.
    destruct (st_grid s !! (kk, kk)) as [d|] eqn:Hd.
    + destruct (taskdep_step_grid n b kk s d Hd) as (s1 & Hr1 & Hg & _).
      rewrite Hr1. intros Hr i j Hij.
      assert (k ≤ kk < n) as Hkk by (apply Hl; left).
      rewrite (IH s1 (λ kk' Hin, Hl kk' (list_elem_of_further _ _ _ Hin)) Hr i j Hij).
      rewrite Hg. apply step_slot_frame; [lia|]. intros [= -> ->]. lia.
    + rewrite step_faults by by apply not_elem_of_dom. done.
Qed.

Lemma steps_run_from n b k s :
  (∀ kk, k ≤ kk < n → (kk, kk) ∈ dom (st_grid s)) →
  is_Some (loop k n (TaskDep.step n b) s).
Proof.
  intros Hdiag.
  destruct (for_each_runs_any by_issuer
    (λ s, ∀ kk, k ≤ kk < n → (kk, kk) ∈ dom (st_grid s))
    (seq k (n - k)) (TaskDep.step n b)) with (s := s) as (evs & s' & Hr & _);
    [| |done|].
  - intros s1 evs s2 Hpre Ht kk Hkk.
    by apply (trans_dom_mono _ _ _ _ Ht), Hpre.
  - intros kk s1 Hkk%elem_of_seq Hpre.
    destruct (step_runs n b kk s1) as (evs & s2 & [Hr Ht] & _).
    { apply Hpre. lia. }
    exists evs, s2. split; [done|].
    eapply trans_weaken; [apply fill_in_by_issuer|done].
  - unfold loop. by rewrite Hr.
Qed.
End whole_call.

(** ** The heap *)

Section heap.
Variable malloc_ok : nat → bool.

Lemma first_failure_app start a b :
  first_failure malloc_ok start (a + b) =
  match first_failure malloc_ok start a with
  | Some k => Some k
  | None => first_failure malloc_ok (start + a) b
  end.
Proof.
  revert start. induction a as [|a IH]; intros start; simpl.
  - by rewrite Nat.add_0_r.
  - destruct (malloc_ok start); [|done]. rewrite IH.
    by replace (S start + a) with (start + S a) by lia.
Qed.

Lemma first_failure_Some start len k :
  first_failure malloc_ok start len = Some k →
  start ≤ k < start + len ∧ malloc_ok k = false ∧
  ∀ m, start ≤ m < k → malloc_ok m = true.
Proof.
  revert start. induction len as [|len IH]; intros start; simpl; [done|].
  destruct (malloc_ok start) eqn:Hok.
  - intros (Hk & Hfalse & Hall)%IH. split_and!; [lia..|done|].
    intros m Hm. destruct (decide (m = start)) as [->|]; [done|]. apply Hall. lia.
  - intros [= <-]. split_and!; [lia..|done|]. intros m Hm. lia.
Qed.

Lemma first_failure_None start len :
  first_failure malloc_ok start len = None ↔
  ∀ m, start ≤ m < start + len → malloc_ok m = true.
Proof.
  revert start. induction len as [|len IH]; intros start; simpl.
  - split; [|done]. intros _ m Hm. lia.
  - destruct (malloc_ok start) eqn:Hok.
    + rewrite IH. split; intros Hall m Hm.
      * destruct (decide (m = start)) as [->|]; [done|]. apply Hall. lia.
      * apply Hall. lia.
    + split; [done|]. intros Hall. rewrite Hall in Hok by lia. done.
Qed.

Lemma checked_ext_msg {A} p N (msg msg' : nat → string) (a : A) :
  (∀ i, i < N → msg i = msg' i) →
  checked malloc_ok p N msg a = checked malloc_ok p N msg' a.
Proof.
  intros Hmsg. unfold checked.
  destruct (first_failure malloc_ok (mallocs p) N) as [k|] eqn:Hk; [|done].
  apply first_failure_Some in Hk as (Hk & _). by rewrite Hmsg by lia.
Qed.

Lemma checked_ret {A} msg (a : A) p : (mret a : P A) p = checked malloc_ok p 0 msg a.
Proof. destruct p as [m e]. unfold checked. simpl. by rewrite Nat.add_0_r. Qed.

Lemma checked_bind {A B} (m : P A) (f : A → P B) N1 N2 msg1 msg2 a b p :
  (∀ p, m p = checked malloc_ok p N1 msg1 a) →
  (∀ p, f a p = checked malloc_ok p N2 msg2 b) →
  (m ≫= f) p =
  checked malloc_ok p (N1 + N2)
    (λ i, if decide (i < N1) then msg1 i else msg2 (i - N1)) b.
Proof.
  intros Hm Hf. rewrite P_bind_run, Hm. unfold checked.
  rewrite first_failure_app.
  destruct (first_failure malloc_ok (mallocs p) N1) as [k|] eqn:Hk.
  - apply first_failure_Some in Hk as (Hk & _). by rewrite decide_True by lia.
  - rewrite Hf. unfold checked. simpl.
    destruct (first_failure malloc_ok (mallocs p + N1) N2) as [k|] eqn:Hk2.
    + apply first_failure_Some in Hk2 as (Hk2 & _).
      rewrite decide_False by lia.
      by replace (k - mallocs p - N1) with (k - (mallocs p + N1)) by lia.
    + by rewrite Nat.add_assoc.
Qed.

Lemma checked_bind_const {A B} (m : P A) (f : A → P B) N1 N2 msg a b p :
  (∀ p, m p = checked malloc_ok p N1 (λ _, msg) a) →
  (∀ p, f a p = checked malloc_ok p N2 (λ _, msg) b) →
  (m ≫= f) p = checked malloc_ok p (N1 + N2) (λ _, msg) b.
Proof.
  intros Hm Hf. rewrite (checked_bind m f N1 N2 (λ _, msg) (λ _, msg) a b) by done.
  apply checked_ext_msg. intros i _. by case_decide.
Qed.

Lemma checked_malloc_then {A} msg (rest : P A) N msg' a p :
  (∀ p', rest p' = checked malloc_ok p' N msg' a) →
  (ok ← malloc malloc_ok;
   when (negb ok) (fprintf_stderr msg ;; exit 101) ;; rest) p =
  checked malloc_ok p (S N)
    (λ i, if decide (i = 0) then msg else msg' (i - 1)) a.
Proof.
  intros Hrest. rewrite checked_malloc_cases. unfold checked at 1. simpl.
  destruct (malloc_ok (mallocs p)) eqn:Hok.
  - rewrite Hrest. unfold checked. simpl.
    destruct (first_failure malloc_ok (S (mallocs p)) N) as [k|] eqn:Hk.
    + apply first_failure_Some in Hk as (Hk & _).
      rewrite decide_False by lia.
      by replace (k - mallocs p - 1) with (k - S (mallocs p)) by lia.
    + by replace (mallocs p + S N) with (S (mallocs p) + N) by lia.
  - by rewrite Nat.sub_diag.
Qed.

Lemma checked_foldP {S} (cnt : nat → nat) (g : nat → S → S) msg l
    (body : nat → S → P S) :
  (∀ i s p, body i s p = checked malloc_ok p (cnt i) (λ _, msg) (g i s)) →
  ∀ s p, foldP l body s p =
         checked malloc_ok p (sum_list_with cnt l) (λ _, msg)
           (foldl (λ s i, g i s) s l).
Proof.
  intros Hbody. induction l as [|i l IH]; intros s p; simpl.
  - apply checked_ret.
  - apply (checked_bind_const _ _ _ _ _ (g i s)); [apply Hbody|apply IH].
Qed.
End heap.

Lemma sum_list_if_filter {A} (P : A → Prop) `{!∀ x, Decision (P x)} (m : nat)
    (l : list A) :
  sum_list_with (λ x, if decide (P x) then m else 0) l = length (filter P l) * m.
Proof.
  induction l as [|x l IH]; [done|]. rewrite filter_cons. simpl.
  rewrite IH. destruct (decide (P x)); simpl; lia.
Qed.

Lemma sum_list_with_ext {A} (f g : A → nat) (l : list A) :
  (∀ x, f x = g x) → sum_list_with f l = sum_list_with g l.
Proof. intros Hfg. induction l as [|x l IH]; simpl; [done|]. by rewrite Hfg, IH. Qed.

Lemma sum_list_with_const {A} (m : nat) (l : list A) :
  sum_list_with (λ _, m) l = length l * m.
Proof. induction l as [|x l IH]; simpl; [done|]. rewrite IH. lia. Qed.

Lemma sum_list_bind {A B} (cnt : B → nat) (f : A → list B) (l : list A) :
  sum_list_with cnt (l ≫= f) = sum_list_with (λ x, sum_list_with cnt (f x)) l.
Proof.
  induction l as [|x l IH]; [done|].
  rewrite bind_cons, sum_list_with_app, IH. done.
Qed.

Section allocation.
Context {F : Type} `{!Scalar F}.
Variable malloc_ok : nat → bool.
Variable junk : F.

(** [allocate_clean_block] makes [b + 1] calls of [malloc]. *)
Lemma allocate_clean_block_checked b p :
  allocate_clean_block malloc_ok junk b p =
  checked malloc_ok p (b + 1) (λ _, msg_block) (clean_block b).
Proof.
  unfold allocate_clean_block, for_rangeP.
  set (row := for_range 0 b (λ j (row : list F), <[j := fzero]> row)
                (replicate b junk)).
  assert (row = replicate b fzero) as Hrow.
  { unfold row, for_range. rewrite Nat.sub_0_r. cbv beta.
    rewrite foldl_insert_all by by rewrite length_replicate.
    rewrite drop_ge, app_nil_r by by rewrite length_replicate. done. }
  pose proof (checked_foldP malloc_ok (λ _, 1)
    (λ i (block : tile F), <[i := row]> block) msg_block (seq 0 (b - 0))
    (λ i block, ok ← malloc malloc_ok;
       when (negb ok) (fprintf_stderr msg_block ;; exit 101) ;;
       mret (<[i := row]> block))) as Hloop.
  rewrite (checked_malloc_then malloc_ok msg_block _ b (λ _, msg_block)
             (clean_block b)).
  - replace (b + 1) with (S b) by lia. apply checked_ext_msg.
    intros i _. by case_decide.
  - intros p'. rewrite Hloop.
    + rewrite Nat.sub_0_r. cbv beta.
      rewrite foldl_insert_all by by rewrite length_replicate.
      rewrite drop_ge, app_nil_r by by rewrite length_replicate.
      rewrite Hrow, sum_list_with_const, length_seq, Nat.mul_1_r. done.
    + intros i block p1.
      rewrite (checked_malloc_then malloc_ok msg_block _ 0 (λ _, msg_block)
                 (<[i := row]> block)).
      * apply checked_ext_msg. intros j _. by case_decide.
      * intros p2. apply checked_ret.
Qed.

(** [genmat] makes [b + 1] calls of [malloc] for every slot that holds a
    tile. *)
Lemma genmat_checked (M : grid F) n b p :
  genmat malloc_ok junk M n b p =
  checked malloc_ok p (nonzero_count (slots n) * (b + 1)) (λ _, msg_block)
    (foldl (gen_slot b) (M, 1325%Z) (slots n)).1.
Proof.
  unfold genmat, for_rangeP. rewrite Nat.sub_0_r.
  set (cnt := λ c : nat * nat,
         if decide (structural_nonzero c.1 c.2) then b + 1 else 0).
  assert (∀ ii jj (st : grid F * Z) p,
    (let '(M, init_val) := st in
     if (null_entry_of (Z.of_nat ii) (Z.of_nat jj) =? 0)%Z then
       block ← allocate_clean_block malloc_ok junk b;
       let '(block, task_init_val) := fill_block block init_val b in
       mret (<[(ii, jj) := block]> M, init_val)
     else
       mret (delete (ii, jj) M, init_val)) p =
    checked malloc_ok p (cnt (ii, jj)) (λ _, msg_block) (gen_slot b st (ii, jj)))
    as Hslot.
  { intros ii jj [M1 v] p1. unfold cnt. simpl.
    destruct (decide (structural_nonzero ii jj)) as [Hnz|Hz].
    - rewrite gen_slot_nonzero by done.
      apply null_entry_structural in Hnz. rewrite Hnz. simpl.
      replace (b + 1) with (b + 1 + 0) by lia.
      apply (checked_bind_const _ _ _ _ _ _ (clean_block b));
        [apply allocate_clean_block_checked|].
      intros p2. rewrite fill_block_clean. apply checked_ret.
    - rewrite gen_slot_zero by done.
      destruct (Z.eqb_spec (null_entry_of (Z.of_nat ii) (Z.of_nat jj)) 0) as [H0|H0].
      { by apply null_entry_structural in H0. }
      apply checked_ret. }
  replace (nonzero_count (slots n) * (b + 1)) with
    (sum_list_with (λ ii, sum_list_with (λ jj, cnt (ii, jj)) (seq 0 n)) (seq 0 n) + 0).
  2:{ rewrite Nat.add_0_r. unfold nonzero_count, slots.
      rewrite <- (sum_list_if_filter (λ c : nat * nat, structural_nonzero c.1 c.2)).
      rewrite sum_list_bind. apply sum_list_with_ext. intros ii.
      rewrite sum_list_bind. apply sum_list_with_ext. intros jj.
      simpl. unfold cnt. simpl. lia. }
  apply (checked_bind_const _ _ _ _ _ _
           (foldl (gen_slot b) (M, 1325%Z) (slots n))); [|intros; apply checked_ret].
  intros p1.
  rewrite (checked_foldP malloc_ok
    (λ ii, sum_list_with (λ jj, cnt (ii, jj)) (seq 0 n))
    (λ ii st, foldl (λ st jj, gen_slot b st (ii, jj)) st (seq 0 n)) msg_block).
  - f_equal. unfold slots. rewrite foldl_bind. apply foldl_ext_eq. intros st ii.
    rewrite foldl_bind. by apply foldl_ext_eq.
  - intros ii st p2.
    rewrite (checked_foldP malloc_ok (λ jj, cnt (ii, jj))
      (λ jj st, gen_slot b st (ii, jj)) msg_block); [done|].
    intros jj st' p3. apply Hslot.
Qed.

(** [sparselu_init] makes [1 + n] calls for the table and then those of
    [genmat]. *)
Lemma sparselu_init_checked n b p :
  sparselu_init malloc_ok junk n b p =
  checked malloc_ok p (1 + n + nonzero_count (slots n) * (b + 1))
    (λ i, if decide (i < 1 + n) then msg_bench else msg_block)
    (foldl (gen_slot b) (∅, 1325%Z) (slots n)).1.
Proof.
  unfold sparselu_init, for_rangeP. rewrite Nat.sub_0_r.
  rewrite (checked_malloc_then malloc_ok msg_bench _
    (n + nonzero_count (slots n) * (b + 1))
    (λ i, if decide (i < n) then msg_bench else msg_block)
    (foldl (gen_slot b) (∅, 1325%Z) (slots n)).1).
  - replace (1 + n + nonzero_count (slots n) * (b + 1))
      with (S (n + nonzero_count (slots n) * (b + 1))) by lia.
    apply checked_ext_msg. intros i _. repeat case_decide; (done || lia).
  - intros p1.
    rewrite (checked_bind malloc_ok _ _ n (nonzero_count (slots n) * (b + 1))
      (λ _, msg_bench) (λ _, msg_block) ()
      (foldl (gen_slot b) (∅, 1325%Z) (slots n)).1); [done| |].
    + intros p2.
      rewrite (checked_foldP malloc_ok (λ _, 1) (λ _ (u : unit), u) msg_bench).
      * rewrite sum_list_with_const, length_seq, Nat.mul_1_r. f_equal.
        by destruct (foldl _ _ _).
      * intros i [] p3.
        rewrite <- (checked_ext_msg malloc_ok p3 1
          (λ i, if decide (i = 0) then msg_bench else msg_bench)) by
          (intros; by case_decide).
        pose proof (checked_malloc_then malloc_ok msg_bench (mret ()) 0
                      (λ _, msg_bench) () p3 (checked_ret malloc_ok _ ())) as Hm.
        rewrite <- Hm. unfold mbind, P_bind.
        destruct (malloc malloc_ok p3) as [ok p4|]; [|done]. simpl.
        by destruct (when (negb ok) _ p4) as [[] ?|].
    + intros p2. apply genmat_checked.
Qed.
End allocation.

(** ** The generated tiles *)

Lemma lcg_iter_closed (v : Z) (m : nat) :
  (0 ≤ v < 65536)%Z →
  Nat.iter m lcg_next v = ((3125 ^ Z.of_nat m * v) mod 65536)%Z.
Proof.
  intros Hv. induction m as [|m IH].
  - simpl. rewrite Z.mul_1_l, Z.mod_small by lia. done.
  - change (Nat.iter (S m) lcg_next v) with (lcg_next (Nat.iter m lcg_next v)).
    rewrite IH.
    destruct (lcg_next_spec ((3125 ^ Z.of_nat m * v) mod 65536)) as [-> _].
    { apply Z.mod_pos_bound. lia. }
    rewrite Z.mul_mod_idemp_r by lia.
    rewrite Nat2Z.inj_succ, Z.pow_succ_r by lia. f_equal. lia.
Qed.

Lemma lcg_run_seq (v : Z) (m : nat) :
  lcg_run v m = (λ c, Nat.iter (c + 1) lcg_next v) <$> seq 0 m.
Proof.
  induction m as [|m IH]; [done|].
  rewrite lcg_run_S, IH, seq_S, fmap_app. simpl.
  by replace (m + 1) with (S m) by lia.
Qed.

Section generated_tiles.
Context {F : Type} `{!Scalar F}.

Lemma rows_of_closed (v : Z) (b : nat) :
  (0 ≤ v < 65536)%Z →
  rows_of v b b =
  ((λ r, (λ c, of_lcg ((3125 ^ Z.of_nat (r * b + c + 1) * v) mod 65536)%Z)
           <$> seq 0 b) <$> seq 0 b : tile F).
Proof.
  intros Hv. unfold rows_of. apply list_fmap_ext. intros _ r _.
  rewrite lcg_run_seq, <- list_fmap_compose. apply list_fmap_ext. intros _ c _.
  simpl. f_equal. rewrite <- lcg_iter_add, lcg_iter_closed by done.
  do 3 f_equal. lia.
Qed.

Lemma generated_slots (M : grid F) (n b i j : nat) :
  (foldl (gen_slot b) (M, 1325%Z) (slots n)).1 !! (i, j) = generated_slot M n b i j.
Proof.
  unfold generated_slot.
  destruct (gen_slots_spec b (slots n) M 1325%Z) as (M' & Hfold & Hout & Hin).
  rewrite Hfold. simpl.
  destruct (decide (i < n ∧ j < n)) as [[Hi Hj]|Hnot].
  - rewrite (Hin (i, j)) by (apply slots_elem; lia). simpl.
    case_decide; [|done]. unfold generated_tile. by rewrite rows_of_closed by lia.
  - apply Hout. rewrite slots_elem. lia.
Qed.
End generated_tiles.






(** ** The comparison of [main] *)

Section rms_facts.
Import Binary32 Comparison.

Lemma rms_error_fold (BENCH BENCH_SEQ : grid float) (n b : nat) :
  rms_error BENCH BENCH_SEQ n b =
  let '(error, count) :=
    foldl accumulate (S754_zero false, 0%Z) (compared_pairs BENCH BENCH_SEQ n b) in
  SFsqrt 53 1024 (SFdiv 53 1024 error (double_of_int count)).
Proof.
  unfold rms_error, compared_pairs, for_range. rewrite !Nat.sub_0_r.
  rewrite foldl_bind.
  match goal with
  | |- (let '(_, _) := ?a in _) = (let '(_, _) := ?b in _) =>
      assert (a = b) as ->; [|done]
  end.
  apply foldl_ext_eq. intros acc i. rewrite foldl_bind.
  apply foldl_ext_eq. intros acc' j.
  destruct (BENCH !! (i, j)) as [t|]; [|done].
  destruct (BENCH_SEQ !! (i, j)) as [t'|]; [|done].
  rewrite foldl_bind. apply foldl_ext_eq. intros acc1 row.
  rewrite foldl_bind. apply foldl_ext_eq. intros [e c] col. done.
Qed.

Lemma SFsub_diag (x : float) : finite_float x → SFsub 24 128 x x = S754_zero false.
Proof.
  destruct x as [s| | |s m e]; simpl; try done; intros _.
  - by destruct s.
  - unfold SFsub. rewrite Z.min_id. unfold shl_align. by rewrite !Z.sub_diag.
Qed.

Lemma accumulate_equal (x : float) (c : Z) :
  finite_float x →
  accumulate (S754_zero false, c) (x, x) = (S754_zero false, wrap_int (c + 1)).
Proof.
  intros Hx. unfold accumulate. simpl. by rewrite (SFsub_diag x Hx).
Qed.

Lemma foldl_accumulate_equal (l : list (float * float)) (c : Z) :
  Forall (λ xy, xy.1 = xy.2 ∧ finite_float xy.1) l →
  (0 ≤ c)%Z → (c + Z.of_nat (length l) < 2 ^ 31)%Z →
  foldl accumulate (S754_zero false, c) l =
  (S754_zero false, (c + Z.of_nat (length l))%Z).
Proof.
  intros Hall. revert c. induction Hall as [|[x y] l [Heq Hfin] _ IH]; intros c Hc Hlen.
  - simpl. by rewrite Z.add_0_r.
  - simpl in Heq, Hfin. subst y. cbn [foldl]. rewrite accumulate_equal by done.
    rewrite length_cons, Nat2Z.inj_succ in *.
    rewrite wrap_int_small by lia. rewrite IH by lia. f_equal. lia.
Qed.

Lemma digits2_pos_lower (p : positive) :
  (2 ^ (Zpos (digits2_pos p) - 1) ≤ Zpos p)%Z.
Proof.
  induction p as [p IH|p IH|]; simpl; [| |done].
  - rewrite Pos2Z.inj_succ.
    replace (Z.succ (Zpos (digits2_pos p)) - 1)%Z
      with (Z.succ (Zpos (digits2_pos p) - 1)) by lia.
    rewrite Z.pow_succ_r by lia. lia.
  - rewrite Pos2Z.inj_succ.
    replace (Z.succ (Zpos (digits2_pos p)) - 1)%Z
      with (Z.succ (Zpos (digits2_pos p) - 1)) by lia.
    rewrite Z.pow_succ_r by lia. lia.
Qed.

Lemma digits2_pos_shift (p k : positive) :
  digits2_pos (Pos.iter xO p k) = (digits2_pos p + k)%positive.
Proof.
  induction k as [|k IH] using Pos.peano_ind.
  - simpl. lia.
  - rewrite Pos.iter_succ. simpl. rewrite IH. lia.
Qed.

Lemma double_of_int_pos (z : Z) :
  (0 < z < 2 ^ 53)%Z → ∃ m e, double_of_int z = S754_finite false m e.
Proof.
  intros Hz. destruct z as [|p|p]; [lia| |lia].
  unfold double_of_int, binary_normalize, binary_round.
  pose proof (digits2_pos_lower p) as Hlow.
  assert (Zpos (digits2_pos p) ≤ 53)%Z as Hd.
  { destruct (decide (Zpos (digits2_pos p) ≤ 53)%Z) as [|Hgt]; [done|].
    assert (2 ^ 53 ≤ 2 ^ (Zpos (digits2_pos p) - 1))%Z
      by (apply Z.pow_le_mono_r; lia).
    lia. }
  assert (∀ d, (1 ≤ d ≤ 53)%Z → fexp 53 1024 d = (d - 53)%Z) as Hfexp.
  { intros d Hd'. unfold fexp, emin. lia. }
  rewrite Z.add_0_r, Hfexp by lia.
  assert (∀ m e, Zpos (digits2_pos m) = 53%Z → (-52 ≤ e ≤ 0)%Z →
            binary_round_aux 53 1024 false (Zpos m) e loc_Exact =
            S754_finite false m e) as Haux.
  { intros m e Hm He. unfold binary_round_aux, shr_fexp. simpl Zdigits2.
    rewrite Hm. unfold fexp, emin.
    replace (Z.max (53 + e - 53) (3 - 1024 - 53) - e)%Z with 0%Z by lia.
    simpl. rewrite Hm.
    replace (Z.max (53 + e - 53) (3 - 1024 - 53) - e)%Z with 0%Z by lia.
    simpl. destruct (Z.leb_spec e (1024 - 53)); [done|lia]. }
  unfold shl_align.
  destruct (Zpos (digits2_pos p) - 53 - 0)%Z as [|k|k] eqn:Hk.
  - eexists _, _. apply Haux; lia.
  - lia.
  - eexists _, _. apply Haux.
    + rewrite digits2_pos_shift. lia.
    + lia.
Qed.

Lemma rms_equal_finite (BENCH BENCH_SEQ : grid float) (n b : nat) :
  Forall (λ xy, xy.1 = xy.2 ∧ finite_float xy.1) (compared_pairs BENCH BENCH_SEQ n b) →
  (0 < Z.of_nat (length (compared_pairs BENCH BENCH_SEQ n b)) < 2 ^ 31)%Z →
  rms_error BENCH BENCH_SEQ n b = S754_zero false.
Proof.
  intros Hall Hlen. rewrite rms_error_fold, foldl_accumulate_equal by (done || lia).
  rewrite Z.add_0_l.
  destruct (double_of_int_pos (Z.of_nat (length (compared_pairs BENCH BENCH_SEQ n b))))
    as (m & e & ->); [lia|]. done.
Qed.

Lemma rms_nothing_compared (BENCH BENCH_SEQ : grid float) (n b : nat) :
  compared_pairs BENCH BENCH_SEQ n b = [] →
  rms_error BENCH BENCH_SEQ n b = S754_nan.
Proof. intros Hnil. by rewrite rms_error_fold, Hnil. Qed.

Lemma accumulate_nan_stays (c : Z) (xy : float * float) :
  ∃ c', accumulate (S754_nan, c) xy = (S754_nan, c').
Proof. by eexists. Qed.

Lemma foldl_accumulate_nan (l : list (float * float)) (c : Z) :
  ∃ c', foldl accumulate (S754_nan, c) l = (S754_nan, c').
Proof.
  revert c. induction l as [|xy l IH]; intros c; [by eexists|].
  cbn [foldl]. destruct (accumulate_nan_stays c xy) as [c1 ->]. apply IH.
Qed.

Lemma rms_nan_difference (BENCH BENCH_SEQ : grid float) (n b : nat) (x y : float) :
  (x, y) ∈ compared_pairs BENCH BENCH_SEQ n b → SFsub 24 128 x y = S754_nan →
  rms_error BENCH BENCH_SEQ n b = S754_nan.
Proof.
  intros (l1 & l2 & Hsplit)%list_elem_of_split Hnan.
  rewrite rms_error_fold, Hsplit, foldl_app. cbn [foldl].
  destruct (foldl accumulate (S754_zero false, 0%Z) l1) as [e c].
  assert (∃ c', accumulate (e, c) (x, y) = (S754_nan, c')) as [c1 ->].
  { unfold accumulate. simpl. rewrite Hnan. simpl. destruct e; by eexists. }
  destruct (foldl_accumulate_nan l2 c1) as [c2 ->]. done.
Qed.

Lemma SFsub_not_finite (x : float) : ¬ finite_float x → SFsub 24 128 x x = S754_nan.
Proof. destruct x as [s|s| |s m e]; simpl; try done; intros _. by destruct s. Qed.

Lemma compared_pairs_same (g : grid float) (n b : nat) :
  Forall (λ xy : float * float, xy.1 = xy.2) (compared_pairs g g n b).
Proof.
  apply Forall_forall. intros [x y]. unfold compared_pairs.
  intros (i & (j & Hin & _)%list_elem_of_bind & _)%list_elem_of_bind.
  destruct (g !! (i, j)) as [t|]; [|by apply elem_of_nil in Hin].
  apply list_elem_of_bind in Hin as (r & (c & Hin & _)%list_elem_of_bind & _).
  by apply list_elem_of_singleton in Hin as [= -> ->].
Qed.
End rms_facts.

Section log_facts.
Context {F : Type} `{!Scalar F}.
Implicit Types (g : grid F).

Lemma submitted_bind {A} (l : list A) (f : A → list event) :
  submitted (x ← l; f x) = x ← l; submitted (f x).
Proof.
  induction l as [|x l IH]; [done|].
  by rewrite !bind_cons, submitted_app, IH.
Qed.

Lemma bind_ext_in {A B} (f f' : A → list B) (l : list A) :
  (∀ x, x ∈ l → f x = f' x) → l ≫= f = l ≫= f'.
Proof.
  intros Hf. induction l as [|x l IH]; [done|].
  rewrite !bind_cons, Hf by left. f_equal. apply IH. intros y Hy. apply Hf. by right.
Qed.

Lemma submitted_task_step_log g n kk :
  Lu0 kk :: submitted (task_step_log g n kk) = step_tasks g n kk.
Proof.
  unfold task_step_log, step_tasks, panel_log, update_log, over_range, when_present.
  rewrite !submitted_app, !submitted_bind. simpl.
  rewrite app_nil_r, <- app_assoc. f_equal. f_equal; [|f_equal].
  - rewrite <- bind_if_singleton. apply bind_ext_in. intros j _. by case_decide.
  - rewrite <- bind_if_singleton. apply bind_ext_in. intros i _. by case_decide.
  - rewrite <- bind_if_filter. apply bind_ext_in. intros i _.
    case_decide; [|done]. rewrite submitted_bind, <- bind_if_filter.
    apply bind_ext_in. intros j _. case_decide; [|done].
    by destruct (g !! (i, j)).
Qed.
End log_facts.

(** ** Further results *)

Section kernel_results.
Context {F : Type} `{!Scalar F}.

(** X1. [bmod] on b x b tiles leaves a b x b tile whose entry (i, j) is
    the entry of [inner] minus the products [row[i][k] * col[k][j]],
    subtracted one after the other for k = 0 .. b-1. *)
Theorem bmod_subtracts_product (row col inner : tile F) (b : nat) :
  square b row → square b col → square b inner →
  square b (bmod row col inner b) ∧
  ∀ i j, i < b → j < b →
    tget (bmod row col inner b) i j =
    sub_dot (tget row i) (λ k, tget col k j) b (tget inner i j).
Proof.
  intros _ _ Hsq. split; [by apply bmod_square|].
  intros i j Hi Hj. by apply bmod_entries.
Qed.

(** X2. [fwd] on b x b tiles solves the unit lower triangular system of
    [diag] by forward substitution: entry (i, j) of the result is the entry
    of [col] minus the products [diag[i][k] * result[k][j]] for
    k = 0 .. i-1, subtracted in that order; row 0 is unchanged, and the
    diagonal and the upper part of [diag] are not used. *)
Theorem fwd_solves_unit_lower_system (diag col : tile F) (b : nat) :
  square b diag → square b col →
  square b (fwd diag col b) ∧
  ∀ i j, i < b → j < b →
    tget (fwd diag col b) i j =
    sub_dot (tget diag i) (λ k, tget (fwd diag col b) k j) i (tget col i j).
Proof.
  intros _ Hsq. split; [by apply fwd_square|].
  intros i j Hi Hj. by apply fwd_entries.
Qed.

(** X3. [bdiv] on b x b tiles solves the upper triangular system of
    [diag] row by row: entry (i, j) of the result is the entry of [row]
    minus the products [result[i][k] * diag[k][j]] for k = 0 .. j-1,
    subtracted in that order, then divided by [diag[j][j]]; the part of
    [diag] below the diagonal is not used. *)
Theorem bdiv_solves_upper_system (diag row : tile F) (b : nat) :
  square b diag → square b row →
  square b (bdiv diag row b) ∧
  ∀ i j, i < b → j < b →
    tget (bdiv diag row b) i j =
    fdiv (sub_dot (tget (bdiv diag row b) i) (λ k, tget diag k j) j (tget row i j))
         (tget diag j j).
Proof.
  intros _ Hsq. split; [by apply bdiv_square|].
  intros i j Hi Hj. by apply bdiv_entries.
Qed.

(** X4. The tile [lu0] leaves holds both factors of the input: entry
    (i, j) is the entry of [diag] minus the products
    [result[i][k] * result[k][j]] for k = 0 .. min(i, j)-1, subtracted in
    that order, and below the diagonal (j < i) divided by the pivot
    [result[j][j]]. *)
Theorem lu0_entries_are_the_factors (diag : tile F) (b : nat) :
  square b diag →
  square b (lu0 diag b) ∧
  ∀ i j, i < b → j < b →
    tget (lu0 diag b) i j =
    let acc := sub_dot (tget (lu0 diag b) i) (λ k, tget (lu0 diag b) k j)
                 (i `min` j) (tget diag i j) in
    if decide (j < i) then fdiv acc (tget (lu0 diag b) j j) else acc.
Proof.
  intros Hsq. split; [by apply lu0_square|].
  intros i j Hi Hj. by apply lu0_entries.
Qed.
End kernel_results.

Section driver_results.
Context {F : Type} `{!Scalar F}.
Implicit Types (g : grid F) (s : state F).

(** X5. One outer step [kk], started on any matrix: if the diagonal slot
    holds a tile [d], the three drivers terminate and leave the same
    matrix, in which slot (kk, kk) holds [lu0 d], a slot (kk, j) of row
    [kk] holds [fwd] of its tile, a slot (i, kk) of column [kk] holds
    [bdiv] of its tile, a slot (i, j) with both present holds [bmod] of
    these two and of its own tile (a clean block if it had none), and every
    other slot is as before; if the diagonal slot is empty, both parallel
    versions hand it to [lu0]. *)
Theorem step_is_block_elimination (n b kk : nat) (s : state F) :
  match st_grid s !! (kk, kk) with
  | Some d =>
      ∃ s1 s2 s3,
        TaskDep.step n b kk s = Some ((), s1) ∧
        Task.par_step n b kk s = Some ((), s2) ∧
        Task.seq_step n b kk s = Some ((), s3) ∧
        st_grid s2 = st_grid s1 ∧ st_grid s3 = st_grid s1 ∧
        ∀ i j, st_grid s1 !! (i, j) = step_slot (st_grid s) n b kk d i j
  | None => TaskDep.step n b kk s = None ∧ Task.par_step n b kk s = None
  end.
Proof. apply step_cases. Qed.

(** X6. The two parallel versions, run on the same matrix, either both
    hand an empty diagonal slot to [lu0], or both terminate and leave the
    same matrix. *)
Theorem parallel_versions_leave_same_matrix (n b : nat) (g : grid F)
    (log1 log2 : list event) :
  match TaskDep.sparselu_par_call n b (State g log1),
        Task.sparselu_par_call n b (State g log2) with
  | Some (_, s1), Some (_, s2) => st_grid s1 = st_grid s2
  | None, None => ¬ ∀ k, k < n → present g k k
  | _, _ => False
  end.
Proof.
  pose proof (par_steps_agree n b (seq 0 (n - 0)) (State g log1) (State g log2) eq_refl)
    as Hsteps.
  pose proof (par_call_cases n b (State g log1)) as Hcases.
  unfold TaskDep.sparselu_par_call, Task.sparselu_par_call, loop, mbind, M_bind in *.
  destruct (for_each (seq 0 (n - 0)) (TaskDep.step n b) (State g log1))
    as [[[] s1]|];
    destruct (for_each (seq 0 (n - 0)) (Task.par_step n b) (State g log2))
    as [[[] s2]|]; simpl in *; try done.
  intros Hdiag. apply Hcases. by apply diagonal_in_dom.
Qed.

(** X7. Which slots hold a tile after the factorisation depends on the
    initial pattern only, not on the values: it is the symbolic
    factorisation of the pattern, in which step [k] fills in every slot
    (i, j), i, j > k, whose row meets a tile of column [k] and whose
    column meets a tile of row [k].  This holds for the parallel version
    whenever it terminates, and for the sequential reference on every
    matrix. *)
Theorem fill_in_is_symbolic_factorisation (n b : nat) (g : grid F)
    (log : list event) :
  match TaskDep.sparselu_par_call n b (State g log) with
  | Some (_, s') => dom (st_grid s') = symbolic_factorisation n (dom g)
  | None => ¬ ∀ k, k < n → present g k k
  end ∧
  ∃ s', Task.sparselu_seq_call n b (State g log) = Some ((), s') ∧
        dom (st_grid s') = symbolic_factorisation n (dom g).
Proof.
  split.
  - pose proof (par_call_cases n b (State g log)) as Hcases.
    pose proof (steps_dom n b (seq 0 (n - 0)) (State g log)) as Hdom.
    unfold TaskDep.sparselu_par_call, loop, mbind, M_bind in *.
    destruct (for_each (seq 0 (n - 0)) (TaskDep.step n b) (State g log))
      as [[[] s1]|]; simpl in *.
    + rewrite (Hdom s1 eq_refl). unfold symbolic_factorisation.
      by rewrite Nat.sub_0_r.
    + intros Hdiag. apply Hcases. by apply diagonal_in_dom.
  - destruct (seq_steps_dom n b (seq 0 (n - 0)) (State g log)) as (s' & Hr & Hd).
    exists s'. split; [done|]. rewrite Hd. unfold symbolic_factorisation.
    by rewrite Nat.sub_0_r.
Qed.

(** X8. Started on a matrix whose tiles are all b x b, the factorisation
    leaves a matrix whose tiles are all b x b, the filled-in ones
    included. *)
Theorem tiles_stay_square (n b : nat) (g : grid F) (log : list event) :
  map_Forall (λ _, square b) g →
  match TaskDep.sparselu_par_call n b (State g log) with
  | Some (_, s') => map_Forall (λ _, square b) (st_grid s')
  | None => ¬ ∀ k, k < n → present g k k
  end.
Proof.
  intros Hall.
  pose proof (par_call_cases n b (State g log)) as Hcases.
  pose proof (steps_square n b (seq 0 (n - 0)) (State g log)) as Hsq.
  unfold TaskDep.sparselu_par_call, loop, mbind, M_bind in *.
  destruct (for_each (seq 0 (n - 0)) (TaskDep.step n b) (State g log))
    as [[[] s1]|]; simpl in *.
  - by apply Hsq.
  - intros Hdiag. apply Hcases. by apply diagonal_in_dom.
Qed.

(** X9. The steps [k], ..., [n]-1 of the factorisation leave every slot
    of a row or a column before [k], and every slot outside the n x n
    table, as it is: after step [k]-1 the tiles of these rows and
    columns are final.  The steps terminate unless a diagonal tile among
    [k], ..., [n]-1 is missing. *)
Theorem later_steps_keep_finished_panels (n b k : nat) (s : state F) :
  match loop k n (TaskDep.step n b) s with
  | Some (_, s') =>
      ∀ i j, i < k ∨ j < k ∨ n ≤ i ∨ n ≤ j →
        st_grid s' !! (i, j) = st_grid s !! (i, j)
  | None => ¬ ∀ kk, k ≤ kk < n → present (st_grid s) kk kk
  end.
Proof.
  destruct (loop k n (TaskDep.step n b) s) as [[[] s']|] eqn:Hr.
  - apply (steps_frame n b k (seq k (n - k)) s s'); [|done].
    intros kk Hkk%elem_of_seq. lia.
  - intros Hdiag. destruct (steps_run_from n b k s) as [x Hx]; [|congruence].
    intros kk Hkk. by apply present_dom, Hdiag.
Qed.

(** X10. The log of one step of the plain task version: the [fwd] tasks
    of the tiles of row [kk], the [bdiv] tasks of the tiles of column
    [kk], a taskwait, then for every pair of these the [bmod] task,
    followed by the allocation of its target, made in the task, when the
    slot was empty, and a second taskwait.  [lu0] is run by the issuing
    thread and is no task: the step creates the tasks of [step_tasks]
    but the first. *)
Theorem task_version_step_log (n b kk : nat) (s : state F) :
  match Task.par_step n b kk s with
  | Some (_, s') =>
      st_log s' = st_log s ++ task_step_log (st_grid s) n kk ∧
      Lu0 kk :: submitted (task_step_log (st_grid s) n kk) =
        step_tasks (st_grid s) n kk
  | None => ¬ present (st_grid s) kk kk
  end.
Proof.
  destruct (st_grid s !! (kk, kk)) as [d|] eqn:Hd.
  - destruct (task_step_grid n b kk s d Hd) as (s' & -> & _ & Hlog).
    split; [done|]. apply submitted_task_step_log.
  - rewrite task_step_faults by done. intros [t Ht]. congruence.
Qed.

(** X11. The log of one step of the task-dependency version: the [lu0]
    task, the [fwd] tasks of the tiles of row [kk], the [bdiv] tasks of
    the tiles of column [kk], then for every pair of these the allocation
    of the target by the issuing thread, when the slot was empty,
    immediately followed by the [bmod] task; no taskwait. *)
Theorem taskdep_version_step_log (n b kk : nat) (s : state F) :
  match TaskDep.step n b kk s with
  | Some (_, s') => st_log s' = st_log s ++ taskdep_step_log (st_grid s) n kk
  | None => ¬ present (st_grid s) kk kk
  end.
Proof.
  destruct (st_grid s !! (kk, kk)) as [d|] eqn:Hd.
  - by destruct (taskdep_step_grid n b kk s d Hd) as (s' & -> & _ & Hlog).
  - rewrite step_faults by by apply not_elem_of_dom. intros [t Ht]. congruence.
Qed.

(** X12. A step of the sequential reference on a matrix whose diagonal
    slot [kk] is empty terminates: [lu0], [fwd] and [bdiv] are skipped,
    and [bmod] is still applied, to the tiles of row and column [kk] as
    they are, filling in the empty targets. *)
Theorem seq_step_without_diagonal_tile (n b kk : nat) (s : state F) :
  st_grid s !! (kk, kk) = None →
  ∃ s', Task.seq_step n b kk s = Some ((), s') ∧
    ∀ i j, st_grid s' !! (i, j) =
      if decide (kk < i < n ∧ kk < j < n)
      then match st_grid s !! (i, kk), st_grid s !! (kk, j) with
           | Some r, Some c =>
               Some (bmod r c (default (clean_block b) (st_grid s !! (i, j))) b)
           | _, _ => st_grid s !! (i, j)
           end
      else st_grid s !! (i, j).
Proof. apply seq_step_grid_absent. Qed.
End driver_results.

Section generator_results.
Context {F : Type} `{!Scalar F}.

(** X13. [allocate_clean_block] makes b + 1 calls of [malloc]: if they
    all succeed it returns the b x b block of zeros, whatever the fresh
    memory held; at the first that fails it prints its message once and
    exits with code 101, having made no further call. *)
Theorem allocate_clean_block_outcome (malloc_ok : nat → bool) (junk : F)
    (b : nat) (p : proc) :
  allocate_clean_block malloc_ok junk b p =
  checked malloc_ok p (b + 1) (λ _, msg_block) (clean_block b).
Proof. apply allocate_clean_block_checked. Qed.

(** X14. [sparselu_init] makes 1 + n calls of [malloc] for the table and
    b + 1 for every slot that holds a tile: if they all succeed it
    returns the generated matrix, in which the slots the structural rule
    selects hold the same tile [generated_tile]; at the first that fails
    it exits with code 101, with the message of the table for the first
    1 + n calls and the message of [allocate_clean_block] for the
    others. *)
Theorem sparselu_init_outcome (malloc_ok : nat → bool) (junk : F) (n b : nat) :
  ∃ M' : grid F,
    (∀ i j, M' !! (i, j) = generated_slot ∅ n b i j) ∧
    ∀ p, sparselu_init malloc_ok junk n b p =
         checked malloc_ok p (1 + n + nonzero_count (slots n) * (b + 1))
           (λ i, if decide (i < 1 + n) then msg_bench else msg_block) M'.
Proof.
  exists (foldl (gen_slot b) (∅, 1325%Z) (slots n)).1. split.
  - intros i j. apply generated_slots.
  - intros p. apply sparselu_init_checked.
Qed.

(** X15. When [genmat] returns, every slot outside the n x n table is as
    it was, and slot (i, j) of the table holds a tile exactly when the
    structural rule says so.  All these tiles are equal: each task fills
    its tile from its own copy of [init_val], so entry (r, c) is the
    image under [of_lcg] of (3125 ^ m * 1325) mod 65536 with
    m = r * b + c + 1, whatever the slot. *)
Theorem genmat_tiles_closed_form (malloc_ok : nat → bool) (junk : F)
    (M : grid F) (n b : nat) (p : proc) :
  match genmat malloc_ok junk M n b p with
  | Returned M' _ => ∀ i j, M' !! (i, j) = generated_slot M n b i j
  | Exited code _ => code = 101%Z
  end.
Proof.
  rewrite genmat_checked. unfold checked.
  destruct (first_failure _ _ _); [done|]. intros i j. apply generated_slots.
Qed.
End generator_results.


Section verification_results.
Import Binary32 Comparison.

(** X17. If the entries the comparison of [main] visits are pairwise
    equal and finite, at least one and fewer than 2 ^ 31 of them, the
    error it computes is +0 and the verdict is PASS. *)
Theorem equal_finite_results_pass (BENCH BENCH_SEQ : grid float) (n b : nat) :
  Forall (λ xy, xy.1 = xy.2 ∧ finite_float xy.1) (compared_pairs BENCH BENCH_SEQ n b) →
  (0 < Z.of_nat (length (compared_pairs BENCH BENCH_SEQ n b)) < 2 ^ 31)%Z →
  rms_error BENCH BENCH_SEQ n b = S754_zero false ∧
  verification_passes (rms_error BENCH BENCH_SEQ n b) = true.
Proof. intros Hall Hlen. by rewrite rms_equal_finite. Qed.

(** X18. If the comparison visits no entry (no slot holds a tile in both
    matrices, or matrix_size or submatrix_size is 0), [count] is 0, the
    error is 0.0 / 0 = NaN and the verdict is FAIL. *)
Theorem empty_comparison_fails (BENCH BENCH_SEQ : grid float) (n b : nat) :
  compared_pairs BENCH BENCH_SEQ n b = [] →
  rms_error BENCH BENCH_SEQ n b = S754_nan ∧
  verification_passes (rms_error BENCH BENCH_SEQ n b) = false.
Proof. intros Hnil. by rewrite rms_nothing_compared. Qed.

(** X19. If the difference of one pair of compared entries is NaN (an
    entry is NaN, or both are infinities of the same sign), the error is
    NaN and the verdict is FAIL, whatever the other entries are. *)
Theorem nan_difference_fails (BENCH BENCH_SEQ : grid float) (n b : nat)
    (x y : float) :
  (x, y) ∈ compared_pairs BENCH BENCH_SEQ n b → fsub x y = S754_nan →
  rms_error BENCH BENCH_SEQ n b = S754_nan ∧
  verification_passes (rms_error BENCH BENCH_SEQ n b) = false.
Proof. intros Hin Hnan. by rewrite (rms_nan_difference _ _ _ _ x y). Qed.

(** X20. The scenario of [main] in sparselu-task.c, from any matrix whose
    diagonal tiles are present: the parallel and the sequential
    factorisation leave the same matrix, so the comparison only tells
    whether that matrix is finite: when it visits at least one and fewer
    than 2 ^ 31 entries, the verdict is PASS if and only if every entry
    it visits is finite. *)
Theorem verification_tells_finiteness (g : grid float) (n b : nat) :
  (∀ k, k < n → present g k k) →
  ∃ g', factored Task.sparselu_par_call g n b = Some g' ∧
        factored Task.sparselu_seq_call g n b = Some g' ∧
        ((0 < Z.of_nat (length (compared_pairs g' g' n b)) < 2 ^ 31)%Z →
         verification_passes (rms_error g' g' n b) = true ↔
         Forall (λ xy, finite_float xy.1) (compared_pairs g' g' n b)).
Proof.
  intros Hdiag.
  destruct (task_par_call_matches_seq_call n b g [] [] Hdiag)
    as (g' & l1 & l2 & Hpar & Hseq).
  exists g'. unfold factored. rewrite Hpar, Hseq. split_and!; [done..|].
  intros Hlen. pose proof (compared_pairs_same g' n b) as Hsame. split.
  - intros Hpass.
    destruct (decide (Forall (λ xy : float * float, finite_float xy.1)
                        (compared_pairs g' g' n b))) as [|Hnot]; [done|].
    apply not_Forall_Exists in Hnot; [|apply _].
    apply Exists_exists in Hnot as ([x y] & Hin & Hinf). simpl in Hinf.
    assert (x = y) as <-.
    { exact (proj1 (Forall_forall _ _) Hsame (x, y) Hin). }
    rewrite (rms_nan_difference g' g' n b x x Hin) in Hpass; [done|].
    by apply SFsub_not_finite.
  - intros Hfin. rewrite rms_equal_finite; [done| |done].
    apply Forall_forall. intros xy Hin. split.
    + exact (proj1 (Forall_forall _ _) Hsame xy Hin).
    + exact (proj1 (Forall_forall _ _) Hfin xy Hin).
Qed.
End verification_results.

(** ** The two factorisations and the comparison *)

Section agreement.
Import Binary32 Comparison.

(** The comparison of a matrix with itself. *)
Lemma same_matrix_verdict (g : grid float) (n b : nat) :
  (0 < Z.of_nat (length (compared_pairs g g n b)) < 2 ^ 31)%Z →
  (Forall (λ xy, finite_float xy.1) (compared_pairs g g n b) →
   rms_error g g n b = S754_zero false) ∧
  (¬ Forall (λ xy, finite_float xy.1) (compared_pairs g g n b) →
   rms_error g g n b = S754_nan).
Proof.
  intros Hlen. pose proof (compared_pairs_same g n b) as Hsame. split.
  - intros Hfin. apply rms_equal_finite; [|done].
    apply Forall_forall. intros xy Hin. split.
    + exact (proj1 (Forall_forall _ _) Hsame xy Hin).
    + exact (proj1 (Forall_forall _ _) Hfin xy Hin).
  - intros Hnot. apply not_Forall_Exists in Hnot; [|apply _].
    apply Exists_exists in Hnot as ([x y] & Hin & Hinf). simpl in Hinf.
    assert (x = y) as <-.
    { exact (proj1 (Forall_forall _ _) Hsame (x, y) Hin). }
    apply (rms_nan_difference g g n b x x Hin). by apply SFsub_not_finite.
Qed.

(** C1 (amended).  For every scalar arithmetic and every matrix, with
    every task executed where it is created: either the task-dependency
    factorisation is handed an empty slot and faults, which requires a
    missing diagonal tile, or it terminates, and then the sequential
    reference run on the same matrix terminates and leaves the same
    matrix: the same slots hold a tile and the tiles are equal.  In
    binary32 arithmetic the comparison of [main] on these two results,
    when it visits at least one and fewer than 2 ^ 31 entries, computes
    the RMS difference 0, which is below 1e-4, if every entry it visits
    is finite, and NaN, which is not below 1e-4, if one of them is an
    infinity or NaN. *)
Theorem par_call_agrees_with_seq_call :
  (∀ (F : Type) (SF : Scalar F) (n b : nat) (g : grid F) (log1 log2 : list event),
     match TaskDep.sparselu_par_call n b (State g log1) with
     | Some (_, s1) =>
         ∃ log2', Task.sparselu_seq_call n b (State g log2) =
                  Some ((), State (st_grid s1) log2')
     | None => ¬ ∀ k, k < n → present g k k
     end) ∧
  (∀ (n b : nat) (g p : grid float),
     factored TaskDep.sparselu_par_call g n b = Some p →
     ∃ q, factored Task.sparselu_seq_call g n b = Some q ∧ q = p ∧
       ((0 < Z.of_nat (length (compared_pairs p q n b)) < 2 ^ 31)%Z →
        (Forall (λ xy, finite_float xy.1) (compared_pairs p q n b) →
         rms_error p q n b = S754_zero false ∧
         verification_passes (rms_error p q n b) = true) ∧
        (¬ Forall (λ xy, finite_float xy.1) (compared_pairs p q n b) →
         rms_error p q n b = S754_nan ∧
         verification_passes (rms_error p q n b) = false))).
Proof.
  split.
  - intros F SF n b g log1 log2. apply par_call_matches_seq_call.
  - intros n b g p Hpar. unfold factored in *.
    pose proof (par_call_matches_seq_call n b g [] []) as Hseq.
    destruct (TaskDep.sparselu_par_call n b (State g [])) as [[[] s1]|]; [|done].
    injection Hpar as <-. destruct Hseq as [log2 ->].
    exists (st_grid s1). split_and!; [done..|].
    intros Hlen. destruct (same_matrix_verdict (st_grid s1) n b Hlen) as [Hfin Hnan].
    split; intros Hall.
    + by rewrite (Hfin Hall).
    + by rewrite (Hnan Hall).
Qed.
End agreement.

Section further_witnesses.
Import Binary32 Scenarios Samples Comparison.

Lemma bmod_subtracts_product_witness :
  square 2 tile_b ∧ square 2 tile_a ∧ square 2 tile_c ∧
  tget (bmod tile_b tile_a tile_c 2) 1 0 =
  sub_dot (tget tile_b 1) (λ k, tget tile_a k 0) 2 (tget tile_c 1 0).
Proof.
  assert (square 2 tile_a) as Ha by by_evaluation.
  assert (square 2 tile_b) as Hb by by_evaluation.
  assert (square 2 tile_c) as Hc by by_evaluation.
  split_and!; [done..|].
  apply (proj2 (bmod_subtracts_product tile_b tile_a tile_c 2 Hb Ha Hc) 1 0); lia.
Defined.

Lemma fwd_solves_unit_lower_system_witness :
  square 2 tile_a ∧ square 2 tile_b ∧
  tget (fwd tile_a tile_b 2) 1 0 =
  sub_dot (tget tile_a 1) (λ k, tget (fwd tile_a tile_b 2) k 0) 1 (tget tile_b 1 0).
Proof.
  assert (square 2 tile_a) as Ha by by_evaluation.
  assert (square 2 tile_b) as Hb by by_evaluation.
  split_and!; [done..|].
  apply (proj2 (fwd_solves_unit_lower_system tile_a tile_b 2 Ha Hb) 1 0); lia.
Defined.

Lemma bdiv_solves_upper_system_witness :
  square 2 tile_a ∧ square 2 tile_b ∧
  tget (bdiv tile_a tile_b 2) 1 1 =
  fdiv (sub_dot (tget (bdiv tile_a tile_b 2) 1) (λ k, tget tile_a k 1) 1
          (tget tile_b 1 1))
       (tget tile_a 1 1).
Proof.
  assert (square 2 tile_a) as Ha by by_evaluation.
  assert (square 2 tile_b) as Hb by by_evaluation.
  split_and!; [done..|].
  apply (proj2 (bdiv_solves_upper_system tile_a tile_b 2 Ha Hb) 1 1); lia.
Defined.

Lemma lu0_entries_are_the_factors_witness :
  square 2 tile_a ∧
  tget (lu0 tile_a 2) 1 0 =
  fdiv (sub_dot (tget (lu0 tile_a 2) 1) (λ k, tget (lu0 tile_a 2) k 0) 0
          (tget tile_a 1 0))
       (tget (lu0 tile_a 2) 0 0).
Proof.
  assert (square 2 tile_a) as Ha by by_evaluation.
  split; [done|].
  apply (proj2 (lu0_entries_are_the_factors tile_a 2 Ha) 1 0); lia.
Defined.

Lemma tiles_stay_square_witness :
  map_Forall (λ _, square 2) gen5 ∧
  match TaskDep.sparselu_par_call 5 2 (State gen5 []) with
  | Some (_, s') => map_Forall (λ _, square 2) (st_grid s')
  | None => ¬ ∀ k, k < 5 → present gen5 k k
  end.
Proof.
  assert (map_Forall (λ _, square 2) gen5) as Hall by by_evaluation.
  split; [exact Hall|].
  pose proof (tiles_stay_square 5 2 gen5 [] Hall) as Hsq. exact Hsq.
Defined.

Lemma par_call_agrees_with_seq_call_witness :
  factored TaskDep.sparselu_par_call with_fill_in 3 2 = Some with_fill_in_factored ∧
  ¬ present with_fill_in 1 2 ∧ present with_fill_in_factored 1 2 ∧
  factored Task.sparselu_seq_call with_fill_in 3 2 = Some with_fill_in_factored ∧
  (0 < Z.of_nat (length (compared_pairs with_fill_in_factored with_fill_in_factored 3 2))
     < 2 ^ 31)%Z ∧
  Forall (λ xy, finite_float xy.1)
    (compared_pairs with_fill_in_factored with_fill_in_factored 3 2) ∧
  rms_error with_fill_in_factored with_fill_in_factored 3 2 = S754_zero false ∧
  verification_passes (rms_error with_fill_in_factored with_fill_in_factored 3 2) = true.
Proof.
  assert (factored TaskDep.sparselu_par_call with_fill_in 3 2 =
          Some with_fill_in_factored) as Hpar by (vm_compute; reflexivity).
  assert (0 < Z.of_nat (length (compared_pairs with_fill_in_factored
                                  with_fill_in_factored 3 2)) < 2 ^ 31)%Z
    as Hlen by by_evaluation.
  assert (Forall (λ xy : float * float, finite_float xy.1)
            (compared_pairs with_fill_in_factored with_fill_in_factored 3 2))
    as Hfin by by_evaluation.
  destruct (proj2 par_call_agrees_with_seq_call 3 2 with_fill_in
              with_fill_in_factored Hpar) as (q & Hseq & -> & Hrms).
  destruct (proj1 (Hrms Hlen) Hfin) as [Hzero Hpass].
  split; [exact Hpar|]. split; [by_evaluation|]. split; [by_evaluation|].
  split; [exact Hseq|]. split; [exact Hlen|]. split; [exact Hfin|].
  split; [exact Hzero|exact Hpass].
Defined.

Lemma seq_step_without_diagonal_tile_witness :
  off_diagonal !! (0, 0) = None ∧
  ∃ s', Task.seq_step 2 2 0 (State off_diagonal []) = Some ((), s') ∧
    (∀ i j, st_grid s' !! (i, j) =
       if decide (0 < i < 2 ∧ 0 < j < 2)
       then match off_diagonal !! (i, 0), off_diagonal !! (0, j) with
            | Some r, Some c =>
                Some (bmod r c (default (clean_block 2) (off_diagonal !! (i, j))) 2)
            | _, _ => off_diagonal !! (i, j)
            end
       else off_diagonal !! (i, j)) ∧
    st_grid s' !! (1, 1) = Some (bmod tile_a tile_b (clean_block 2) 2) ∧
    bmod tile_a tile_b (clean_block 2) 2 = off_diagonal_fill ∧
    st_grid s' !! (0, 1) = Some tile_b ∧
    st_grid s' !! (1, 0) = Some tile_a ∧
    st_grid s' !! (0, 0) = None.
Proof.
  assert (off_diagonal !! (0, 0) = None) as Hnone by (vm_compute; reflexivity).
  split; [exact Hnone|].
  destruct (seq_step_without_diagonal_tile 2 2 0 (State off_diagonal []) Hnone)
    as (s' & Hrun & Hslots).
  exists s'. split; [exact Hrun|]. split; [exact Hslots|].
  rewrite !Hslots. split_and!; vm_compute; reflexivity.
Defined.

Lemma equal_finite_results_pass_witness :
  Forall (λ xy, xy.1 = xy.2 ∧ finite_float xy.1) (compared_pairs single single 1 2) ∧
  (0 < Z.of_nat (length (compared_pairs single single 1 2)) < 2 ^ 31)%Z ∧
  rms_error single single 1 2 = S754_zero false ∧
  verification_passes (rms_error single single 1 2) = true.
Proof.
  assert (Forall (λ xy : float * float, xy.1 = xy.2 ∧ finite_float xy.1)
            (compared_pairs single single 1 2)) as Hall by by_evaluation.
  assert (0 < Z.of_nat (length (compared_pairs single single 1 2)) < 2 ^ 31)%Z
    as Hlen by by_evaluation.
  split_and!; [done..| |];
    apply (equal_finite_results_pass single single 1 2 Hall Hlen).
Defined.

Lemma empty_comparison_fails_witness :
  compared_pairs (∅ : grid float) ∅ 2 2 = [] ∧
  rms_error (∅ : grid float) ∅ 2 2 = S754_nan ∧
  verification_passes (rms_error (∅ : grid float) ∅ 2 2) = false.
Proof.
  split; [reflexivity|].
  exact (empty_comparison_fails ∅ ∅ 2 2 eq_refl).
Defined.

Lemma nan_difference_fails_witness :
  (S754_infinity false, S754_infinity false)
    ∈ compared_pairs zero_pivot_factored zero_pivot_factored 1 2 ∧
  fsub (S754_infinity false : float) (S754_infinity false) = S754_nan ∧
  rms_error zero_pivot_factored zero_pivot_factored 1 2 = S754_nan ∧
  verification_passes (rms_error zero_pivot_factored zero_pivot_factored 1 2) = false.
Proof.
  assert ((S754_infinity false, S754_infinity false)
            ∈ compared_pairs zero_pivot_factored zero_pivot_factored 1 2) as Hin
    by by_evaluation.
  split_and!; [done|reflexivity| |];
    apply (nan_difference_fails zero_pivot_factored zero_pivot_factored 1 2
             (S754_infinity false) (S754_infinity false) Hin eq_refl).
Defined.

Lemma verification_tells_finiteness_witness :
  (∀ k, k < 5 → present gen5 k k) ∧
  ∃ g', factored Task.sparselu_par_call gen5 5 2 = Some g' ∧
        factored Task.sparselu_seq_call gen5 5 2 = Some g' ∧
        ((0 < Z.of_nat (length (compared_pairs g' g' 5 2)) < 2 ^ 31)%Z →
         verification_passes (rms_error g' g' 5 2) = true ↔
         Forall (λ xy, finite_float xy.1) (compared_pairs g' g' 5 2)).
Proof.
  assert (∀ k, k < 5 → present gen5 k k) as Hdiag by diagonal_by_evaluation.
  split; [done|]. exact (verification_tells_finiteness gen5 5 2 Hdiag).
Defined.
End further_witnesses.
